(** * The DHT core of the marketplace node ([src/node/dht.py])

    A shallow embedding of the [DHT] and [DHTSearch] classes: the lookup
    engine, the local value store operations, the inbound message handlers and
    the republish sweep, followed by the properties proved about them. *)

From Stdlib Require Import ZArith Lia Ascii String.
From stdpp Require Import base decidable countable gmap gmultiset sets list strings.

Open Scope Z_scope.
Set Warnings "-clear-no-such-hyp".

(** ** Python values *)

(** The hashable scalars that occur as components of the tuples the DHT
    passes around: [None], integers (ports) and strings (ips, guids, uris,
    public keys, nicknames). *)
Inductive atom : Type :=
  | ANone
  | AInt (z : Z)
  | AStr (s : string).

#[global] Instance atom_eq_dec : EqDecision atom.
Proof. solve_decision. Defined.

Definition atom_to_sum (a : atom) : unit + (Z + string) :=
  match a with
  | ANone => inl ()
  | AInt z => inr (inl z)
  | AStr s => inr (inr s)
  end.

Definition atom_of_sum (x : unit + (Z + string)) : atom :=
  match x with
  | inl _ => ANone
  | inr (inl z) => AInt z
  | inr (inr s) => AStr s
  end.

#[global] Instance atom_countable : Countable atom.
Proof.
  refine (inj_countable' atom_to_sum atom_of_sum _).
  by intros [].
Defined.

(** A Python tuple of scalars: [(ip, port, guid)], [(ip, port, guid, nick)],
    [(guid, address, pubkey, nickname)]. *)
Abbreviation tuple := (list atom).

(** [t[i]] on a tuple; [None] stands for Python's [IndexError]. *)
Definition tuple_get (t : tuple) (i : nat) : option atom := t !! i.

(** ** [DHT.dedupe] *)

(** [frozenset(item)]: the set of the components of a tuple. *)
Definition frozenset (item : tuple) : gset atom := list_to_set item.

(** The loop of [dedupe], with its two accumulators [seen] and [result]. *)
Fixpoint dedupe_loop (lst : list tuple) (seen : gset (gset atom))
    (result : list tuple) : list tuple :=
  match lst with
  | [] => result
  | item :: rest =>
      let fs := frozenset item in
      if decide (fs ∈ seen)
      then dedupe_loop rest seen result
      else dedupe_loop rest ({[ fs ]} ∪ seen) (result ++ [item])
  end.

Definition dedupe (lst : list tuple) : list tuple := dedupe_loop lst ∅ [].

(** The reading of [dedupe] in the design document, kept apart from the code:
    two items are the same when their components agree as multisets. *)
Definition multiset_of (item : tuple) : gmultiset atom := list_to_set_disj item.

Fixpoint dedupe_by_multiset_loop (lst : list tuple) (seen : list (gmultiset atom))
    (result : list tuple) : list tuple :=
  match lst with
  | [] => result
  | item :: rest =>
      let ms := multiset_of item in
      if decide (ms ∈ seen)
      then dedupe_by_multiset_loop rest seen result
      else dedupe_by_multiset_loop rest (ms :: seen) (result ++ [item])
  end.

Definition dedupe_by_multiset (lst : list tuple) : list tuple :=
  dedupe_by_multiset_loop lst [] [].

(** ** Decoded JSON values *)

(** What a message field or a stored value can hold: a scalar, a boolean, a
    list or a dictionary (as the list of its items; a decoded JSON object has
    no repeated key). Floats are left out. *)
#[warnings="-register-all"]
Inductive pyval : Type :=
  | VAtom (a : atom)
  | VBool (b : bool)
  | VList (l : list pyval)
  | VDict (d : list (string * pyval)).

Abbreviation VNone := (VAtom ANone).
Abbreviation VStr s := (VAtom (AStr s)).
Abbreviation VInt z := (VAtom (AInt z)).

(** A tuple of scalars seen as a value, and a list of such tuples. *)
Definition tuple_val (t : tuple) : pyval := VList (VAtom <$> t).
Definition nodes_val (l : list tuple) : pyval := VList (tuple_val <$> l).

Inductive exn : Type :=
  | KeyError | AssertionError | TypeError | ValueError | IndexError | AttributeError.

Inductive outcome (A : Type) : Type :=
  | Ok (a : A)
  | Raise (e : exn).
Arguments Ok {A} a.
Arguments Raise {A} e.

Definition obind {A B} (o : outcome A) (f : A → outcome B) : outcome B :=
  match o with Ok a => f a | Raise e => Raise e end.

(** [bool(v)] *)
Definition truthy_atom (a : atom) : bool :=
  match a with
  | ANone => false
  | AInt z => negb (z =? 0)
  | AStr s => negb (String.eqb s "")
  end.

Definition truthy (v : pyval) : bool :=
  match v with
  | VAtom a => truthy_atom a
  | VBool b => b
  | VList l => match l with [] => false | _ => true end
  | VDict d => match d with [] => false | _ => true end
  end.

Definition is_none (v : pyval) : bool :=
  match v with VAtom ANone => true | _ => false end.

Fixpoint assoc {A} (key : string) (d : list (string * A)) : option A :=
  match d with
  | [] => None
  | (k', v) :: d' => if String.eqb key k' then Some v else assoc key d'
  end.

(** [v == w]: booleans compare as the integers 0 and 1, lists pointwise,
    dictionaries by their items in any order. *)
Fixpoint py_eqb (v w : pyval) {struct v} : bool :=
  match v with
  | VAtom a =>
      match w with
      | VAtom b => bool_decide (a = b)
      | VBool b => bool_decide (a = AInt (Z.b2z b))
      | _ => false
      end
  | VBool a =>
      match w with
      | VBool b => Bool.eqb a b
      | VAtom b => bool_decide (b = AInt (Z.b2z a))
      | _ => false
      end
  | VList l =>
      match w with
      | VList l' =>
          (fix go (l : list pyval) (l' : list pyval) {struct l} : bool :=
             match l, l' with
             | [], [] => true
             | x :: r, y :: r' => py_eqb x y && go r r'
             | _, _ => false
             end) l l'
      | _ => false
      end
  | VDict d =>
      match w with
      | VDict d' =>
          (length d =? length d')%nat &&
          (fix go (d : list (string * pyval)) {struct d} : bool :=
             match d with
             | [] => true
             | (key, x) :: r =>
                 match assoc key d' with
                 | Some y => py_eqb x y && go r
                 | None => false
                 end
             end) d
      | _ => false
      end
  end.

Fixpoint is_substring (t s : string) : bool :=
  String.prefix t s ||
  match s with
  | EmptyString => false
  | String _ s' => is_substring t s'
  end.

(** [x in c] *)
Definition py_in (x c : pyval) : outcome bool :=
  match c with
  | VList l => Ok (existsb (py_eqb x) l)
  | VDict d =>
      match x with
      | VAtom (AStr s) => Ok (existsb (λ kv, String.eqb s kv.1) d)
      | VAtom _ | VBool _ => Ok false
      | _ => Raise TypeError
      end
  | VAtom (AStr s) =>
      match x with
      | VAtom (AStr t) => Ok (is_substring t s)
      | _ => Raise TypeError
      end
  | _ => Raise TypeError
  end.

(** [c[key]] for a string key *)
Definition py_getitem (c : pyval) (key : string) : outcome pyval :=
  match c with
  | VDict d => match assoc key d with Some v => Ok v | None => Raise KeyError end
  | _ => Raise TypeError
  end.

(** [c[i]] for an integer index [i >= 0] *)
Definition py_subscript (c : pyval) (i : nat) : outcome pyval :=
  match c with
  | VList l => match l !! i with Some v => Ok v | None => Raise IndexError end
  | VAtom (AStr s) =>
      match String.get i s with
      | Some ch => Ok (VStr (String ch EmptyString))
      | None => Raise IndexError
      end
  | VDict _ => Raise KeyError
  | _ => Raise TypeError
  end.

(** The items [for x in c] runs over. *)
Definition py_iter (c : pyval) : outcome (list pyval) :=
  match c with
  | VList l => Ok l
  | VAtom (AStr s) => Ok ((λ ch, VStr (String ch EmptyString)) <$> String.list_ascii_of_string s)
  | VDict d => Ok ((λ kv, VStr kv.1) <$> d)
  | _ => Raise TypeError
  end.

(** [c.append(x)] and [c.remove(x)]: only lists have them. *)
Definition py_append (c x : pyval) : outcome pyval :=
  match c with
  | VList l => Ok (VList (l ++ [x]))
  | _ => Raise AttributeError
  end.

Fixpoint remove_first (x : pyval) (l : list pyval) : option (list pyval) :=
  match l with
  | [] => None
  | y :: r => if py_eqb y x then Some r else cons y <$> remove_first x r
  end.

Definition py_remove (c x : pyval) : outcome pyval :=
  match c with
  | VList l => match remove_first x l with Some l' => Ok (VList l') | None => Raise ValueError end
  | _ => Raise AttributeError
  end.

(** The dictionary [c] after the object under [key] was changed in place. *)
Fixpoint dict_set (d : list (string * pyval)) (key : string) (v : pyval) : list (string * pyval) :=
  match d with
  | [] => []
  | (k', w) :: r => if String.eqb key k' then (k', v) :: r else (k', w) :: dict_set r key v
  end.

Definition py_setfield (c : pyval) (key : string) (v : pyval) : pyval :=
  match c with
  | VDict d => VDict (dict_set d key v)
  | _ => c
  end.

(** [s.encode('hex')] *)
Definition hex_digit (n : nat) : Ascii.ascii :=
  match n with
  | 0%nat => "0" | 1%nat => "1" | 2%nat => "2" | 3%nat => "3" | 4%nat => "4"
  | 5%nat => "5" | 6%nat => "6" | 7%nat => "7" | 8%nat => "8" | 9%nat => "9"
  | 10%nat => "a" | 11%nat => "b" | 12%nat => "c" | 13%nat => "d" | 14%nat => "e"
  | _ => "f"
  end%char.

Fixpoint hex_encode (s : string) : string :=
  match s with
  | EmptyString => EmptyString
  | String c s' =>
      let n := nat_of_ascii c in
      String (hex_digit (n / 16)%nat) (String (hex_digit (n mod 16)%nat) (hex_encode s'))
  end.

(** ** Peers, messages and searches *)

(** A [CryptoPeerConnection] as the DHT reads and writes it. *)
Module Peer.
Record t : Type := mk {
  _guid : atom;
  _address : atom;
  _pub : atom;
  _nickname : atom;
  _ip : atom;
  _port : atom }.

Definition set_address (uri : atom) (p : t) : t :=
  mk (_guid p) uri (_pub p) (_nickname p) (_ip p) (_port p).

Definition set_identity (guid uri pubkey nickname : atom) (p : t) : t :=
  mk guid uri pubkey nickname (_ip p) (_port p).

Definition set_nickname (nickname : atom) (p : t) : t :=
  mk (_guid p) (_address p) (_pub p) nickname (_ip p) (_port p).

Definition set_pub (pubkey : atom) (p : t) : t :=
  mk (_guid p) (_address p) pubkey (_nickname p) (_ip p) (_port p).
End Peer.

(** What the DHT reads of [self._transport]; [guid] and [_guid] name the same
    attribute. *)
Module Transport.
Record t : Type := mk {
  guid : atom;
  _uri : atom;
  pubkey : atom;
  _nickname : atom }.
End Transport.

(** The overlay messages, as dictionaries with the fields the handlers read:
    [None] is a field the dictionary does not have, [Some ANone] one that is
    there and holds [None]. The constructor of [message] is the [type] field. *)
Module FindNode.
Record t : Type := mk {
  uri : option atom;
  senderGUID : option atom;
  key : option atom;
  findValue : option bool;
  senderNick : option atom;
  findID : option atom;
  pubkey : option atom }.
End FindNode.

Module FindNodeResponse.
Record t : Type := mk {
  senderGUID : option atom;
  senderNick : option atom;
  uri : option atom;
  pubkey : option atom;
  foundKey : option pyval;
  foundNode : option tuple;
  foundNodes : option (list tuple);
  findID : option atom }.
End FindNodeResponse.

Module Store.
Record t : Type := mk {
  key : option atom;
  value : option pyval;
  originalPublisherID : option atom;
  age : option Z }.
End Store.

Inductive message : Type :=
  | MFindNode (m : FindNode.t)
  | MFindNodeResponse (m : FindNodeResponse.t)
  | MStore (m : Store.t).

(** Modelled from the spec: [protocol.proto_store] is not among the sources;
    the store message is [{type, key, value, originalPublisherID, age}]. *)
Definition proto_store (key : atom) (value : pyval) (originalPublisherID : atom)
    (age : Z) : message :=
  MStore (Store.mk (Some key) (Some value) (Some originalPublisherID) (Some age)).

(** The callback of a search: none, the closure [iterativeStore] builds around
    [storeKeyValue], or a function of the caller's, known by a name only. *)
Inductive callback : Type :=
  | CbNone
  | CbStoreKeyValue (findKey : atom) (value : pyval) (originalPublisherID : atom) (age : Z)
  | CbExternal (name : string).

Module DHTSearch.
Record t : Type := mk {
  _key : atom;
  _call : string;
  _callback : callback;
  _shortlist : list tuple;
  _active_probes : list tuple;
  _already_contacted : list tuple;
  _previous_closest_node : option tuple;
  _slowNodeCount : list Z;
  _contactedNow : Z;
  _prevShortlistLength : Z;
  _findID : atom }.

(** [DHTSearch.__init__]; [findID] is the digest of the random bytes drawn. *)
Definition init (key : atom) (call : string) (cb : callback) (findID : atom) : t :=
  mk key call cb [] [] [] None [0] 0 0 findID.

Definition set_shortlist (l : list tuple) (s : t) : t :=
  mk (_key s) (_call s) (_callback s) l (_active_probes s) (_already_contacted s)
     (_previous_closest_node s) (_slowNodeCount s) (_contactedNow s)
     (_prevShortlistLength s) (_findID s).

Definition set_active_probes (l : list tuple) (s : t) : t :=
  mk (_key s) (_call s) (_callback s) (_shortlist s) l (_already_contacted s)
     (_previous_closest_node s) (_slowNodeCount s) (_contactedNow s)
     (_prevShortlistLength s) (_findID s).

Definition set_already_contacted (l : list tuple) (s : t) : t :=
  mk (_key s) (_call s) (_callback s) (_shortlist s) (_active_probes s) l
     (_previous_closest_node s) (_slowNodeCount s) (_contactedNow s)
     (_prevShortlistLength s) (_findID s).

Definition set_previous_closest_node (n : option tuple) (s : t) : t :=
  mk (_key s) (_call s) (_callback s) (_shortlist s) (_active_probes s)
     (_already_contacted s) n (_slowNodeCount s) (_contactedNow s)
     (_prevShortlistLength s) (_findID s).

Definition set_slowNodeCount (l : list Z) (s : t) : t :=
  mk (_key s) (_call s) (_callback s) (_shortlist s) (_active_probes s)
     (_already_contacted s) (_previous_closest_node s) l (_contactedNow s)
     (_prevShortlistLength s) (_findID s).

Definition set_contactedNow (n : Z) (s : t) : t :=
  mk (_key s) (_call s) (_callback s) (_shortlist s) (_active_probes s)
     (_already_contacted s) (_previous_closest_node s) (_slowNodeCount s) n
     (_prevShortlistLength s) (_findID s).

Definition set_prevShortlistLength (n : Z) (s : t) : t :=
  mk (_key s) (_call s) (_callback s) (_shortlist s) (_active_probes s)
     (_already_contacted s) (_previous_closest_node s) (_slowNodeCount s)
     (_contactedNow s) n (_findID s).

(** The loop of [add_to_shortlist]. *)
Fixpoint extend (shortlist additions : list tuple) : list tuple :=
  match additions with
  | [] => shortlist
  | item :: rest =>
      if bool_decide (item ∈ shortlist) then extend shortlist rest
      else extend (shortlist ++ [item]) rest
  end.
End DHTSearch.

(** ** Effects *)

Inductive level : Type := debug | info | error.

(** Whom a message goes to: a peer object of the heap, or the peer
    [get_crypto_peer(guid, 'tcp://%s:%s' % (host, port))] just made by
    [storeKeyValue], which the DHT keeps nowhere. *)
Inductive recipient : Type :=
  | Contact (r : nat)
  | NewPeer (guid host port : pyval).

Inductive event : Type :=
  | Log (lvl : level) (text : string)
  | Send (to : recipient) (m : message)
  | StartHandshake (to : recipient) (with_cb : bool)
  | SavePeerToDb (peer_tuple : tuple)
  | Invoke (name : string) (arg : pyval).

(** ** The collaborators that are not among the sources *)

(** The module [constants]. *)
Module constants.
Record t : Type := mk {
  k : Z;
  alpha : Z;
  dataExpireTimeout : Z;
  replicateInterval : Z }.
End constants.

(** [routingtable.OptimizedTreeRoutingTable], by the methods the DHT calls.
    Contacts are peer objects, so the table holds references into the heap of
    peers and reads their fields there. *)
Class RoutingTable (RT : Type) : Type := {
  getContact : RT → list Peer.t → atom → option nat;
  addContact : RT → list Peer.t → nat → RT;
  removeContact : RT → list Peer.t → atom → RT;
  findCloseNodes : RT → list Peer.t → atom → Z → atom → list nat;
  touchKBucket : RT → atom → RT;
  getRefreshList : RT → Z → bool → list atom;
  distance : RT → atom → atom → Z }.

(** What the design document promises of [findCloseNodes(key, n, ex)]: at most
    [n] contacts, all of the heap, none of guid [ex]; and the contact
    [getContact] finds is an object of the heap. *)
Class RoutingTableLaws (RT : Type) `{!RoutingTable RT} : Prop := {
  findCloseNodes_length rt heap key n ex :
    0 ≤ n → Z.of_nat (length (findCloseNodes rt heap key n ex)) ≤ n;
  findCloseNodes_excludes rt heap key n ex r p :
    r ∈ findCloseNodes rt heap key n ex → heap !! r = Some p → Peer._guid p ≠ ex;
  findCloseNodes_alive rt heap key n ex r :
    r ∈ findCloseNodes rt heap key n ex → is_Some (heap !! r);
  getContact_alive rt heap guid r :
    getContact rt heap guid = Some r → is_Some (heap !! r) }.

(** [datastore.SqliteDataStore], by the methods the DHT calls. [getitem] of a
    key the store does not hold is [None], as [storeKeyValue] expects. *)
Class DataStore (DS : Type) : Type := {
  keys : DS → list string;
  contains : DS → atom → bool;
  getitem : DS → atom → pyval;
  setItem : DS → atom → pyval → Z → Z → atom → atom → DS;
  delitem : DS → atom → DS;
  originalPublisherID : DS → atom → atom;
  originalPublishTime : DS → atom → Z;
  lastPublished : DS → atom → Z }.

(** The value store round trip of the design document. *)
Class DataStoreLaws (DS : Type) `{!DataStore DS} : Prop := {
  getitem_setItem ds key v lp op pub mk :
    getitem (setItem ds key v lp op pub mk) key = v;
  getitem_setItem_ne ds key key' v lp op pub mk :
    key ≠ key' → getitem (setItem ds key v lp op pub mk) key' = getitem ds key' }.

(** The rest of the world: the standard library calls, the clock, the random
    source and the transport. [time_time n] is the [n]-th reading of
    [int(time.time())], [urandom_sha1 n] the [n]-th
    [hashlib.sha1(os.urandom(128)).hexdigest()]. *)
Record Env : Type := {
  consts : constants.t;
  json_loads : string → option pyval;
  urlparse_hostname : atom → atom;
  urlparse_port : atom → atom;
  time_time : nat → Z;
  urandom_sha1 : nat → atom;
  get_crypto_peer : atom → atom → atom → atom → Peer.t;
  check_port : Peer.t → bool }.

(** ** The state of a [DHT] object *)

(** Searches and peers are objects that several lists refer to: both live in a
    heap, and [_searches], [_activePeers] and the routing table hold
    references. [clock_reads] and [random_draws] count the readings taken so
    far from the clock and the random source. *)
Module DHT.
Record t (RT DS : Type) : Type := mk {
  _settings_guid : atom;
  _transport : Transport.t;
  _market_id : atom;
  _knownNodes : list tuple;
  _searches : list nat;
  _activePeers : list nat;
  _routingTable : RT;
  _dataStore : DS;
  peer_heap : list Peer.t;
  search_heap : list DHTSearch.t;
  clock_reads : nat;
  random_draws : nat }.
Arguments mk {RT DS}.
Arguments _settings_guid {RT DS}.
Arguments _transport {RT DS}.
Arguments _market_id {RT DS}.
Arguments _knownNodes {RT DS}.
Arguments _searches {RT DS}.
Arguments _activePeers {RT DS}.
Arguments _routingTable {RT DS}.
Arguments _dataStore {RT DS}.
Arguments peer_heap {RT DS}.
Arguments search_heap {RT DS}.
Arguments clock_reads {RT DS}.
Arguments random_draws {RT DS}.

Section setters.
Context {RT DS : Type}.
Implicit Type st : t RT DS.

Definition set_knownNodes (l : list tuple) st : t RT DS :=
  mk (_settings_guid st) (_transport st) (_market_id st) l (_searches st)
     (_activePeers st) (_routingTable st) (_dataStore st) (peer_heap st)
     (search_heap st) (clock_reads st) (random_draws st).

Definition set_searches (l : list nat) st : t RT DS :=
  mk (_settings_guid st) (_transport st) (_market_id st) (_knownNodes st) l
     (_activePeers st) (_routingTable st) (_dataStore st) (peer_heap st)
     (search_heap st) (clock_reads st) (random_draws st).

Definition set_activePeers (l : list nat) st : t RT DS :=
  mk (_settings_guid st) (_transport st) (_market_id st) (_knownNodes st)
     (_searches st) l (_routingTable st) (_dataStore st) (peer_heap st)
     (search_heap st) (clock_reads st) (random_draws st).

Definition set_routingTable (rt : RT) st : t RT DS :=
  mk (_settings_guid st) (_transport st) (_market_id st) (_knownNodes st)
     (_searches st) (_activePeers st) rt (_dataStore st) (peer_heap st)
     (search_heap st) (clock_reads st) (random_draws st).

Definition set_dataStore (ds : DS) st : t RT DS :=
  mk (_settings_guid st) (_transport st) (_market_id st) (_knownNodes st)
     (_searches st) (_activePeers st) (_routingTable st) ds (peer_heap st)
     (search_heap st) (clock_reads st) (random_draws st).

Definition set_peer_heap (h : list Peer.t) st : t RT DS :=
  mk (_settings_guid st) (_transport st) (_market_id st) (_knownNodes st)
     (_searches st) (_activePeers st) (_routingTable st) (_dataStore st) h
     (search_heap st) (clock_reads st) (random_draws st).

Definition set_search_heap (h : list DHTSearch.t) st : t RT DS :=
  mk (_settings_guid st) (_transport st) (_market_id st) (_knownNodes st)
     (_searches st) (_activePeers st) (_routingTable st) (_dataStore st)
     (peer_heap st) h (clock_reads st) (random_draws st).

Definition set_clock_reads (n : nat) st : t RT DS :=
  mk (_settings_guid st) (_transport st) (_market_id st) (_knownNodes st)
     (_searches st) (_activePeers st) (_routingTable st) (_dataStore st)
     (peer_heap st) (search_heap st) n (random_draws st).

Definition set_random_draws (n : nat) st : t RT DS :=
  mk (_settings_guid st) (_transport st) (_market_id st) (_knownNodes st)
     (_searches st) (_activePeers st) (_routingTable st) (_dataStore st)
     (peer_heap st) (search_heap st) (clock_reads st) n.
End setters.
End DHT.


(** The messages a trace sends, with their recipients. *)
Definition sends (ev : list event) : list (recipient * message) :=
  omap (λ e, match e with Send to m => Some (to, m) | _ => None end) ev.

(** The [findNode] probes a trace sends for the search of id [findID]. *)
Definition probes (findID : atom) (ev : list event) : list recipient :=
  omap (λ e, match e with
             | Send to (MFindNode m) =>
                 if bool_decide (FindNode.findID m = Some findID) then Some to else None
             | _ => None
             end) ev.

(** ** The methods of [DHT] *)

Section Model.
Context {RT DS : Type} `{!RoutingTable RT} `{!DataStore DS}.
Variable env : Env.

(** A method runs on the state of the object; it ends with a value or an
    exception, leaves a state behind either way, and has a trace of effects. *)
Definition action (A : Type) : Type :=
  DHT.t RT DS → outcome A * DHT.t RT DS * list event.

Definition result_of {A} (x : outcome A * DHT.t RT DS * list event) : outcome A := x.1.1.
Definition state_of {A} (x : outcome A * DHT.t RT DS * list event) : DHT.t RT DS := x.1.2.
Definition trace_of {A} (x : outcome A * DHT.t RT DS * list event) : list event := x.2.

#[local] Instance action_ret : MRet action := λ A a st, (Ok a, st, []).

#[local] Instance action_bind : MBind action := λ A B f m st,
  match m st with
  | (Ok a, st', ev) => let '(r, st'', ev') := f a st' in (r, st'', ev ++ ev')
  | (Raise e, st', ev) => (Raise e, st', ev)
  end.

Definition raise {A} (e : exn) : action A := λ st, (Raise e, st, []).
Definition lift {A} (o : outcome A) : action A := λ st, (o, st, []).
Definition emit (ev : list event) : action unit := λ st, (Ok (), st, ev).
Definition log (lvl : level) (text : string) : action unit := emit [Log lvl text].
Definition send (to : recipient) (m : message) : action unit := emit [Send to m].
Definition gets {A} (f : DHT.t RT DS → A) : action A := λ st, (Ok (f st), st, []).
Definition modify (f : DHT.t RT DS → DHT.t RT DS) : action unit := λ st, (Ok (), f st, []).

(** [int(time.time())] *)
Definition read_clock : action Z := λ st,
  (Ok (time_time env (DHT.clock_reads st)),
   DHT.set_clock_reads (S (DHT.clock_reads st)) st, []).

(** [msg['field']] *)
Definition field {A} (o : option A) : action A :=
  match o with Some a => mret a | None => raise KeyError end.

Definition assert (b : bool) : action unit :=
  if b then mret () else raise AssertionError.

Definition not_none (a : atom) : bool := negb (bool_decide (a = ANone)).

(** The peer object behind a reference. A reference always names an object
    of the heap; the second case only makes the function total. *)
Definition get_peer (r : nat) : action Peer.t := λ st,
  match DHT.peer_heap st !! r with
  | Some p => (Ok p, st, [])
  | None => (Raise AttributeError, st, [])
  end.

Definition update_peer (r : nat) (f : Peer.t → Peer.t) : action unit :=
  modify (λ st, DHT.set_peer_heap (alter f r (DHT.peer_heap st)) st).

Definition rt_getContact (guid : atom) : action (option nat) :=
  gets (λ st, getContact (DHT._routingTable st) (DHT.peer_heap st) guid).

Definition rt_removeContact (guid : atom) : action unit :=
  modify (λ st, DHT.set_routingTable
                  (removeContact (DHT._routingTable st) (DHT.peer_heap st) guid) st).

Definition rt_addContact (r : nat) : action unit :=
  modify (λ st, DHT.set_routingTable
                  (addContact (DHT._routingTable st) (DHT.peer_heap st) r) st).

Fixpoint for_each {A B} (f : A → action B) (l : list A) : action (list B) :=
  match l with
  | [] => mret []
  | x :: r => y ← f x; ys ← for_each f r; mret (y :: ys)
  end.

(** *** [close_nodes] and [on_find_node] *)

Definition close_nodes (key guid : atom) : action (list tuple) :=
  contacts ← gets (λ st, findCloseNodes (DHT._routingTable st) (DHT.peer_heap st)
                           key (constants.k (consts env)) guid);
  contactTriples ← for_each (λ r, contact ← get_peer r;
                                  mret [Peer._guid contact; Peer._address contact;
                                        Peer._pub contact; Peer._nickname contact])
                            contacts;
  mret (dedupe contactTriples).

(** The [findNodeResponse] dictionary with one of the three found fields. *)
Definition findNodeResponse (tr : Transport.t) (findID : atom)
    (foundKey : option pyval) (foundNode : option tuple)
    (foundNodes : option (list tuple)) : message :=
  MFindNodeResponse
    (FindNodeResponse.mk (Some (Transport.guid tr)) (Some (Transport._nickname tr))
       (Some (Transport._uri tr)) (Some (Transport.pubkey tr))
       foundKey foundNode foundNodes (Some findID)).

Definition on_find_node (msg : FindNode.t) : action unit :=
  log debug "Received a findNode request: %s";;
  guid ← field (FindNode.senderGUID msg);
  key ← field (FindNode.key msg);
  findID ← field (FindNode.findID msg);
  uri ← field (FindNode.uri msg);
  pubkey ← field (FindNode.pubkey msg);
  tr ← gets DHT._transport;
  assert (not_none guid && bool_decide (guid ≠ Transport.guid tr));;
  assert (not_none key);;
  assert (not_none findID);;
  assert (not_none uri);;
  assert (not_none pubkey);;
  new_peer ← rt_getContact guid;
  match new_peer with
  | None => mret ()
  | Some r =>
      findValue ← field (FindNode.findValue msg);
      (if findValue : bool then
         ds ← gets DHT._dataStore;
         if contains ds key && negb (is_none (getitem ds key)) then
           send (Contact r) (findNodeResponse tr findID (Some (getitem ds key)) None None)
         else
           log info "Did not find a key: %s";;
           contacts ← close_nodes key guid;
           log info "Sending found nodes to: %s";;
           send (Contact r) (findNodeResponse tr findID None None (Some contacts))
       else
         foundContact ← rt_getContact key;
         match foundContact with
         | Some c =>
             log info "Found the node";;
             contact ← get_peer c;
             let foundNode := [Peer._guid contact; Peer._address contact; Peer._pub contact] in
             send (Contact r) (findNodeResponse tr findID None (Some foundNode) None)
         | None =>
             contacts ← close_nodes key guid;
             log info "Sending found nodes to: %s";;
             send (Contact r) (findNodeResponse tr findID None None (Some contacts))
         end);;
      peer ← get_peer r;
      if bool_decide (Peer._address peer ≠ uri) then
        update_peer r (Peer.set_address uri);;
        rt_removeContact (Peer._guid peer);;
        rt_addContact r
      else mret ()
  end.

(** A field of a message that is absent or holds [None]. *)
Definition missing (o : option atom) : Prop := o = None ∨ o = Some ANone.

(** The reply [on_find_node] owes a known sender, in the words of the design
    document: the value when a value was asked for and the store holds one
    that is not [None]; the contact when a node was asked for and the key is
    a known contact; the close nodes otherwise. *)
Definition contact_tuple (contact : Peer.t) : tuple :=
  [Peer._guid contact; Peer._address contact; Peer._pub contact; Peer._nickname contact].

Definition close_tuples (st : DHT.t RT DS) (key guid : atom) : list tuple :=
  dedupe (omap (λ r, contact_tuple <$> DHT.peer_heap st !! r)
            (findCloseNodes (DHT._routingTable st) (DHT.peer_heap st) key
               (constants.k (consts env)) guid)).

Definition expected_reply (st : DHT.t RT DS) (guid key findID : atom) (findValue : bool)
    : message :=
  let tr := DHT._transport st in
  let ds := DHT._dataStore st in
  if findValue && contains ds key && negb (is_none (getitem ds key)) then
    findNodeResponse tr findID (Some (getitem ds key)) None None
  else
    match (if findValue then None
           else getContact (DHT._routingTable st) (DHT.peer_heap st) key) with
    | Some c =>
        findNodeResponse tr findID None
          ((λ p, [Peer._guid p; Peer._address p; Peer._pub p]) <$> DHT.peer_heap st !! c) None
    | None => findNodeResponse tr findID None None (Some (close_tuples st key guid))
    end.

(** *** The local store: [store], [_on_storeValue], [storeKeyValue] *)

Definition ds_setItem (key : atom) (value : pyval) (now originallyPublished : Z)
    (originalPublisherID : atom) : action unit :=
  modify (λ st, DHT.set_dataStore
                  (setItem (DHT._dataStore st) key value now originallyPublished
                     originalPublisherID (DHT._market_id st)) st).

Definition store (key : atom) (value : pyval) (originalPublisherID : atom) (age : Z)
    (kwargs : gmap string atom) : action string :=
  let rpcSenderID :=
    match kwargs !! "_rpcNodeID"%string with
    | Some v => v
    | None => ANone
    end in
  originalPublisherID ←
    (if not_none originalPublisherID then mret originalPublisherID
     else if not_none rpcSenderID then mret rpcSenderID
     else raise TypeError);
  now ← read_clock;
  let originallyPublished := now - age in
  ds_setItem key value now originallyPublished originalPublisherID;;
  mret "OK"%string.

Definition _on_storeValue (msg : Store.t) : action unit :=
  log debug "Received Store Command";;
  key ← field (Store.key msg);
  value ← field (Store.value msg);
  originalPublisherID ← field (Store.originalPublisherID msg);
  age ← field (Store.age msg);
  now ← read_clock;
  let originallyPublished := now - age in
  if truthy value then
    ds_setItem key value now originallyPublished originalPublisherID
  else
    log info "No value to store".

(** [json.loads(value)]: a [TypeError] unless [value] is a string, a
    [ValueError] when the string is not JSON. *)
Definition py_json_loads (value : pyval) : outcome pyval :=
  match value with
  | VAtom (AStr s) =>
      match json_loads env s with
      | Some j => Ok j
      | None => Raise ValueError
      end
  | _ => Raise TypeError
  end.

(** One [..._index_add] block of [storeKeyValue]: the new [value] and what
    was logged, or the exception that left the [try]. *)
Definition index_add (ds : DS) (key : atom) (op index logtext : string)
    (value_json value : pyval) : outcome (pyval * list event) :=
  obind (py_in (VStr op) value_json) (λ present,
  if present : bool then
    let existing_index := getitem ds key in
    if negb (is_none existing_index) then
      obind (py_getitem value_json op) (λ x,
      obind (py_getitem existing_index index) (λ l,
      obind (py_in x l) (λ already,
      if already : bool then Ok (existing_index, [Log info logtext])
      else
        obind (py_append l x) (λ l',
        Ok (py_setfield existing_index index l', [Log info logtext])))))
    else
      obind (py_getitem value_json op) (λ x,
      Ok (VDict [(index, VList [x])], [Log info logtext]))
  else Ok (value, [])).

(** One [..._index_remove] block: the new [value], or [None] when the block
    returns from [storeKeyValue]. *)
Definition index_remove (ds : DS) (key : atom) (op index : string)
    (value_json value : pyval) : outcome (option pyval) :=
  obind (py_in (VStr op) value_json) (λ present,
  if present : bool then
    let existing_index := getitem ds key in
    if negb (is_none existing_index) then
      obind (py_getitem value_json op) (λ x,
      obind (py_getitem existing_index index) (λ l,
      obind (py_in x l) (λ there,
      if there : bool then
        obind (py_remove l x) (λ l',
        Ok (Some (py_setfield existing_index index l')))
      else Ok None)))
    else Ok None
  else Ok (Some value)).

(** The [try] statement of [storeKeyValue]: [Some value] when control reaches
    the statements after it (also through the [except] clause, with the value
    assigned so far), [None] when one of the blocks returned. *)
Definition index_merge (ds : DS) (key : atom) (value : pyval) : option pyval * list event :=
  let caught := [Log debug "Value is not a JSON array: %s"] in
  match py_json_loads value with
  | Raise _ => (Some value, caught)
  | Ok value_json =>
  match index_add ds key "notary_index_add" "notaries" "Notaries: %s" value_json value with
  | Raise _ => (Some value, caught)
  | Ok (value1, ev1) =>
  match index_remove ds key "notary_index_remove" "notaries" value_json value1 with
  | Raise _ => (Some value1, ev1 ++ caught)
  | Ok None => (None, ev1)
  | Ok (Some value2) =>
  match index_add ds key "keyword_index_add" "listings" "keyword %s" value_json value2 with
  | Raise _ => (Some value2, ev1 ++ caught)
  | Ok (value3, ev3) =>
  match index_remove ds key "keyword_index_remove" "listings" value_json value3 with
  | Raise _ => (Some value3, ev1 ++ ev3 ++ caught)
  | Ok None => (None, ev1 ++ ev3)
  | Ok (Some value4) => (Some value4, ev1 ++ ev3)
  end end end end end.

(** [self._routingTable.getContact(guid)] for a guid read off a node; only a
    scalar names a contact. *)
Definition rt_getContact_val (guid : pyval) : action (option nat) :=
  match guid with
  | VAtom a => rt_getContact a
  | _ => mret None
  end.

(** The [for node in nodes] loop of [storeKeyValue]. *)
Fixpoint store_loop (nodes : list pyval) (key : atom) (value : pyval)
    (originalPublisherID : atom) (age : Z) : action unit :=
  match nodes with
  | [] => mret ()
  | node :: rest =>
      host ← lift (py_subscript node 0);
      port ← lift (py_subscript node 1);
      guid ← lift (py_subscript node 2);
      peer ← rt_getContact_val guid;
      tr ← gets DHT._transport;
      if py_eqb guid (VAtom (Transport.guid tr)) then mret ()
      else
        peer ← match peer with
               | Some r => mret (Contact r)
               | None =>
                   emit [StartHandshake (NewPeer guid host port) false];;
                   mret (NewPeer guid host port)
               end;
        send peer (proto_store key value originalPublisherID age);;
        store_loop rest key value originalPublisherID age
  end.

Definition storeKeyValue (nodes : pyval) (key : atom) (value : pyval)
    (originalPublisherID : atom) (age : Z) : action unit :=
  log debug "Store Key Value: (%s, %s %s)";;
  ds ← gets DHT._dataStore;
  let '(merged, logged) := index_merge ds key value in
  emit logged;;
  match merged with
  | None => mret ()
  | Some value =>
      now ← read_clock;
      let originallyPublished := now - age in
      ds_setItem key value now originallyPublished originalPublisherID;;
      items ← lift (py_iter nodes);
      store_loop items key value originalPublisherID age
  end.


(** *** Searches *)

Definition get_search (r : nat) : action DHTSearch.t := λ st,
  match DHT.search_heap st !! r with
  | Some s => (Ok s, st, [])
  | None => (Raise AttributeError, st, [])
  end.

Definition update_search (r : nat) (f : DHTSearch.t → DHTSearch.t) : action unit :=
  modify (λ st, DHT.set_search_heap (alter f r (DHT.search_heap st)) st).

(** [s._findID == findID] for the search object behind [r]. *)
Definition has_findID (st : DHT.t RT DS) (findID : atom) (r : nat) : bool :=
  match DHT.search_heap st !! r with
  | Some s => bool_decide (DHTSearch._findID s = findID)
  | None => false
  end.

Definition activeSearchExists (st : DHT.t RT DS) (findID : atom) : bool :=
  existsb (has_findID st findID) (DHT._searches st).

(** The search the loop [for s in self._searches: if s._findID == findID:
    search = s] ends with: the last one of that id. *)
Definition find_search (st : DHT.t RT DS) (findID : atom) : option nat :=
  last (filter (λ r, has_findID st findID r = true) (DHT._searches st)).

(** [DHTSearch.add_to_shortlist], which logs to the search's own logger. *)
Definition add_to_shortlist (search : nat) (additions : list tuple) : action unit :=
  log debug "Additions: %s";;
  update_search search
    (λ s, DHTSearch.set_shortlist (DHTSearch.extend (DHTSearch._shortlist s) additions) s);;
  log debug "Updated short list: %s".

(** The callback of a search applied to [arg]; a callback of the caller's is
    recorded in the trace. *)
Definition call_callback (cb : callback) (arg : pyval) : action unit :=
  match cb with
  | CbNone => raise TypeError
  | CbStoreKeyValue findKey value originalPublisherID age =>
      storeKeyValue arg findKey value originalPublisherID age
  | CbExternal name => emit [Invoke name arg]
  end.

(** *** [add_peer] *)

Definition alloc_peer (p : Peer.t) : action nat := λ st,
  (Ok (length (DHT.peer_heap st)), DHT.set_peer_heap (DHT.peer_heap st ++ [p]) st, []).

(** The loop over [enumerate(self._activePeers)]: [true] when it returned. *)
Fixpoint add_peer_loop (activePeers : list nat) (uri pubkey guid nickname : atom)
    : action bool :=
  match activePeers with
  | [] => mret false
  | r :: rest =>
      peer ← get_peer r;
      let active_peer_tuple :=
        [Peer._pub peer; Peer._address peer; Peer._guid peer; Peer._nickname peer] in
      let peer_tuple := [uri; pubkey; guid; nickname] in
      if bool_decide (active_peer_tuple = peer_tuple) then
        old_peer ← rt_getContact guid;
        match old_peer with
        | Some o =>
            old ← get_peer o;
            if bool_decide (Peer._address old ≠ uri) || bool_decide (Peer._pub old ≠ pubkey)
            then rt_removeContact guid;; rt_addContact r
            else mret ()
        | None => mret ()
        end;;
        log info "Already in active peer list";;
        mret true
      else if bool_decide (Peer._guid peer = guid) || bool_decide (Peer._address peer = uri) then
        log debug "Partial Match";;
        update_peer r (Peer.set_identity guid uri pubkey nickname);;
        rt_removeContact guid;;
        rt_addContact r;;
        mret true
      else add_peer_loop rest uri pubkey guid nickname
  end.

Definition add_peer (uri pubkey guid nickname : atom) : action unit :=
  assert (truthy_atom uri);;
  if not_none uri then
    activePeers ← gets DHT._activePeers;
    returned ← add_peer_loop activePeers uri pubkey guid nickname;
    if returned : bool then mret ()
    else
      log debug "New Peer";;
      let new_peer := get_crypto_peer env guid uri pubkey nickname in
      r ← alloc_peer new_peer;
      if check_port env new_peer then emit [StartHandshake (Contact r) true]
      else mret ()
  else log debug "Missing peer attributes".

(** The closure [cb] that [add_peer] hands to [start_handshake], for the new
    peer [r]; the transport runs it when the handshake is done. *)
Definition add_peer_cb (r : nat) (uri pubkey guid nickname : atom) : action unit :=
  log debug "Back from handshake";;
  new_peer ← get_peer r;
  rt_removeContact (Peer._guid new_peer);;
  rt_addContact r;;
  modify (λ st, DHT.set_knownNodes
                  (DHT._knownNodes st ++
                   [[urlparse_hostname env uri; urlparse_port env uri; Peer._guid new_peer]]) st);;
  emit [SavePeerToDb [uri; pubkey; guid; nickname]].

(** *** [extendShortlist] *)

(** The shortlist entry [(node_ip, node_port, node_guid, node_nick)] of a
    found node [(guid, uri, pubkey, nickname)]. *)
Definition shortlist_entry (node : tuple) : tuple :=
  match node with
  | [node_guid; node_uri; node_pubkey; node_nick] =>
      [urlparse_hostname env node_uri; urlparse_port env node_uri; node_guid; node_nick]
  | _ => []
  end.

(** The body of the loop of [extendShortlist], for one node. *)
Definition extendShortlist_node (search : nat) (node : tuple) : action unit :=
  match node with
  | [node_guid; node_uri; node_pubkey; node_nick] =>
      let node_ip := urlparse_hostname env node_uri in
      let node_port := urlparse_port env node_uri in
      s ← get_search search;
      (if bool_decide ([node_ip; node_port; node_guid; node_nick] ∈ DHTSearch._shortlist s)
       then mret ()
       else add_to_shortlist search [[node_ip; node_port; node_guid; node_nick]]);;
      settings_guid ← gets DHT._settings_guid;
      if bool_decide (node_guid = settings_guid) then mret ()
      else
        (* [for peer in self._activePeers: ... continue] changes nothing *)
        if bool_decide (node_guid ≠ settings_guid) then
          log debug "Adding new peer to active peers list: %s";;
          add_peer node_uri node_pubkey node_guid node_nick
        else mret ()
  | _ => raise ValueError
  end.

Fixpoint extendShortlist_loop (search : nat) (foundNodes : list tuple) : action unit :=
  match foundNodes with
  | [] => mret ()
  | node :: rest =>
      extendShortlist_node search node;;
      extendShortlist_loop search rest
  end.

Definition extendShortlist (findID : atom) (foundNodes : list tuple) : action unit :=
  log debug "foundNodes: %s";;
  st ← gets id;
  match find_search st findID with
  | None => log error "There was no search found for this ID"
  | Some search =>
      log debug "Short list before: %s";;
      extendShortlist_loop search foundNodes;;
      log debug "Short list after: %s"
  end.

(** *** [_searchIteration] *)

(** [l.sort(cmp)] comparing the keys [f x]: a stable sort. *)
Fixpoint insert_by {A} (f : A → Z) (x : A) (l : list A) : list A :=
  match l with
  | [] => [x]
  | y :: r => if f x <=? f y then x :: y :: r else y :: insert_by f x r
  end.

Definition sort_by {A} (f : A → Z) (l : list A) : list A :=
  foldr (insert_by f) [] l.

Definition peer_guid (st : DHT.t RT DS) (r : nat) : atom :=
  match DHT.peer_heap st !! r with
  | Some p => Peer._guid p
  | None => ANone
  end.

(** [node[i]] on a tuple *)
Definition tuple_index (node : tuple) (i : nat) : outcome atom :=
  match node !! i with
  | Some a => Ok a
  | None => Raise IndexError
  end.

(** The body of the loop that sends the probes, for one node of the
    shortlist. *)
Definition probe_node (new_search : nat) (findValue : bool) (node : tuple) : action unit :=
  s ← get_search new_search;
  if bool_decide (node ∈ DHTSearch._already_contacted s) then mret ()
  else
    guid ← lift (tuple_index node 2);
    tr ← gets DHT._transport;
    if bool_decide (guid ≠ Transport.guid tr) then
      update_search new_search
        (λ s, DHTSearch.set_active_probes (DHTSearch._active_probes s ++ [node]) s);;
      update_search new_search
        (λ s, DHTSearch.set_already_contacted (DHTSearch._already_contacted s ++ [node]) s);;
      contact ← rt_getContact guid;
      match contact with
      | Some c =>
          (* [contact._transport] is the transport of this node *)
          let msg :=
            MFindNode (FindNode.mk (Some (Transport._uri tr)) (Some (Transport.guid tr))
                         (Some (DHTSearch._key s)) (Some findValue)
                         (Some (Transport._nickname tr)) (Some (DHTSearch._findID s))
                         (Some (Transport.pubkey tr))) in
          log debug "Sending findNode to: %s %s";;
          send (Contact c) msg;;
          update_search new_search
            (λ s, DHTSearch.set_contactedNow (DHTSearch._contactedNow s + 1) s)
      | None => log error "No contact was found for this guid: %s"
      end
    else mret ().

(** The loop that sends the probes; it stops after a node at which the
    counter equals [alpha]. *)
Fixpoint probe_loop (new_search : nat) (findValue : bool) (shortlist : list tuple)
    : action unit :=
  match shortlist with
  | [] => mret ()
  | node :: rest =>
      probe_node new_search findValue node;;
      s ← get_search new_search;
      if DHTSearch._contactedNow s =? constants.alpha (consts env) then mret ()
      else probe_loop new_search findValue rest
  end.

(** The first half of [_searchIteration], up to the test for a cancelled
    search: the slow node count, the two sorts, the closest active peer. *)
Definition prepare_iteration (new_search : nat) : action unit :=
  s ← get_search new_search;
  update_search new_search
    (λ s, DHTSearch.set_slowNodeCount
            (<[0%nat := Z.of_nat (length (DHTSearch._active_probes s))]> (DHTSearch._slowNodeCount s)) s);;
  modify (λ st, DHT.set_activePeers
                  (sort_by (λ p, distance (DHT._routingTable st) (peer_guid st p) (DHTSearch._key s))
                     (DHT._activePeers st)) st);;
  activePeers ← gets DHT._activePeers;
  match activePeers with
  | closestPeer :: _ =>
      p ← get_peer closestPeer;
      let closestPeer_ip := urlparse_hostname env (Peer._address p) in
      let closestPeer_port := urlparse_port env (Peer._address p) in
      update_search new_search
        (DHTSearch.set_previous_closest_node
           (Some [closestPeer_ip; closestPeer_port; Peer._guid p]));;
      log debug "Previous Closest Node %s"
  | [] => mret ()
  end;;
  s ← get_search new_search;
  if (1 <? length (DHTSearch._shortlist s))%nat then
    log info "Short List: %s";;
    let deduped := dedupe (DHTSearch._shortlist s) in
    update_search new_search (DHTSearch.set_shortlist deduped);;
    (* the comparisons of the sort read [node[2]] of every node; a list of
       one node is sorted without a comparison *)
    (if (1 <? length deduped)%nat
     then for_each (λ node, lift (tuple_index node 2)) deduped;; mret ()
     else mret ());;
    rt ← gets DHT._routingTable;
    let sorted :=
      sort_by (λ node, match node !! 2%nat with
                       | Some g => distance rt g (DHTSearch._key s)
                       | None => 0
                       end) deduped in
    update_search new_search (DHTSearch.set_shortlist sorted);;
    update_search new_search (DHTSearch.set_prevShortlistLength (Z.of_nat (length sorted)))
  else mret ().

Definition _searchIteration (new_search : nat) (findValue : bool) : action unit :=
  prepare_iteration new_search;;
  st ← gets id;
  s ← get_search new_search;
  if negb (activeSearchExists st (DHTSearch._findID s)) then
    log info "Active search does not exist"
  else probe_loop new_search findValue (DHTSearch._shortlist s).

(** *** [_iterativeFind] and its callers *)

(** What [_iterativeFind] returns. *)
Inductive find_result : Type :=
  | LookingForYourself
  | ActivePeer (node : nat)
  | NoNodes
  | ReturnsNone.

Definition new_findID : action atom := λ st,
  (Ok (urandom_sha1 env (DHT.random_draws st)),
   DHT.set_random_draws (S (DHT.random_draws st)) st, []).

Definition alloc_search (s : DHTSearch.t) : action nat := λ st,
  (Ok (length (DHT.search_heap st)), DHT.set_search_heap (DHT.search_heap st ++ [s]) st, []).

Definition _iterativeFind (key : atom) (startupShortlist : option (list tuple))
    (call : string) (cb : callback) : action find_result :=
  findID ← new_findID;
  new_search ← alloc_search (DHTSearch.init key call cb findID);
  modify (λ st, DHT.set_searches (DHT._searches st ++ [new_search]) st);;
  let findValue := negb (String.eqb call "findNode") in
  settings_guid ← gets DHT._settings_guid;
  if negb findValue && bool_decide (key = settings_guid) then mret LookingForYourself
  else
    found ← (if negb findValue then
               log info "Looking for node in your active connections list";;
               gets (λ st, head (filter (λ r, peer_guid st r = key) (DHT._activePeers st)))
             else mret None);
    match found with
    | Some node => mret (ActivePeer node)
    | None =>
        continue ←
          match startupShortlist with
          | Some (n :: l) =>
              (* the source makes the caller's list object the shortlist; the
                 model takes its value, so a caller that changes its list
                 afterwards is not followed *)
              update_search new_search (DHTSearch.set_shortlist (n :: l));;
              mret true
          | _ =>
              closeNodes ← gets (λ st, findCloseNodes (DHT._routingTable st) (DHT.peer_heap st)
                                         key (constants.alpha (consts env)) settings_guid);
              shortlist ← for_each (λ r, closeNode ← get_peer r;
                                         mret [Peer._ip closeNode; Peer._port closeNode;
                                               Peer._guid closeNode])
                                   closeNodes;
              (if (0 <? length shortlist)%nat then add_to_shortlist new_search shortlist
               else mret ());;
              (if bool_decide (key ≠ settings_guid) then
                 modify (λ st, DHT.set_routingTable (touchKBucket (DHT._routingTable st) key) st)
               else mret ());;
              s ← get_search new_search;
              if (length (DHTSearch._shortlist s) =? 0)%nat then
                log info "Out of nodes to search, stopping search";;
                match cb with
                | CbNone => mret false
                | _ => call_callback cb (nodes_val []);; mret true
                end
              else mret true
          end;
        if continue : bool then _searchIteration new_search findValue;; mret ReturnsNone
        else mret NoNodes
    end.

Definition iterativeFindNode (key : atom) (cb : callback) : action unit :=
  log info "Looking for node at: %s";;
  _iterativeFind key None "findNode" cb;;
  mret ().

Definition iterativeFindValue (key : atom) (cb : callback) : action unit :=
  log debug "[Iterative Find Value]";;
  _iterativeFind key None "findValue" cb;;
  mret ().

(** [iterativeStore(transport, key, value_to_store, originalPublisherID, age)];
    the defaults [None] and [0] are passed by the caller. *)
Definition iterativeStore (key : atom) (value_to_store : pyval)
    (originalPublisherID : atom) (age : Z) : action unit :=
  tr ← gets DHT._transport;
  let originalPublisherID :=
    if not_none originalPublisherID then originalPublisherID else Transport.guid tr in
  if truthy value_to_store then
    iterativeFindNode key (CbStoreKeyValue key value_to_store originalPublisherID age)
  else mret ().


(** *** [on_findNodeResponse] *)

(** The loop that refreshes the active peers of the sender's guid. *)
Fixpoint refresh_sender (activePeers : list nat) (msg : FindNodeResponse.t) : action unit :=
  match activePeers with
  | [] => mret ()
  | r :: rest =>
      peer ← get_peer r;
      senderGUID ← field (FindNodeResponse.senderGUID msg);
      (if bool_decide (Peer._guid peer = senderGUID) then
         senderNick ← field (FindNodeResponse.senderNick msg);
         update_peer r (Peer.set_nickname senderNick);;
         pubkey ← field (FindNodeResponse.pubkey msg);
         update_peer r (Peer.set_pub pubkey)
       else mret ());;
      refresh_sender rest msg
  end.

(** [for idx, s in enumerate(self._searches): if s._findID == msg['findID']:
    <call>; del self._searches[idx]]. The list shrinks under the loop, which
    goes on at the next index; [fuel] is the length of the list at the start. *)
Fixpoint remove_searches (fuel idx : nat) (msg : FindNodeResponse.t)
    (call : callback → action unit) : action unit :=
  match fuel with
  | O => mret ()
  | S fuel =>
      searches ← gets DHT._searches;
      match searches !! idx with
      | None => mret ()
      | Some r =>
          s ← get_search r;
          findID ← field (FindNodeResponse.findID msg);
          (if bool_decide (DHTSearch._findID s = findID) then
             call (DHTSearch._callback s);;
             modify (λ st, DHT.set_searches (delete idx (DHT._searches st)) st)
           else mret ());;
          remove_searches fuel (S idx) msg call
      end
  end.

(** [for idx, probe in enumerate(l): if probe == x: del l[idx]] *)
Fixpoint del_enumerating (fuel idx : nat) (x : tuple) (l : list tuple) : list tuple :=
  match fuel with
  | O => l
  | S fuel =>
      match l !! idx with
      | None => l
      | Some probe =>
          if bool_decide (probe = x) then del_enumerating fuel (S idx) x (delete idx l)
          else del_enumerating fuel (S idx) x l
      end
  end.

(** The loop over [msg['foundNodes']]. *)
Fixpoint found_nodes_loop (foundNodes : list tuple) (msg : FindNodeResponse.t) : action unit :=
  match foundNodes with
  | [] => mret ()
  | node :: rest =>
      log info "FOUND NODE: %s";;
      tr ← gets DHT._transport;
      n0 ← lift (tuple_index node 0);
      (if bool_decide (n0 ≠ Transport.guid tr) then
         n2 ← lift (tuple_index node 2);
         if bool_decide (n2 ≠ Transport.pubkey tr) then
           n1 ← lift (tuple_index node 1);
           if bool_decide (n1 ≠ Transport._uri tr) then
             log info "Found it %s %s";;
             findID ← field (FindNodeResponse.findID msg);
             extendShortlist findID [node]
           else mret ()
         else mret ()
       else mret ());;
      found_nodes_loop rest msg
  end.

Definition on_findNodeResponse (msg : FindNodeResponse.t) : action unit :=
  activePeers ← gets DHT._activePeers;
  refresh_sender activePeers msg;;
  match FindNodeResponse.foundKey msg with
  | Some foundKey =>
      log debug "Found the key-value pair. Executing callback.";;
      searches ← gets DHT._searches;
      remove_searches (length searches) 0 msg (λ cb, call_callback cb foundKey)
  | None =>
      match FindNodeResponse.foundNode msg with
      | Some foundNode =>
          log debug "Found the node you were looking for: %s";;
          tr ← gets DHT._transport;
          n2 ← lift (tuple_index foundNode 2);
          foundNode ←
            (if bool_decide (n2 ≠ Transport.guid tr) then
               log debug "Found a tuple %s";;
               let foundNode :=
                 if (length foundNode =? 3)%nat then foundNode ++ [AStr ""] else foundNode in
               n1 ← lift (tuple_index foundNode 1);
               n0 ← lift (tuple_index foundNode 0);
               n3 ← lift (tuple_index foundNode 3);
               add_peer n1 n2 n0 n3;;
               mret foundNode
             else mret foundNode);
          searches ← gets DHT._searches;
          remove_searches (length searches) 0 msg
            (λ cb, match cb with
                   | CbNone => mret ()
                   | _ =>
                       n1 ← lift (tuple_index foundNode 1);
                       n0 ← lift (tuple_index foundNode 0);
                       n3 ← lift (tuple_index foundNode 3);
                       call_callback cb (tuple_val [n2; n1; n0; n3])
                   end)
      | None =>
          findID ← field (FindNodeResponse.findID msg);
          st ← gets id;
          match find_search st findID with
          | None => log info "No search found"
          | Some search =>
              s ← get_search search;
              let shortlist_length := length (DHTSearch._shortlist s) in
              foundNodes ← field (FindNodeResponse.foundNodes msg);
              found_nodes_loop foundNodes msg;;
              uri ← field (FindNodeResponse.uri msg);
              let search_ip := urlparse_hostname env uri in
              let search_port := urlparse_port env uri in
              search_guid ← field (FindNodeResponse.senderGUID msg);
              let search_tuple := [search_ip; search_port; search_guid] in
              update_search search
                (λ s, DHTSearch.set_active_probes
                        (del_enumerating (length (DHTSearch._active_probes s)) 0 search_tuple
                           (DHTSearch._active_probes s)) s);;
              log debug "Find Node Response - Active Probes After: %s";;
              update_search search
                (λ s, if bool_decide (search_tuple ∈ DHTSearch._already_contacted s) then s
                      else DHTSearch.set_already_contacted
                             (DHTSearch._already_contacted s ++ [search_tuple]) s);;
              log debug "Already Contacted: %s";;
              s ← get_search search;
              if (shortlist_length <? length (DHTSearch._shortlist s))%nat then
                log info "Lets keep searching";;
                _searchIteration search false
              else
                log info "Shortlist is empty";;
                match DHTSearch._callback s with
                | CbNone => mret ()
                | cb => call_callback cb (nodes_val (DHTSearch._shortlist s))
                end
          end
      end
  end.

(** *** The maintenance scheduler *)

(** The loop of [_threadedRepublishData] over [self._dataStore.keys()]; it
    returns [expiredKeys]. *)
Fixpoint republish_loop (ks : list string) (expiredKeys : list atom) : action (list atom) :=
  match ks with
  | [] => mret expiredKeys
  | key :: rest =>
      if String.eqb key "nodeState" then republish_loop rest expiredKeys
      else
        now ← read_clock;
        let key := AStr (hex_encode key) in
        ds ← gets DHT._dataStore;
        let originalPublisherID := originalPublisherID ds key in
        let age := now - originalPublishTime ds key + 500000 in
        settings_guid ← gets DHT._settings_guid;
        if bool_decide (originalPublisherID = settings_guid) then
          (if constants.dataExpireTimeout (consts env) <=? age then
             iterativeStore key (getitem ds key) ANone 0
           else mret ());;
          republish_loop rest expiredKeys
        else if constants.dataExpireTimeout (consts env) <=? age then
          republish_loop rest (expiredKeys ++ [key])
        else if constants.replicateInterval (consts env) <=? now - lastPublished ds key then
          iterativeStore key (getitem ds key) originalPublisherID age;;
          republish_loop rest expiredKeys
        else republish_loop rest expiredKeys
  end.

Definition _threadedRepublishData : action unit :=
  log debug "Republishing Data";;
  ks ← gets (λ st, keys (DHT._dataStore st));
  expiredKeys ← republish_loop ks [];
  for_each (λ key, modify (λ st, DHT.set_dataStore (delitem (DHT._dataStore st) key) st))
           expiredKeys;;
  mret ().

Definition _republishData : action unit := _threadedRepublishData.

(** [searchForNextNodeID] pops the ids off the end of the list. *)
Definition _refreshRoutingTable : action unit :=
  log info "Started Refreshing Routing Table";;
  nodeIDs ← gets (λ st, getRefreshList (DHT._routingTable st) 0 false);
  for_each (λ searchID, iterativeFindNode searchID CbNone) (reverse nodeIDs);;
  mret ().

Definition _refreshNode : action unit :=
  _refreshRoutingTable;;
  _republishData.

(** *** The life of a node *)

(** The calls the rest of the program makes on the DHT: the three inbound
    messages, the public operations, the timer and the end of a handshake. *)
Inductive call : Type :=
  | Call_on_find_node (msg : FindNode.t)
  | Call_on_findNodeResponse (msg : FindNodeResponse.t)
  | Call_on_storeValue (msg : Store.t)
  | Call_store (key : atom) (value : pyval) (originalPublisherID : atom) (age : Z)
      (kwargs : gmap string atom)
  | Call_iterativeStore (key : atom) (value : pyval) (originalPublisherID : atom) (age : Z)
  | Call_iterativeFindNode (key : atom) (cb : callback)
  | Call_iterativeFindValue (key : atom) (cb : callback)
  | Call_extendShortlist (findID : atom) (foundNodes : list tuple)
  | Call_add_peer (uri pubkey guid nickname : atom)
  | Call_add_peer_cb (r : nat) (uri pubkey guid nickname : atom)
  | Call_refreshNode.

Definition run (c : call) : action unit :=
  match c with
  | Call_on_find_node msg => on_find_node msg
  | Call_on_findNodeResponse msg => on_findNodeResponse msg
  | Call_on_storeValue msg => _on_storeValue msg
  | Call_store key value pub age kwargs => store key value pub age kwargs;; mret ()
  | Call_iterativeStore key value pub age => iterativeStore key value pub age
  | Call_iterativeFindNode key cb => iterativeFindNode key cb
  | Call_iterativeFindValue key cb => iterativeFindValue key cb
  | Call_extendShortlist findID foundNodes => extendShortlist findID foundNodes
  | Call_add_peer uri pubkey guid nickname => add_peer uri pubkey guid nickname
  | Call_add_peer_cb r uri pubkey guid nickname => add_peer_cb r uri pubkey guid nickname
  | Call_refreshNode => _refreshNode
  end.

(** A sequence of calls; a call that raises leaves its state behind and the
    next one runs from there. *)
Fixpoint run_all (cs : list call) (st : DHT.t RT DS) : DHT.t RT DS * list event :=
  match cs with
  | [] => (st, [])
  | c :: rest =>
      let '(_, st', ev) := run c st in
      let '(st'', ev') := run_all rest st' in
      (st'', ev ++ ev')
  end.

(** *** The active peers, the known nodes and [start] *)

(** [getActivePeers] *)
Definition getActivePeers : action (list nat) := gets DHT._activePeers.

(** [add_known_node] *)
Definition add_known_node (node : tuple) : action unit :=
  knownNodes ← gets DHT._knownNodes;
  if bool_decide (node ∈ knownNodes) then mret ()
  else modify (λ st, DHT.set_knownNodes (DHT._knownNodes st ++ [node]) st).

(** [get_known_nodes] *)
Definition get_known_nodes : action (list tuple) := gets DHT._knownNodes.

(** The test of [find_active_peer] on the peer object behind [r]. *)
Definition is_peer (st : DHT.t RT DS) (uri pubkey guid nickname : atom) (r : nat) : bool :=
  match DHT.peer_heap st !! r with
  | Some peer =>
      bool_decide ([guid; uri; pubkey; nickname]
                   = [Peer._guid peer; Peer._address peer; Peer._pub peer; Peer._nickname peer])
  | None => false
  end.

(** The loop of [find_active_peer]; [found_peer] is [None] for [False]. *)
Fixpoint find_active_peer_loop (activePeers : list nat) (uri pubkey guid nickname : atom)
    (found_peer : option nat) : action (option nat) :=
  match activePeers with
  | [] => mret found_peer
  | r :: rest =>
      peer ← get_peer r;
      if bool_decide ([guid; uri; pubkey; nickname]
                      = [Peer._guid peer; Peer._address peer; Peer._pub peer;
                         Peer._nickname peer])
      then find_active_peer_loop rest uri pubkey guid nickname (Some r)
      else find_active_peer_loop rest uri pubkey guid nickname found_peer
  end.

Definition find_active_peer (uri pubkey guid nickname : atom) : action (option nat) :=
  activePeers ← gets DHT._activePeers;
  find_active_peer_loop activePeers uri pubkey guid nickname None.

(** [uri == peer._address] for the peer object behind [r]. *)
Definition has_address (st : DHT.t RT DS) (uri : atom) (r : nat) : bool :=
  match DHT.peer_heap st !! r with
  | Some peer => bool_decide (uri = Peer._address peer)
  | None => false
  end.

(** [for idx, peer in enumerate(self._activePeers): if uri == peer._address:
    self._activePeers[idx].cleanup_context(); del self._activePeers[idx]].
    The list shrinks under the loop, which goes on at the next index; [fuel]
    is the length of the list at the start. The call of [cleanup_context] is
    recorded with the reference of the peer. *)
Fixpoint remove_active_peer_loop (fuel idx : nat) (uri : atom) : action unit :=
  match fuel with
  | O => mret ()
  | S fuel =>
      activePeers ← gets DHT._activePeers;
      match activePeers !! idx with
      | None => mret ()
      | Some r =>
          peer ← get_peer r;
          (if bool_decide (uri = Peer._address peer) then
             emit [Invoke "cleanup_context" (VAtom (AInt (Z.of_nat r)))];;
             modify (λ st, DHT.set_activePeers (delete idx (DHT._activePeers st)) st)
           else mret ());;
          remove_active_peer_loop fuel (S idx) uri
      end
  end.

Definition remove_active_peer (uri : atom) : action unit :=
  activePeers ← gets DHT._activePeers;
  remove_active_peer_loop (length activePeers) 0 uri.

(** [start(seed_peer)]; the fields of the seed peer are read before
    [add_peer] runs. *)
Definition start (seed_peer : Peer.t) : action unit :=
  let ip := Peer._ip seed_peer in
  let port := Peer._port seed_peer in
  add_known_node [ip; port; Peer._guid seed_peer; Peer._nickname seed_peer];;
  log debug "Starting Seed Peer: %s";;
  add_peer (Peer._address seed_peer) (Peer._pub seed_peer) (Peer._guid seed_peer)
    (Peer._nickname seed_peer);;
  settings_guid ← gets DHT._settings_guid;
  knownNodes ← gets DHT._knownNodes;
  _iterativeFind settings_guid (Some knownNodes) "findNode" CbNone;;
  mret ().

End Model.

(** ** Deleting from a list under a loop over it *)

(** What [for idx, x in enumerate(l): if p(x): del l[idx]] leaves of [l]: the
    item after a deleted one moves into its place and is passed over. *)
Fixpoint del_skipping {A} (p : A → bool) (l : list A) : list A :=
  match l with
  | [] => []
  | x :: rest =>
      if p x then
        match rest with
        | [] => []
        | y :: rest' => y :: del_skipping p rest'
        end
      else x :: del_skipping p rest
  end.

(** No two neighbours of [l] both meet [p]. *)
Fixpoint no_neighbours {A} (p : A → bool) (l : list A) : Prop :=
  match l with
  | [] => True
  | x :: rest =>
      match rest with
      | [] => True
      | y :: _ => ¬ (p x = true ∧ p y = true)
      end ∧ no_neighbours p rest
  end.


(** ** A routing table and a value store to run the model on *)

(** The value of a hexadecimal digit. *)
Definition hex_value (c : Ascii.ascii) : option Z :=
  let n := Z.of_nat (nat_of_ascii c) in
  if (48 <=? n) && (n <=? 57) then Some (n - 48)
  else if (97 <=? n) && (n <=? 102) then Some (n - 87)
  else if (65 <=? n) && (n <=? 70) then Some (n - 55)
  else None.

Fixpoint hex_to_Z (s : string) (acc : Z) : Z :=
  match s with
  | EmptyString => acc
  | String c s' =>
      match hex_value c with
      | Some d => hex_to_Z s' (16 * acc + d)
      | None => hex_to_Z s' (16 * acc)
      end
  end.

(** [s.decode('hex')], when [s] is a string of pairs of hexadecimal digits. *)
Fixpoint hex_decode (s : string) : option string :=
  match s with
  | EmptyString => Some EmptyString
  | String a (String b s') =>
      match hex_value a, hex_value b, hex_decode s' with
      | Some x, Some y, Some r => Some (String (ascii_of_nat (Z.to_nat (16 * x + y))) r)
      | _, _, _ => None
      end
  | String _ EmptyString => None
  end.

(** Modelled from the spec: the identifier an atom stands for, as a number;
    guids and keys are hexadecimal strings of one key space. *)
Definition guid_value (a : atom) : Z :=
  match a with
  | AStr s => hex_to_Z s 0
  | AInt z => z
  | ANone => 0
  end.

(** Modelled from the spec: [routingtable.OptimizedTreeRoutingTable] is not
    among the sources. The design document gives [get(guid)], [add(contact)]
    (a contact already there moves to the most recently seen position, a new
    one is appended), [remove(guid)], [findCloseNodes(key, n, excluding)] (up
    to [n] contacts in ascending XOR distance to [key], without the excluded
    guid) and [Distance(a, b) = a XOR b]. The contacts are kept least recently
    seen first in one list; buckets, their capacity and their time stamps are
    left out. *)
Module FlatTable.
Record t : Type := mk { contacts : list nat }.

Definition guid_of (heap : list Peer.t) (r : nat) : option atom :=
  Peer._guid <$> heap !! r.

Definition xor_distance (a b : atom) : Z := Z.lxor (guid_value a) (guid_value b).

Definition get (rt : t) (heap : list Peer.t) (guid : atom) : option nat :=
  head (filter (λ r, guid_of heap r = Some guid) (contacts rt)).

Definition remove (rt : t) (heap : list Peer.t) (guid : atom) : t :=
  mk (filter (λ r, guid_of heap r ≠ Some guid) (contacts rt)).

Definition add (rt : t) (heap : list Peer.t) (r : nat) : t :=
  mk (filter (λ r', r' ≠ r ∧ guid_of heap r' ≠ guid_of heap r) (contacts rt) ++ [r]).

Fixpoint insert_near (heap : list Peer.t) (key : atom) (r : nat) (l : list nat) : list nat :=
  match l with
  | [] => [r]
  | r' :: rest =>
      if xor_distance (default ANone (guid_of heap r)) key
         <=? xor_distance (default ANone (guid_of heap r')) key
      then r :: r' :: rest
      else r' :: insert_near heap key r rest
  end.

Definition close (rt : t) (heap : list Peer.t) (key : atom) (n : Z) (ex : atom) : list nat :=
  take (Z.to_nat n)
    (foldr (insert_near heap key) []
       (filter (λ r, is_Some (heap !! r) ∧ guid_of heap r ≠ Some ex) (contacts rt))).
End FlatTable.

#[global] Instance flat_routing_table : RoutingTable FlatTable.t := {
  getContact := FlatTable.get;
  addContact := FlatTable.add;
  removeContact := FlatTable.remove;
  findCloseNodes := FlatTable.close;
  touchKBucket rt _ := rt;
  getRefreshList _ _ _ := [];
  distance _ := FlatTable.xor_distance }.

(** Modelled from the spec: [datastore.SqliteDataStore] is not among the
    sources. The design document gives a map keyed by hexadecimal keys with
    [put], [get], [del], [keys] and the three metadata accessors; [keys]
    lists the keys decoded, which is what the sweep encodes again. *)
Module DictStore.
Record entry : Type := mk_entry {
  value : pyval;
  lastPublished : Z;
  originallyPublished : Z;
  originalPublisherID : atom;
  market_id : atom }.

Record t : Type := mk { items : gmap atom entry }.

Definition decoded (key : atom) : option string :=
  match key with
  | AStr s => hex_decode s
  | _ => None
  end.

Definition keys (ds : t) : list string := omap decoded (elements (dom (items ds))).
Definition contains (ds : t) (key : atom) : bool := bool_decide (is_Some (items ds !! key)).
Definition get (ds : t) (key : atom) : pyval :=
  match items ds !! key with
  | Some e => value e
  | None => VNone
  end.
Definition put (ds : t) (key : atom) (v : pyval) (lp op : Z) (pub mkt : atom) : t :=
  mk (<[key := mk_entry v lp op pub mkt]> (items ds)).
Definition del (ds : t) (key : atom) : t := mk (delete key (items ds)).
End DictStore.

#[global] Instance dict_data_store : DataStore DictStore.t := {
  keys := DictStore.keys;
  contains := DictStore.contains;
  getitem := DictStore.get;
  setItem := DictStore.put;
  delitem := DictStore.del;
  originalPublisherID ds key :=
    match DictStore.items ds !! key with
    | Some e => DictStore.originalPublisherID e
    | None => ANone
    end;
  originalPublishTime ds key :=
    match DictStore.items ds !! key with
    | Some e => DictStore.originallyPublished e
    | None => 0
    end;
  lastPublished ds key :=
    match DictStore.items ds !! key with
    | Some e => DictStore.lastPublished e
    | None => 0
    end }.

(** A world with the conventional constants; [urlparse] reads uris of the
    form [tcp://host:port], no string is JSON, the clock stands at [now], the
    [n]-th find id is [n + 1] digits [f] and every port answers. *)
Module World.
Definition after (sep s : string) : string :=
  match String.index 0 sep s with
  | Some i => String.substring (i + String.length sep) (String.length s) s
  | None => s
  end.

Definition before (sep s : string) : string :=
  match String.index 0 sep s with
  | Some i => String.substring 0 i s
  | None => s
  end.

Fixpoint decimal (s : string) (acc : Z) : Z :=
  match s with
  | EmptyString => acc
  | String c s' => decimal s' (10 * acc + (Z.of_nat (nat_of_ascii c) - 48))
  end.

Definition hostname (uri : atom) : atom :=
  match uri with
  | AStr s => AStr (before ":" (after "://" s))
  | _ => ANone
  end.

Definition port (uri : atom) : atom :=
  match uri with
  | AStr s =>
      match String.index 0 ":" (after "://" s) with
      | Some _ => AInt (decimal (after ":" (after "://" s)) 0)
      | None => ANone
      end
  | _ => ANone
  end.

Fixpoint find_id (n : nat) : string :=
  match n with
  | O => "f"
  | S n => String "f" (find_id n)
  end.

Definition crypto_peer (guid uri pubkey nickname : atom) : Peer.t :=
  Peer.mk guid uri pubkey nickname (hostname uri) (port uri).

Definition env (now : Z) : Env := {|
  consts := constants.mk 20 3 86400 3600;
  json_loads _ := None;
  urlparse_hostname := hostname;
  urlparse_port := port;
  time_time _ := now;
  urandom_sha1 n := AStr (find_id n);
  get_crypto_peer := crypto_peer;
  check_port _ := true |}.
End World.


(** A node to run examples on: guid [00], three contacts in the routing
    table, a fourth peer whose handshake is still under way, an empty store. *)
Module Demo.
Definition me : atom := AStr "00".

Definition transport : Transport.t :=
  Transport.mk me (AStr "tcp://10.0.0.1:1000") (AStr "pk1") (AStr "nick1").

Definition peer (guid n : string) : Peer.t :=
  World.crypto_peer (AStr guid) (AStr ("tcp://10.0.0." ++ n ++ ":1000"))
    (AStr ("pk" ++ n)) (AStr ("nick" ++ n)).

Definition peers : list Peer.t :=
  [peer "f1" "2"; peer "f2" "3"; peer "f4" "4"; peer "f8" "5"].

Definition node : DHT.t FlatTable.t DictStore.t :=
  DHT.mk me transport (AStr "1") [] [] [] (FlatTable.mk [1%nat; 2%nat; 3%nat])
    (DictStore.mk ∅) peers [] 0 0.

Definition now : Z := 1400000000.
Definition env : Env := World.env now.

(** A well-formed [findNode] request of the contact [f2] for the node [f0],
    and the same request without its [key]. *)
Definition find_node : FindNode.t :=
  FindNode.mk (Some (AStr "tcp://10.0.0.3:1000")) (Some (AStr "f2")) (Some (AStr "f0"))
    (Some false) (Some (AStr "nick3")) (Some (AStr "ab")) (Some (AStr "pk3")).

Definition find_node_no_key : FindNode.t :=
  FindNode.mk (Some (AStr "tcp://10.0.0.3:1000")) (Some (AStr "f2")) None
    (Some false) (Some (AStr "nick3")) (Some (AStr "ab")) (Some (AStr "pk3")).

(** The request with [None] for its [key]. *)
Definition find_node_none_key : FindNode.t :=
  FindNode.mk (Some (AStr "tcp://10.0.0.3:1000")) (Some (AStr "f2")) (Some ANone)
    (Some false) (Some (AStr "nick3")) (Some (AStr "ab")) (Some (AStr "pk3")).

(** A [store] message that carries a keyword index operation. *)
Definition keyword_index_add (listing : string) : Store.t :=
  Store.mk (Some (AStr "6b")) (Some (VDict [("keyword_index_add"%string, VStr listing)]))
    (Some (AStr "f2")) (Some 0).

(** A lookup of the node [f0]: it starts the search of id [f], which probes
    the three contacts. [searching] is the node after it. *)
Definition lookup : call := Call_iterativeFindNode (AStr "f0") (CbExternal "done").
Definition searching : DHT.t FlatTable.t DictStore.t := (run_all env [lookup] node).1.

(** The node as [_iterativeFind] has it before the first iteration of the
    lookup of [f0]: the new search, its shortlist the three contacts, its
    counter still at zero. *)
Definition fresh_search : DHTSearch.t :=
  DHTSearch.set_shortlist
    [[AStr "10.0.0.3"; AInt 1000; AStr "f2"]; [AStr "10.0.0.4"; AInt 1000; AStr "f4"];
     [AStr "10.0.0.5"; AInt 1000; AStr "f8"]]
    (DHTSearch.init (AStr "f0") "findNode" (CbExternal "done") (AStr "f")).

Definition starting : DHT.t FlatTable.t DictStore.t :=
  DHT.set_searches [0%nat] (DHT.set_search_heap [fresh_search] node).

(** Found nodes, as a [findNodeResponse] lists them: the local node and the
    peer [f1]. *)
Definition found_self : tuple := [me; AStr "tcp://10.0.0.1:1000"; AStr "pk1"; AStr "nick1"].
Definition found_f1 : tuple :=
  [AStr "f1"; AStr "tcp://10.0.0.2:1000"; AStr "pk2"; AStr "nick2"].

(** The handshake with the peer [f1] coming back, which puts it in the
    routing table, and the answer of [f2] to its probe, which names [f1]. *)
Definition handshake_done : call :=
  Call_add_peer_cb 0 (AStr "tcp://10.0.0.2:1000") (AStr "pk2") (AStr "f1") (AStr "nick2").

Definition response : FindNodeResponse.t :=
  FindNodeResponse.mk (Some (AStr "f2")) (Some (AStr "nick3"))
    (Some (AStr "tcp://10.0.0.3:1000")) (Some (AStr "pk3")) None None
    (Some [found_f1]) (Some (AStr "f")).

(** The node with three keys in its store, all published at [now]: [own],
    of which it is the publisher, [rep], published by [f2], and
    [nodeState]. *)
Definition key_own : atom := AStr (hex_encode "own").
Definition key_rep : atom := AStr (hex_encode "rep").
Definition key_nodeState : atom := AStr (hex_encode "nodeState").

Definition store : DictStore.t :=
  DictStore.mk
    (<[key_own := DictStore.mk_entry (VStr "mine") now now me (AStr "1")]>
       (<[key_rep := DictStore.mk_entry (VStr "theirs") now now (AStr "f2") (AStr "1")]>
          (<[key_nodeState := DictStore.mk_entry (VStr "state") now now me (AStr "1")]> ∅))).

Definition storing : DHT.t FlatTable.t DictStore.t := DHT.set_dataStore store node.

(** The node with the peers [f1], [f2] and [f4] as its active peers. *)
Definition connected : DHT.t FlatTable.t DictStore.t :=
  DHT.set_activePeers [0%nat; 1%nat; 2%nat] node.

(** The node with an empty routing table. *)
Definition alone : DHT.t FlatTable.t DictStore.t :=
  DHT.set_routingTable (FlatTable.mk []) node.

(** The text [{"keyword_index_add": "L2"}], and a world whose [json.loads]
    reads this one text. *)
Definition quoted (s : string) : string :=
  String (ascii_of_nat 34) (s ++ String (ascii_of_nat 34) EmptyString).

Definition keyword_add_text : string :=
  "{" ++ quoted "keyword_index_add" ++ ": " ++ quoted "L2" ++ "}".

Definition env_json : Env := {|
  consts := consts env;
  json_loads s :=
    if String.eqb s keyword_add_text
    then Some (VDict [("keyword_index_add"%string, VStr "L2")]) else None;
  urlparse_hostname := urlparse_hostname env;
  urlparse_port := urlparse_port env;
  time_time := time_time env;
  urandom_sha1 := urandom_sha1 env;
  get_crypto_peer := get_crypto_peer env;
  check_port := check_port env |}.

(** The node with the index [{listings: ["L1"]}] under the key [6b]. *)
Definition indexing : DHT.t FlatTable.t DictStore.t :=
  DHT.set_dataStore
    (DictStore.mk
       (<[AStr "6b" := DictStore.mk_entry (VDict [("listings"%string, VList [VStr "L1"])])
                         now now me (AStr "1")]> ∅)) node.
End Demo.


(** ** [tornadoloop.py] *)

(** The search of [start_node] for a port the web application can listen on:
    [while error and http_port < 8988: try: application.listen(http_port);
    error = False; except: http_port += 1]. [listen port] tells whether
    [application.listen(port)] returns; no port is tried twice. Every turn of
    the loop but the last moves to the next port, so a hundred turns
    ([fuel]) are enough. *)
Module tornadoloop.
Fixpoint listen_loop (listen : Z → bool) (fuel : nat) (error : bool) (http_port : Z)
    : bool * Z :=
  if error && (http_port <? 8988) then
    match fuel with
    | O => (error, http_port)
    | S fuel =>
        if listen http_port then listen_loop listen fuel false http_port
        else listen_loop listen fuel error (http_port + 1)
    end
  else (error, http_port).

(** [error] and [http_port] after the loop. *)
Definition find_http_port (listen : Z → bool) : bool * Z :=
  listen_loop listen 100 true 8888.
End tornadoloop.


(** ** Relations between the state before and after a method *)

Section Relations.
Context {RT DS : Type} `{!RoutingTable RT} `{!DataStore DS}.
Implicit Type st : DHT.t RT DS.

(** A relation between the state before a method, its state after and its
    trace, which holds of doing nothing and of doing one thing after another. *)
Class Frame (R : DHT.t RT DS → DHT.t RT DS → list event → Prop) : Prop := {
  frame_refl st : R st st [];
  frame_trans st st' st'' ev ev' : R st st' ev → R st' st'' ev' → R st st'' (ev ++ ev') }.

(** The relation holds of every effect but a [send]. *)
Class FrameQuiet (R : DHT.t RT DS → DHT.t RT DS → list event → Prop) : Prop :=
  frame_quiet st e : (∀ to m, e ≠ Send to m) → R st st [e].

Class FrameSend (R : DHT.t RT DS → DHT.t RT DS → list event → Prop) : Prop :=
  frame_send st to m : R st st [Send to m].

(** The relation holds of every change to the peers, the routing table, the
    known nodes and the order of the active peers. *)
Class FramePeers (R : DHT.t RT DS → DHT.t RT DS → list event → Prop) : Prop := {
  frame_alter_peer st r f : R st (DHT.set_peer_heap (alter f r (DHT.peer_heap st)) st) [];
  frame_alloc_peer st p : R st (DHT.set_peer_heap (DHT.peer_heap st ++ [p]) st) [];
  frame_routingTable st rt : R st (DHT.set_routingTable rt st) [];
  frame_knownNodes st l : R st (DHT.set_knownNodes l st) [];
  frame_activePeers st l : R st (DHT.set_activePeers l st) [] }.

(** ... of every change to the value store and of reading the clock. *)
Class FrameStore (R : DHT.t RT DS → DHT.t RT DS → list event → Prop) : Prop := {
  frame_dataStore st ds : R st (DHT.set_dataStore ds st) [];
  frame_clock st n : R st (DHT.set_clock_reads n st) [] }.

(** ... of every update of a search object by a function that meets [P]. *)
Class FrameSearch (P : (DHTSearch.t → DHTSearch.t) → Prop)
    (R : DHT.t RT DS → DHT.t RT DS → list event → Prop) : Prop :=
  frame_alter_search st r f :
    P f → R st (DHT.set_search_heap (alter f r (DHT.search_heap st)) st) [].

(** ... of making a new search and appending it to the active searches. *)
Class FrameNewSearch (R : DHT.t RT DS → DHT.t RT DS → list event → Prop) : Prop := {
  frame_random st n : R st (DHT.set_random_draws n st) [];
  frame_alloc_search st s : R st (DHT.set_search_heap (DHT.search_heap st ++ [s]) st) [];
  frame_append_search st r : R st (DHT.set_searches (DHT._searches st ++ [r]) st) [] }.

Definition same_id (f : DHTSearch.t → DHTSearch.t) : Prop :=
  ∀ s, DHTSearch._findID (f s) = DHTSearch._findID s.

Definition same_counter (f : DHTSearch.t → DHTSearch.t) : Prop :=
  ∀ s, DHTSearch._findID (f s) = DHTSearch._findID s
       ∧ DHTSearch._contactedNow (f s) = DHTSearch._contactedNow s.

Definition keeps {A} (R : DHT.t RT DS → DHT.t RT DS → list event → Prop)
    (m : action A) : Prop :=
  ∀ st, R st (state_of (m st)) (trace_of (m st)).


(** The active searches and the search objects are as they were. *)
Definition searches_untouched (st st' : DHT.t RT DS) (ev : list event) : Prop :=
  DHT._searches st' = DHT._searches st ∧ DHT.search_heap st' = DHT.search_heap st.

(** Every active search of id [fid] is still an active search of id [fid]. *)
Definition survives (fid : atom) (st st' : DHT.t RT DS) (ev : list event) : Prop :=
  ∀ r, r ∈ DHT._searches st → has_findID st fid r = true →
       r ∈ DHT._searches st' ∧ has_findID st' fid r = true.

(** Nothing was sent, and the search object [r] has its find id and its
    counter of contacted nodes as before. *)
Definition counter_kept (r : nat) (st st' : DHT.t RT DS) (ev : list event) : Prop :=
  sends ev = []
  ∧ ∀ s, DHT.search_heap st !! r = Some s →
         ∃ s', DHT.search_heap st' !! r = Some s'
               ∧ DHTSearch._findID s' = DHTSearch._findID s
               ∧ DHTSearch._contactedNow s' = DHTSearch._contactedNow s.

(** Nothing was sent, and the search objects are as they were. *)
Definition searches_silent (st st' : DHT.t RT DS) (ev : list event) : Prop :=
  sends ev = [] ∧ DHT.search_heap st' = DHT.search_heap st.

(** Nothing was sent, and nothing changed but peer objects and the routing
    table. *)
Definition peers_only (st st' : DHT.t RT DS) (ev : list event) : Prop :=
  sends ev = []
  ∧ st' = DHT.set_routingTable (DHT._routingTable st')
            (DHT.set_peer_heap (DHT.peer_heap st') st)
  ∧ (length (DHT.peer_heap st) ≤ length (DHT.peer_heap st'))%nat.

(** The events of [add_peer]: its log lines and the handshake. *)
Definition add_peer_event (e : event) : Prop :=
  e = Log info "Already in active peer list" ∨ e = Log debug "Partial Match"
  ∨ e = Log debug "New Peer" ∨ ∃ r, e = StartHandshake (Contact r) true.

(** Nothing was sent, and nothing changed but the value store and the count
    of clock readings. *)
Definition store_only (st st' : DHT.t RT DS) (ev : list event) : Prop :=
  sends ev = []
  ∧ st' = DHT.set_clock_reads (DHT.clock_reads st') (DHT.set_dataStore (DHT._dataStore st') st).

(** The value store is as it was. *)
Definition store_kept (st st' : DHT.t RT DS) (ev : list event) : Prop :=
  DHT._dataStore st' = DHT._dataStore st.

(** The active searches are the ones there were, in their places, and
    possibly more after them. *)
Definition searches_grow (st st' : DHT.t RT DS) (ev : list event) : Prop :=
  DHT._searches st `prefix_of` DHT._searches st'.

End Relations.

(** * Properties *)

(** ** [dedupe] *)

Lemma dedupe_loop_app (l1 l2 : list tuple) (seen : gset (gset atom)) (result : list tuple) :
  dedupe_loop (l1 ++ l2) seen result
  = dedupe_loop l2 (seen ∪ list_to_set (frozenset <$> l1)) (dedupe_loop l1 seen result).
Proof.
  revert seen result. induction l1 as [|item l1 IH]; intros seen result; simpl.
  - f_equal. set_solver.
  - case_decide as Hin.
    + rewrite IH. f_equal. set_solver.
    + rewrite IH. f_equal. set_solver.
Qed.

Lemma dedupe_loop_sublist (l : list tuple) (seen : gset (gset atom)) (result : list tuple) :
  ∃ kept, dedupe_loop l seen result = result ++ kept ∧ sublist kept l.
Proof.
  revert seen result. induction l as [|item l IH]; intros seen result; simpl.
  - exists []. split; [by rewrite app_nil_r | constructor].
  - case_decide.
    + destruct (IH seen result) as (kept & -> & Hsub).
      exists kept. split; [done | by constructor].
    + destruct (IH ({[frozenset item]} ∪ seen) (result ++ [item])) as (kept & -> & Hsub).
      exists (item :: kept). split; [by rewrite <- app_assoc | by constructor].
Qed.

Lemma seen_frozenset (l : list tuple) (x : tuple) :
  frozenset x ∈ (list_to_set (frozenset <$> l) : gset (gset atom))
  ↔ Exists (λ y, frozenset y = frozenset x) l.
Proof.
  rewrite elem_of_list_to_set, list_elem_of_fmap, Exists_exists.
  split; intros (y & ? & ?); exists y; done.
Qed.

Lemma frozenset_swap (a b : atom) : frozenset [b; a] = frozenset [a; b].
Proof. unfold frozenset. simpl. set_solver. Qed.

Lemma frozenset_multiplicity (a b : atom) : frozenset [a; b; b] = frozenset [a; a; b].
Proof. unfold frozenset. simpl. set_solver. Qed.

(** C6, as amended. [dedupe] returns a sublist of its input; reading the
    input from left to right, an item is dropped exactly when an earlier item
    has the same set of components ([frozenset]), and kept (after the items
    kept so far) otherwise. So [(a, b)] and [(b, a)] collapse to the first of
    the two, and so do [(a, a, b)] and [(a, b, b)], whose components differ
    only in multiplicity. *)
Theorem dedupe_first_of_each_set (l : list tuple) (x : tuple) (a b : atom) :
  sublist (dedupe l) l
  ∧ dedupe (l ++ [x])
    = (if bool_decide (Exists (λ y, frozenset y = frozenset x) l)
       then dedupe l else dedupe l ++ [x])
  ∧ dedupe [[a; b]; [b; a]] = [[a; b]]
  ∧ dedupe [[a; a; b]; [a; b; b]] = [[a; a; b]].
Proof.
  split; [|split; [|split]].
  - unfold dedupe. destruct (dedupe_loop_sublist l ∅ []) as (kept & -> & Hsub). done.
  - unfold dedupe. rewrite dedupe_loop_app. simpl.
    case_decide as Hin; case_bool_decide as Hex; try done.
    + exfalso. apply Hex, seen_frozenset. set_solver.
    + exfalso. apply Hin. apply seen_frozenset in Hex. set_solver.
  - unfold dedupe. cbn [dedupe_loop].
    rewrite decide_False by set_solver.
    rewrite frozenset_swap, decide_True by set_solver. done.
  - unfold dedupe. cbn [dedupe_loop].
    rewrite decide_False by set_solver.
    rewrite frozenset_multiplicity, decide_True by set_solver. done.
Qed.

(** C6 as stated fails: the design document compares multisets of
    components, and on [(a, a, b)], [(a, b, b)] that keeps both items, while
    the code keeps only the first. *)
Lemma dedupe_multiset_counterexample :
  let l := [[AStr "a"; AStr "a"; AStr "b"]; [AStr "a"; AStr "b"; AStr "b"]] in
  dedupe l = [[AStr "a"; AStr "a"; AStr "b"]] ∧ dedupe_by_multiset l = l.
Proof. vm_compute. split; reflexivity. Qed.

Lemma dedupe_loop_NoDup (l : list tuple) (seen : gset (gset atom)) (result : list tuple) :
  NoDup (frozenset <$> result) →
  (∀ t, t ∈ result → frozenset t ∈ seen) →
  NoDup (frozenset <$> dedupe_loop l seen result).
Proof.
  revert seen result. induction l as [|item l IH]; intros seen result Hnd Hseen; simpl; [done|].
  case_decide as Hin; [by apply IH|].
  apply IH.
  - rewrite fmap_app. apply NoDup_app. split; [done|]. split.
    + intros fs Hfs [->|[]%elem_of_nil]%elem_of_cons.
      apply list_elem_of_fmap in Hfs as (t & Heq & Ht). apply Hin. rewrite Heq. by apply Hseen.
    + simpl. apply NoDup_singleton.
  - intros t [Ht|Ht%list_elem_of_singleton]%elem_of_app; [set_solver|]. subst. set_solver.
Qed.

Lemma dedupe_NoDup (l : list tuple) : NoDup (frozenset <$> dedupe l).
Proof. apply dedupe_loop_NoDup; [constructor | set_solver]. Qed.

Lemma dedupe_sublist (l : list tuple) : sublist (dedupe l) l.
Proof. unfold dedupe. destruct (dedupe_loop_sublist l ∅ []) as (kept & -> & Hsub). done. Qed.

(** An item that [dedupe_loop] meets stays represented: the result holds an
    item of the same set of components. *)
Lemma dedupe_loop_represents (l : list tuple) (seen : gset (gset atom)) (result : list tuple) :
  (∀ fs, fs ∈ seen → ∃ y, y ∈ result ∧ frozenset y = fs) →
  ∀ x, x ∈ l ∨ x ∈ result → ∃ y, y ∈ dedupe_loop l seen result ∧ frozenset y = frozenset x.
Proof.
  revert seen result. induction l as [|item l IH]; intros seen result Hseen x Hx; simpl.
  - destruct Hx as [[]%elem_of_nil|Hx]. by exists x.
  - case_decide as Hin.
    + destruct Hx as [[->|Hx]%elem_of_cons|Hx].
      * destruct (Hseen _ Hin) as (y & Hy & Heq).
        destruct (IH seen result Hseen y (or_intror Hy)) as (z & Hz & Hzy).
        exists z. split; [done | congruence].
      * apply IH; auto.
      * apply IH; auto.
    + apply IH.
      * intros fs [->%elem_of_singleton|Hfs]%elem_of_union.
        -- exists item. split; [apply elem_of_app; right; by left | done].
        -- destruct (Hseen _ Hfs) as (y & Hy & Heq). exists y.
           split; [apply elem_of_app; by left | done].
      * destruct Hx as [[->|Hx]%elem_of_cons|Hx].
        -- right. apply elem_of_app; right; by left.
        -- by left.
        -- right. apply elem_of_app; by left.
Qed.

(** Every item has an item of the same set of components in [dedupe]. *)
Lemma dedupe_represents (l : list tuple) (x : tuple) :
  x ∈ l → ∃ y, y ∈ dedupe l ∧ frozenset y = frozenset x.
Proof. intros Hx. apply dedupe_loop_represents; [set_solver | by left]. Qed.

Lemma length_omap_le {A B} (f : A → option B) (l : list A) :
  (length (omap f l) ≤ length l)%nat.
Proof. induction l as [|x l IH]; csimpl; [done|]. destruct (f x); csimpl; simpl in *; lia. Qed.

(** ** Running a method *)

Lemma sends_app (ev ev' : list event) : sends (ev ++ ev') = sends ev ++ sends ev'.
Proof. unfold sends. apply omap_app. Qed.

Lemma sends_cons (e : event) (ev : list event) :
  sends (e :: ev) = match e with Send to m => (to, m) :: sends ev | _ => sends ev end.
Proof. by destruct e. Qed.

Lemma probes_app (findID : atom) (ev ev' : list event) :
  probes findID (ev ++ ev') = probes findID ev ++ probes findID ev'.
Proof. unfold probes. apply omap_app. Qed.

(** Unfold the plumbing of [action] and compute. *)
Ltac run :=
  cbv [mbind action_bind mret action_ret raise lift emit log send gets modify field
       assert read_clock ds_setItem rt_getContact rt_getContact_val rt_removeContact
       rt_addContact get_peer update_peer get_search update_search new_findID alloc_search
       alloc_peer trace_of state_of result_of].

Ltac steps := repeat progress (run; cbn -[sends probes]).

Ltac simpl_sends := repeat progress (rewrite ?sends_app, ?sends_cons; cbn -[sends probes]).

Section Properties.
Context {RT DS : Type} `{!RoutingTable RT} `{!DataStore DS}.
Variable env : Env.
Implicit Type st : DHT.t RT DS.
#[local] Existing Instances action_ret action_bind.

(** ** [store] *)

(** C7, as amended. [store] raises [TypeError] exactly when
    [originalPublisherID] is [None] and the keyword arguments hold no
    [_rpcNodeID] other than [None] (none at all, or one that is [None]); in
    every other case it writes the value with last-published time [now] and
    originally-published time [now - age], under [originalPublisherID], or
    under [_rpcNodeID] when [originalPublisherID] is [None], and returns
    ['OK']. *)
Theorem store_publisher (key : atom) (value : pyval) (originalPublisherID : atom)
    (age : Z) (kwargs : gmap string atom) st :
  store env key value originalPublisherID age kwargs st
  = let rpcSenderID := default ANone (kwargs !! "_rpcNodeID"%string) in
    let now := time_time env (DHT.clock_reads st) in
    if not_none originalPublisherID || not_none rpcSenderID then
      (Ok "OK"%string,
       DHT.set_dataStore
         (setItem (DHT._dataStore st) key value now (now - age)
            (if not_none originalPublisherID then originalPublisherID else rpcSenderID)
            (DHT._market_id st))
         (DHT.set_clock_reads (S (DHT.clock_reads st)) st),
       [])
    else (Raise TypeError, st, []).
Proof.
  unfold store. destruct (kwargs !! "_rpcNodeID"%string) as [rpc|]; simpl;
    destruct (not_none originalPublisherID); simpl; try reflexivity;
    destruct (not_none rpc); reflexivity.
Qed.

(** ** [storeKeyValue] and [_on_storeValue] *)

Lemma index_add_sends (ds : DS) key op index logtext value_json value v ev :
  index_add ds key op index logtext value_json value = Ok (v, ev) → sends ev = [].
Proof.
  unfold index_add, obind. intros Heq.
  repeat case_match; simplify_eq; reflexivity.
Qed.

Lemma index_merge_sends (ds : DS) key value :
  sends (index_merge env ds key value).2 = [].
Proof.
  unfold index_merge.
  repeat case_match; simpl; rewrite ?sends_app;
    repeat match goal with
    | H : index_add _ _ _ _ _ _ _ = Ok (_, _) |- _ => apply index_add_sends in H; rewrite ?H
    end; reflexivity.
Qed.

(** C4, where the code departs from the claim. When the list of closest nodes
    starts with the local node, [storeKeyValue] leaves its loop there ([break])
    and sends no [store] message at all, whatever nodes follow in the list. *)
Theorem storeKeyValue_stops_at_self (key : atom) (value : pyval)
    (originalPublisherID : atom) (age : Z) (ip port : atom) (rest : list tuple) st :
  sends (trace_of (storeKeyValue env
           (nodes_val ([ip; port; Transport.guid (DHT._transport st)] :: rest))
           key value originalPublisherID age st)) = [].
Proof.
  unfold storeKeyValue.
  pose proof (index_merge_sends (DHT._dataStore st) key value) as Hm.
  steps.
  destruct (index_merge env (DHT._dataStore st) key value) as [[v|] logged]; steps.
  - rewrite bool_decide_true by done. steps. cbn [snd] in Hm. simpl_sends.
    rewrite Hm. reflexivity.
  - cbn [snd] in Hm. simpl_sends. rewrite Hm. reflexivity.
Qed.

(** What [_on_storeValue] does with a message that has its four fields and a
    value that is not empty: the value goes into the store as it came. *)
Lemma on_storeValue_writes_raw (key : atom) (value : pyval) (pub : atom) (age : Z) st :
  truthy value = true →
  _on_storeValue env (Store.mk (Some key) (Some value) (Some pub) (Some age)) st
  = let now := time_time env (DHT.clock_reads st) in
    (Ok (),
     DHT.set_dataStore
       (setItem (DHT._dataStore st) key value now (now - age) pub (DHT._market_id st))
       (DHT.set_clock_reads (S (DHT.clock_reads st)) st),
     [Log debug "Received Store Command"]).
Proof. intros Ht. unfold _on_storeValue. steps. rewrite Ht. reflexivity. Qed.

(** The sibling path: in [storeKeyValue] a value that decodes to
    [{keyword_index_add: x}] is merged into the index the store holds. *)
Lemma index_merge_keyword_add (ds : DS) (key : atom) (s : string) (x : pyval)
    (listings : list pyval) :
  json_loads env s = Some (VDict [("keyword_index_add"%string, x)]) →
  getitem ds key = VDict [("listings"%string, VList listings)] →
  (index_merge env ds key (VStr s)).1
  = Some (VDict [("listings"%string,
                  VList (if existsb (py_eqb x) listings then listings else listings ++ [x]))]).
Proof.
  intros Hj Hg. unfold index_merge, py_json_loads. rewrite Hj.
  unfold index_add, index_remove. cbn. rewrite Hg. cbn.
  destruct (existsb (py_eqb x) listings); reflexivity.
Qed.

(** ** [on_find_node] *)

Lemma bind_run {A B} (m : action A) (f : A → action B) st :
  (m ≫= f) st
  = match m st with
    | (Ok a, st', ev) => let '(r, st'', ev') := f a st' in (r, st'', ev ++ ev')
    | (Raise e, st', ev) => (Raise e, st', ev)
    end.
Proof. reflexivity. Qed.

Lemma not_none_true (a : atom) : not_none a = true ↔ a ≠ ANone.
Proof. unfold not_none. rewrite negb_true_iff, bool_decide_eq_false. done. Qed.

Lemma for_each_get_peer {A} (g : Peer.t → A) (l : list nat) st :
  (∀ r, r ∈ l → is_Some (DHT.peer_heap st !! r)) →
  for_each (λ r, contact ← get_peer r; mret (g contact)) l st
  = (Ok (omap (λ r, g <$> DHT.peer_heap st !! r) l), st, []).
Proof.
  induction l as [|r l IH]; intros Hl; [done|].
  destruct (Hl r) as [p Hp]; [set_solver|].
  cbn [for_each omap]. rewrite bind_run, bind_run. unfold get_peer at 1. rewrite Hp.
  cbn. rewrite bind_run, IH by set_solver. rewrite Hp. reflexivity.
Qed.

Lemma close_nodes_run `{!RoutingTableLaws RT} (key guid : atom) st :
  close_nodes env key guid st = (Ok (close_tuples env st key guid), st, []).
Proof.
  unfold close_nodes, close_tuples. steps.
  rewrite (for_each_get_peer contact_tuple).
  - reflexivity.
  - intros r Hr. by eapply findCloseNodes_alive.
Qed.

Lemma close_tuples_props `{!RoutingTableLaws RT} (key guid : atom) st :
  0 ≤ constants.k (consts env) →
  Z.of_nat (length (close_tuples env st key guid)) ≤ constants.k (consts env)
  ∧ Forall (λ t, t !! 0%nat ≠ Some guid) (close_tuples env st key guid)
  ∧ NoDup (frozenset <$> close_tuples env st key guid).
Proof.
  intros Hk. unfold close_tuples.
  split; [|split].
  - etrans; [|by apply (findCloseNodes_length (DHT._routingTable st) (DHT.peer_heap st) key _ guid)].
    apply inj_le. etrans; [apply sublist_length, dedupe_sublist|]. apply length_omap_le.
  - apply Forall_forall. intros t Ht.
    eapply elem_of_sublist in Ht; [|apply dedupe_sublist].
    apply list_elem_of_omap in Ht as (r & Hr & Ht).
    destruct (DHT.peer_heap st !! r) as [p|] eqn:Hp; [|done]. simpl in Ht. simplify_eq.
    simpl. intros [=]. by eapply findCloseNodes_excludes.
  - apply dedupe_NoDup.
Qed.

(** What [close_nodes] returns, said without [dedupe]: tuples of contacts
    [findCloseNodes] gave, in its order, and every such contact is there up
    to the set of its components. *)
Lemma close_tuples_contacts `{!RoutingTableLaws RT} (key guid : atom) st :
  let close := findCloseNodes (DHT._routingTable st) (DHT.peer_heap st) key
                 (constants.k (consts env)) guid in
  let tuple_of (p : Peer.t) :=
    [Peer._guid p; Peer._address p; Peer._pub p; Peer._nickname p] in
  let nodes := close_tuples env st key guid in
  nodes `sublist_of` omap (λ c, tuple_of <$> DHT.peer_heap st !! c) close
  ∧ (∀ t, t ∈ nodes → ∃ c p, c ∈ close ∧ DHT.peer_heap st !! c = Some p
                             ∧ t = tuple_of p ∧ Peer._guid p ≠ guid)
  ∧ (∀ c p, c ∈ close → DHT.peer_heap st !! c = Some p →
            ∃ t, t ∈ nodes ∧ frozenset t = frozenset (tuple_of p)).
Proof.
  intros close tuple_of nodes. subst nodes. unfold close_tuples.
  fold close. change contact_tuple with tuple_of.
  split; [apply dedupe_sublist|]. split.
  - intros t Ht. eapply elem_of_sublist in Ht; [|apply dedupe_sublist].
    apply list_elem_of_omap in Ht as (c & Hc & Ht).
    destruct (DHT.peer_heap st !! c) as [p|] eqn:Hp; [|done]. simpl in Ht. simplify_eq.
    exists c, p. split; [done|]. split; [done|]. split; [done|].
    by eapply findCloseNodes_excludes.
  - intros c p Hc Hp. apply dedupe_represents.
    apply list_elem_of_omap. exists c. split; [done|]. by rewrite Hp.
Qed.

(** C3. [on_find_node] replies only to a sender whose guid the routing table
    knows: to an unknown sender it sends nothing. To a known sender of a
    well-formed request it sends exactly one message, to that sender's
    contact: a [findNodeResponse] that carries the local guid, nickname, uri
    and pubkey, the [findID] of the request, and exactly one of three
    fields. It is [foundKey], the stored value, when [findValue] is true and
    the store holds the key with a value other than [None]. It is
    [foundNode], the (guid, address, pubkey) of the contact, when
    [findValue] is false and the key is a known contact. In every other case
    it is [foundNodes]: a list of (guid, address, pubkey, nickname) tuples,
    each the tuple of a contact that [findCloseNodes] returned for the key
    with limit [k] and the sender excluded, in the order of that answer; at
    most [k] tuples, none with the sender's guid, no two with the same set of
    components, and every contact [findCloseNodes] returned has a tuple of
    its set of components in the list. *)
Theorem on_find_node_reply `{!RoutingTableLaws RT} (msg : FindNode.t) st :
  0 ≤ constants.k (consts env) →
  let rt := DHT._routingTable st in
  let heap := DHT.peer_heap st in
  let ds := DHT._dataStore st in
  let tr := DHT._transport st in
  let out := sends (trace_of (on_find_node env msg st)) in
  ((∀ guid, FindNode.senderGUID msg = Some guid → getContact rt heap guid = None) → out = [])
  ∧ (∀ guid r key findID uri pubkey findValue,
       FindNode.senderGUID msg = Some guid → getContact rt heap guid = Some r →
       FindNode.key msg = Some key → FindNode.findID msg = Some findID →
       FindNode.uri msg = Some uri → FindNode.pubkey msg = Some pubkey →
       FindNode.findValue msg = Some findValue →
       guid ≠ ANone → guid ≠ Transport.guid tr →
       key ≠ ANone → findID ≠ ANone → uri ≠ ANone → pubkey ≠ ANone →
       let close := findCloseNodes rt heap key (constants.k (consts env)) guid in
       let tuple_of (p : Peer.t) :=
         [Peer._guid p; Peer._address p; Peer._pub p; Peer._nickname p] in
       out = [(Contact r, expected_reply env st guid key findID findValue)]
       ∧ Z.of_nat (length (close_tuples env st key guid)) ≤ constants.k (consts env)
       ∧ Forall (λ t, t !! 0%nat ≠ Some guid) (close_tuples env st key guid)
       ∧ NoDup (frozenset <$> close_tuples env st key guid)
       ∧ ∃ foundKey foundNode foundNodes,
           out = [(Contact r,
                   MFindNodeResponse
                     {| FindNodeResponse.senderGUID := Some (Transport.guid tr);
                        FindNodeResponse.senderNick := Some (Transport._nickname tr);
                        FindNodeResponse.uri := Some (Transport._uri tr);
                        FindNodeResponse.pubkey := Some (Transport.pubkey tr);
                        FindNodeResponse.foundKey := foundKey;
                        FindNodeResponse.foundNode := foundNode;
                        FindNodeResponse.foundNodes := foundNodes;
                        FindNodeResponse.findID := Some findID |})]
           ∧ (findValue = true → contains ds key = true → getitem ds key ≠ VNone →
              foundKey = Some (getitem ds key) ∧ foundNode = None ∧ foundNodes = None)
           ∧ (findValue = false → ∀ c, getContact rt heap key = Some c →
              foundKey = None ∧ foundNodes = None
              ∧ ∃ p, heap !! c = Some p
                     ∧ foundNode = Some [Peer._guid p; Peer._address p; Peer._pub p])
           ∧ (findValue = true ∧ (contains ds key = false ∨ getitem ds key = VNone)
              ∨ findValue = false ∧ getContact rt heap key = None →
              foundKey = None ∧ foundNode = None
              ∧ ∃ nodes, foundNodes = Some nodes
                  ∧ Z.of_nat (length nodes) ≤ constants.k (consts env)
                  ∧ nodes `sublist_of` omap (λ c, tuple_of <$> heap !! c) close
                  ∧ (∀ t, t ∈ nodes → ∃ c p, c ∈ close ∧ heap !! c = Some p
                                             ∧ t = tuple_of p ∧ Peer._guid p ≠ guid)
                  ∧ (∀ c p, c ∈ close → heap !! c = Some p →
                            ∃ t, t ∈ nodes ∧ frozenset t = frozenset (tuple_of p))
                  ∧ NoDup (frozenset <$> nodes))).
Proof.
  intros Hk rt heap ds tr out. subst out rt heap ds tr. split.
  - intros Hunknown. destruct msg as [uri guid key fv nick fid pk]. simpl in Hunknown.
    unfold on_find_node. steps.
    destruct guid as [guid|]; steps; [|done].
    destruct key as [key|]; steps; [|done].
    destruct fid as [fid|]; steps; [|done].
    destruct uri as [uri|]; steps; [|done].
    destruct pk as [pk|]; steps; [|done].
    destruct (not_none guid && _); steps; [|done].
    destruct (not_none key); steps; [|done].
    destruct (not_none fid); steps; [|done].
    destruct (not_none uri); steps; [|done].
    destruct (not_none pk); steps; [|done].
    rewrite (Hunknown guid eq_refl). reflexivity.
  - intros guid r key findID uri pubkey findValue Hguid Hr Hkey Hfid Huri Hpk Hfv
      Hg1 Hg2 Hk1 Hf1 Hu1 Hp1.
    assert (sends (trace_of (on_find_node env msg st))
            = [(Contact r, expected_reply env st guid key findID findValue)]) as Hout.
    { destruct msg as [uri' guid' key' fv nick fid pk]. simpl in *. simplify_eq.
      destruct (getContact_alive _ _ _ _ Hr) as [p Hp].
      unfold on_find_node, expected_reply. steps.
      rewrite (proj2 (not_none_true guid)), bool_decide_true by done. steps.
      rewrite !(proj2 (not_none_true _)) by done. steps.
      rewrite Hr. steps.
      destruct findValue; steps.
      + destruct (contains (DHT._dataStore st) key
                  && negb (is_none (getitem (DHT._dataStore st) key))); steps.
        * rewrite Hp. steps. case_bool_decide; reflexivity.
        * rewrite close_nodes_run. steps. rewrite Hp. steps.
          case_bool_decide; reflexivity.
      + destruct (getContact (DHT._routingTable st) (DHT.peer_heap st) key) as [c|] eqn:Hc;
          steps.
        * destruct (getContact_alive _ _ _ _ Hc) as [q Hq]. rewrite Hq. steps.
          rewrite Hp. steps. case_bool_decide; reflexivity.
        * rewrite close_nodes_run. steps. rewrite Hp. steps.
          case_bool_decide; reflexivity. }
    intros close tuple_of. split; [exact Hout|].
    destruct (close_tuples_props key guid st Hk) as (Hlen & Hex & Hnd).
    do 3 (split; [done|]).
    destruct (close_tuples_contacts key guid st) as (Hsub & Hfrom & Hall).
    assert (∃ nodes, nodes = close_tuples env st key guid
              ∧ Z.of_nat (length nodes) ≤ constants.k (consts env)
              ∧ nodes `sublist_of` omap (λ c, tuple_of <$> DHT.peer_heap st !! c) close
              ∧ (∀ t, t ∈ nodes → ∃ c p, c ∈ close ∧ DHT.peer_heap st !! c = Some p
                                         ∧ t = tuple_of p ∧ Peer._guid p ≠ guid)
              ∧ (∀ c p, c ∈ close → DHT.peer_heap st !! c = Some p →
                        ∃ t, t ∈ nodes ∧ frozenset t = frozenset (tuple_of p))
              ∧ NoDup (frozenset <$> nodes)) as (nodes & Hnodes & Hprops).
    { eexists. split; [reflexivity|]. done. }
    rewrite Hout. unfold expected_reply, findNodeResponse. rewrite <- Hnodes.
    assert (∀ v, is_none v = false ↔ v ≠ VNone) as Hnone.
    { intros v. destruct v as [[]| | |]; simpl; split; congruence. }
    destruct findValue.
    + destruct (contains (DHT._dataStore st) key) eqn:Hc;
        [destruct (is_none (getitem (DHT._dataStore st) key)) eqn:Hv|]; cbn [andb negb].
      * eexists _, _, _. split; [reflexivity|].
        assert (getitem (DHT._dataStore st) key = VNone) as Hv'.
        { destruct (getitem (DHT._dataStore st) key) as [[]| | |]; simpl in Hv; congruence. }
        split; [intros _ _ ?; done|]. split; [done|]. intros _.
        split; [done|]. split; [done|]. by exists nodes.
      * apply Hnone in Hv. eexists _, _, _. split; [reflexivity|].
        split; [done|]. split; [done|].
        intros [[_ [?|?]]|[? _]]; done.
      * eexists _, _, _. split; [reflexivity|].
        split; [intros _ ? _; done|]. split; [done|]. intros _.
        split; [done|]. split; [done|]. by exists nodes.
    + cbn [andb].
      destruct (getContact (DHT._routingTable st) (DHT.peer_heap st) key) as [c|] eqn:Hc.
      * destruct (getContact_alive _ _ _ _ Hc) as [q Hq]. rewrite Hq. cbn [fmap option_fmap option_map].
        eexists _, _, _. split; [reflexivity|].
        split; [done|]. split.
        -- intros _ c' [= <-]. split; [done|]. split; [done|]. by exists q.
        -- intros [[? _]|[_ ?]]; done.
      * eexists _, _, _. split; [reflexivity|].
        split; [done|]. split; [intros _ c' ?; done|]. intros _.
        split; [done|]. split; [done|]. by exists nodes.
Qed.

(** C5, as amended. When [key], [findID], [uri] or [pubkey] is absent or
    [None], or the sender's guid is the local guid, [on_find_node] sends no
    reply and changes no state, its only trace being the debug line logged on
    entry; but the message is not dropped quietly, an exception propagates
    to the caller. It is a [KeyError] exactly when one of [senderGUID],
    [key], [findID], [uri], [pubkey] is absent from the message, for the
    five are read before anything is checked; it is an [AssertionError]
    exactly when all five are there, and so one of them is [None] or the
    sender is the local node. *)
Theorem on_find_node_precondition_raises (msg : FindNode.t) st :
  missing (FindNode.key msg) ∨ missing (FindNode.findID msg) ∨ missing (FindNode.uri msg)
  ∨ missing (FindNode.pubkey msg)
  ∨ FindNode.senderGUID msg = Some (Transport.guid (DHT._transport st)) →
  ∃ e, on_find_node env msg st = (Raise e, st, [Log debug "Received a findNode request: %s"])
       ∧ (e = KeyError ∨ e = AssertionError)
       ∧ (e = KeyError
          ↔ FindNode.senderGUID msg = None ∨ FindNode.key msg = None
            ∨ FindNode.findID msg = None ∨ FindNode.uri msg = None
            ∨ FindNode.pubkey msg = None)
       ∧ (e = AssertionError
          ↔ is_Some (FindNode.senderGUID msg) ∧ is_Some (FindNode.key msg)
            ∧ is_Some (FindNode.findID msg) ∧ is_Some (FindNode.uri msg)
            ∧ is_Some (FindNode.pubkey msg)).
Proof.
  intros Hpre. destruct msg as [uri guid key fv nick fid pk]. simpl in Hpre. simpl.
  unfold on_find_node, missing in *. steps.
  destruct guid as [guid|]; steps;
    [|eexists; split; [done|]; split; [by left|]; split; [naive_solver|];
      split; [done|]; intros ([? ?] & _); done].
  destruct key as [key|]; steps;
    [|eexists; split; [done|]; split; [by left|]; split; [naive_solver|];
      split; [done|]; intros (_ & [? ?] & _); done].
  destruct fid as [fid|]; steps;
    [|eexists; split; [done|]; split; [by left|]; split; [naive_solver|];
      split; [done|]; intros (_ & _ & [? ?] & _); done].
  destruct uri as [uri|]; steps;
    [|eexists; split; [done|]; split; [by left|]; split; [naive_solver|];
      split; [done|]; intros (_ & _ & _ & [? ?] & _); done].
  destruct pk as [pk|]; steps;
    [|eexists; split; [done|]; split; [by left|]; split; [naive_solver|];
      split; [done|]; intros (_ & _ & _ & _ & [? ?]); done].
  assert (∀ e, e = AssertionError →
            (e = KeyError ∨ e = AssertionError)
            ∧ (e = KeyError ↔ Some guid = None ∨ Some key = None ∨ Some fid = None
                               ∨ Some uri = None ∨ Some pk = None)
            ∧ (e = AssertionError ↔ is_Some (Some guid) ∧ is_Some (Some key)
                                      ∧ is_Some (Some fid) ∧ is_Some (Some uri)
                                      ∧ is_Some (Some pk))) as Hassert.
  { intros e ->. split; [by right|]. split; [naive_solver|]. split; [|done].
    intros _. repeat split; by eexists. }
  destruct (not_none guid && bool_decide (guid ≠ Transport.guid (DHT._transport st))) eqn:Hg;
    steps; [|eexists; split; [done|]; by apply Hassert].
  destruct (not_none key) eqn:Hk; steps; [|eexists; split; [done|]; by apply Hassert].
  destruct (not_none fid) eqn:Hf; steps; [|eexists; split; [done|]; by apply Hassert].
  destruct (not_none uri) eqn:Hu; steps; [|eexists; split; [done|]; by apply Hassert].
  destruct (not_none pk) eqn:Hp; steps; [|eexists; split; [done|]; by apply Hassert].
  exfalso. apply andb_true_iff in Hg as [_ Hg%bool_decide_eq_true].
  apply not_none_true in Hk, Hf, Hu, Hp.
  naive_solver.
Qed.

End Properties.

(** C7 as stated fails: with [originalPublisherID] [None] and [_rpcNodeID]
    supplied as [None], [store] raises although the keyword is there. *)
Lemma store_rpc_none_counterexample :
  let kwargs : gmap string atom := {[ "_rpcNodeID"%string := ANone ]} in
  is_Some (kwargs !! "_rpcNodeID"%string)
  ∧ store Demo.env (AStr "6b") (VStr "hello") ANone 0 kwargs Demo.node
    = (Raise TypeError, Demo.node, []).
Proof. split; [by eexists | vm_compute; reflexivity]. Qed.


(** ** Frame rules *)

Section Frames.
Context {RT DS : Type} `{!RoutingTable RT} `{!DataStore DS}.
Variable env : Env.
Implicit Type st : DHT.t RT DS.
#[local] Existing Instances action_ret action_bind.

Section rules.
Context (R : DHT.t RT DS → DHT.t RT DS → list event → Prop) `{!Frame R}.

Lemma keeps_ret {A} (a : A) : keeps R (mret a).
Proof. intros st. apply frame_refl. Qed.

Lemma keeps_raise {A} (e : exn) : keeps R (raise e : action A).
Proof. intros st. apply frame_refl. Qed.

Lemma keeps_lift {A} (o : outcome A) : keeps R (lift o).
Proof. intros st. apply frame_refl. Qed.

Lemma keeps_gets {A} (f : DHT.t RT DS → A) : keeps R (gets f).
Proof. intros st. apply frame_refl. Qed.

Lemma keeps_field {A} (o : option A) : keeps R (field o).
Proof. destruct o; intros st; apply frame_refl. Qed.

Lemma keeps_assert (b : bool) : keeps R (assert b).
Proof. destruct b; intros st; apply frame_refl. Qed.

Lemma keeps_get_peer (r : nat) : keeps R (get_peer r).
Proof. intros st. unfold get_peer, state_of, trace_of. destruct (_ !! _); apply frame_refl. Qed.

Lemma keeps_get_search (r : nat) : keeps R (get_search r).
Proof. intros st. unfold get_search, state_of, trace_of. destruct (_ !! _); apply frame_refl. Qed.

Lemma keeps_rt_getContact (g : atom) : keeps R (rt_getContact g).
Proof. intros st. apply frame_refl. Qed.

Lemma keeps_rt_getContact_val (g : pyval) : keeps R (rt_getContact_val g).
Proof. destruct g; intros st; apply frame_refl. Qed.

Lemma keeps_bind {A B} (m : action A) (f : A → action B) :
  keeps R m → (∀ a, keeps R (f a)) → keeps R (m ≫= f).
Proof.
  intros Hm Hf st. specialize (Hm st).
  unfold state_of, trace_of, mbind, action_bind in *.
  destruct (m st) as [[[a|e] st'] ev]; simpl in *; [|done].
  specialize (Hf a st'). destruct (f a st') as [[r st''] ev']; simpl in *.
  by eapply frame_trans.
Qed.

Lemma keeps_for_each {A B} (f : A → action B) (l : list A) :
  (∀ x, keeps R (f x)) → keeps R (for_each f l).
Proof.
  intros Hf. induction l as [|x l IH]; simpl.
  - apply keeps_ret.
  - apply keeps_bind; [done|]. intros y. apply keeps_bind; [done|]. intros ys. apply keeps_ret.
Qed.

Lemma keeps_modify (f : DHT.t RT DS → DHT.t RT DS) :
  (∀ st, R st (f st) []) → keeps R (modify f).
Proof. intros Hf st. apply Hf. Qed.

Lemma keeps_log `{!FrameQuiet R} (lvl : level) (text : string) : keeps R (log lvl text).
Proof. intros st. by apply frame_quiet. Qed.

Lemma keeps_emit_quiet `{!FrameQuiet R} (ev : list event) :
  sends ev = [] → keeps R (emit ev).
Proof.
  intros Hev st. unfold emit, state_of, trace_of. simpl.
  induction ev as [|e ev IH]; [apply frame_refl|].
  rewrite sends_cons in Hev.
  change (e :: ev) with ([e] ++ ev). eapply frame_trans.
  - apply frame_quiet. intros to m ->. done.
  - apply IH. by destruct e.
Qed.

Lemma keeps_send `{!FrameSend R} (to : recipient) (m : message) : keeps R (send to m).
Proof. intros st. apply frame_send. Qed.

Lemma keeps_update_peer `{!FramePeers R} (r : nat) (f : Peer.t → Peer.t) :
  keeps R (update_peer r f).
Proof. intros st. apply frame_alter_peer. Qed.

Lemma keeps_alloc_peer `{!FramePeers R} (p : Peer.t) : keeps R (alloc_peer p).
Proof. intros st. apply frame_alloc_peer. Qed.

Lemma keeps_rt_removeContact `{!FramePeers R} (g : atom) : keeps R (rt_removeContact g).
Proof. intros st. apply frame_routingTable. Qed.

Lemma keeps_rt_addContact `{!FramePeers R} (r : nat) : keeps R (rt_addContact r).
Proof. intros st. apply frame_routingTable. Qed.

Lemma keeps_read_clock `{!FrameStore R} : keeps R (read_clock env).
Proof. intros st. apply frame_clock. Qed.

Lemma keeps_ds_setItem `{!FrameStore R} key value now op pub :
  keeps R (ds_setItem key value now op pub).
Proof. intros st. apply frame_dataStore. Qed.

Lemma keeps_update_search P `{!FrameSearch P R} (r : nat) (f : DHTSearch.t → DHTSearch.t) :
  P f → keeps R (update_search r f).
Proof. intros Hf st. by apply frame_alter_search. Qed.

Lemma keeps_new_findID `{!FrameNewSearch R} : keeps R (new_findID env).
Proof. intros st. apply frame_random. Qed.

Lemma keeps_alloc_search `{!FrameNewSearch R} (s : DHTSearch.t) : keeps R (alloc_search s).
Proof. intros st. apply frame_alloc_search. Qed.

End rules.
End Frames.

Ltac keeps_prim :=
  first
    [ apply keeps_ret | apply keeps_raise | apply keeps_lift | apply keeps_gets
    | apply keeps_field | apply keeps_assert | apply keeps_get_peer
    | apply keeps_get_search | apply keeps_rt_getContact | apply keeps_rt_getContact_val
    | apply keeps_log | apply keeps_send | apply keeps_update_peer | apply keeps_alloc_peer
    | apply keeps_rt_removeContact | apply keeps_rt_addContact | apply keeps_read_clock
    | apply keeps_ds_setItem | apply keeps_new_findID | apply keeps_alloc_search
    | apply keeps_modify; intros ?;
      first [ apply frame_routingTable | apply frame_knownNodes | apply frame_activePeers
            | apply frame_dataStore | apply frame_append_search ]
    | apply keeps_emit_quiet; first [typeclasses eauto | reflexivity]
    | eapply keeps_update_search;
      [ typeclasses eauto
      | match goal with
        | H : ∀ f, _ → ?P f |- ?P _ =>
            apply H; intros ?; try case_bool_decide; first [done | split; done]
        end ] ].

Ltac keeps_known := fail.

Ltac keeps_seq := apply keeps_bind; [typeclasses eauto | | intro].

Ltac keeps_auto :=
  repeat first
    [ match goal with |- ∀ _, _ => intro end
    | keeps_prim
    | match goal with H : context [keeps] |- keeps _ _ => solve [apply H] end
    | apply keeps_bind
    | apply keeps_for_each
    | match goal with
      | |- keeps _ (if ?b then _ else _) => destruct b
      | |- keeps _ (match ?x with _ => _ end) => destruct x
      | |- keeps _ (let _ := _ in _) => cbv zeta
      end
    | solve [typeclasses eauto]
    | solve [eauto] ].


Section Methods.
Context {RT DS : Type} `{!RoutingTable RT} `{!DataStore DS}.
Variable env : Env.
Implicit Type st : DHT.t RT DS.
#[local] Existing Instances action_ret action_bind.
Context (R : DHT.t RT DS → DHT.t RT DS → list event → Prop) `{!Frame R, !FrameQuiet R}.

Lemma keeps_add_peer_loop `{!FramePeers R} activePeers uri pubkey guid nickname :
  keeps R (add_peer_loop activePeers uri pubkey guid nickname).
Proof. induction activePeers as [|r rest IH]; simpl; keeps_auto. Qed.

Lemma keeps_add_peer `{!FramePeers R} uri pubkey guid nickname :
  keeps R (add_peer env uri pubkey guid nickname).
Proof. unfold add_peer. pose proof keeps_add_peer_loop. keeps_auto. Qed.

Lemma keeps_add_peer_cb `{!FramePeers R} r uri pubkey guid nickname :
  keeps R (add_peer_cb env r uri pubkey guid nickname).
Proof. unfold add_peer_cb. keeps_auto. Qed.

Lemma keeps_close_nodes key guid : keeps R (close_nodes env key guid).
Proof. unfold close_nodes. keeps_auto. Qed.

Lemma keeps_on_find_node `{!FramePeers R, !FrameSend R} msg : keeps R (on_find_node env msg).
Proof. unfold on_find_node. pose proof keeps_close_nodes. keeps_auto. Qed.

Lemma keeps_store `{!FrameStore R} key value pub age kwargs :
  keeps R (store env key value pub age kwargs).
Proof. unfold store. keeps_auto. Qed.

Lemma keeps_on_storeValue `{!FrameStore R} msg : keeps R (_on_storeValue env msg).
Proof. unfold _on_storeValue. keeps_auto. Qed.

Lemma keeps_store_loop `{!FrameSend R} nodes key value pub age :
  keeps R (store_loop nodes key value pub age).
Proof. induction nodes as [|node rest IH]; simpl; keeps_auto. Qed.

Lemma keeps_storeKeyValue `{!FrameStore R, !FrameSend R} nodes key value pub age :
  keeps R (storeKeyValue env nodes key value pub age).
Proof.
  unfold storeKeyValue. pose proof keeps_store_loop.
  keeps_seq; [keeps_auto|].
  keeps_seq; [keeps_auto|]. rename a0 into ds.
  pose proof (index_merge_sends env ds key value) as Hs.
  destruct (index_merge env ds key value) as [merged logged]. simpl in Hs.
  keeps_seq; [apply keeps_emit_quiet; first [typeclasses eauto | done]|].
  keeps_auto.
Qed.

Lemma keeps_call_callback `{!FrameStore R, !FrameSend R} cb arg :
  keeps R (call_callback env cb arg).
Proof. unfold call_callback. pose proof keeps_storeKeyValue. keeps_auto. Qed.

Section searches.
Context (P : (DHTSearch.t → DHTSearch.t) → Prop) `{!FrameSearch P R}.
Context (HP : ∀ f, same_counter f → P f).

Lemma keeps_add_to_shortlist search additions :
  keeps R (add_to_shortlist search additions).
Proof. unfold add_to_shortlist. keeps_auto. Qed.

Lemma keeps_extendShortlist_node `{!FramePeers R} search node :
  keeps R (extendShortlist_node env search node).
Proof.
  pose proof keeps_add_to_shortlist. pose proof keeps_add_peer.
  unfold extendShortlist_node. keeps_auto.
Qed.

Lemma keeps_extendShortlist_loop `{!FramePeers R} search foundNodes :
  keeps R (extendShortlist_loop env search foundNodes).
Proof.
  pose proof keeps_extendShortlist_node.
  induction foundNodes as [|node rest IH]; simpl; keeps_auto.
Qed.

Lemma keeps_extendShortlist `{!FramePeers R} findID foundNodes :
  keeps R (extendShortlist env findID foundNodes).
Proof. unfold extendShortlist. pose proof keeps_extendShortlist_loop. keeps_auto. Qed.

Lemma keeps_prepare_iteration `{!FramePeers R} new_search :
  keeps R (prepare_iteration env new_search).
Proof. unfold prepare_iteration. keeps_auto. Qed.

Context (HP' : ∀ f, same_id f → P f).

Lemma keeps_probe_node `{!FrameSend R} new_search findValue node :
  keeps R (probe_node new_search findValue node).
Proof. unfold probe_node. keeps_auto. Qed.

Lemma keeps_probe_loop `{!FrameSend R} new_search findValue shortlist :
  keeps R (probe_loop env new_search findValue shortlist).
Proof.
  pose proof keeps_probe_node.
  induction shortlist as [|node rest IH]; simpl; keeps_auto.
Qed.

Lemma keeps_searchIteration `{!FramePeers R, !FrameSend R} new_search findValue :
  keeps R (_searchIteration env new_search findValue).
Proof.
  unfold _searchIteration. pose proof keeps_prepare_iteration. pose proof keeps_probe_loop.
  keeps_auto.
Qed.

Lemma keeps_iterativeFind `{!FramePeers R, !FrameSend R, !FrameStore R, !FrameNewSearch R}
    key startupShortlist call cb :
  keeps R (_iterativeFind env key startupShortlist call cb).
Proof.
  unfold _iterativeFind. pose proof keeps_searchIteration. pose proof keeps_call_callback.
  pose proof keeps_add_to_shortlist.
  keeps_auto.
Qed.

Lemma keeps_iterativeFindNode `{!FramePeers R, !FrameSend R, !FrameStore R, !FrameNewSearch R}
    key cb :
  keeps R (iterativeFindNode env key cb).
Proof. unfold iterativeFindNode. pose proof keeps_iterativeFind. keeps_auto. Qed.

Lemma keeps_iterativeFindValue `{!FramePeers R, !FrameSend R, !FrameStore R, !FrameNewSearch R}
    key cb :
  keeps R (iterativeFindValue env key cb).
Proof. unfold iterativeFindValue. pose proof keeps_iterativeFind. keeps_auto. Qed.

Lemma keeps_iterativeStore `{!FramePeers R, !FrameSend R, !FrameStore R, !FrameNewSearch R}
    key value pub age :
  keeps R (iterativeStore env key value pub age).
Proof. unfold iterativeStore. pose proof keeps_iterativeFindNode. keeps_auto. Qed.

Lemma keeps_republish_loop `{!FramePeers R, !FrameSend R, !FrameStore R, !FrameNewSearch R}
    ks expiredKeys :
  keeps R (republish_loop env ks expiredKeys).
Proof.
  pose proof keeps_iterativeStore.
  revert expiredKeys. induction ks as [|key rest IH]; intros expiredKeys; simpl; keeps_auto.
Qed.

Lemma keeps_refreshNode `{!FramePeers R, !FrameSend R, !FrameStore R, !FrameNewSearch R} :
  keeps R (_refreshNode env).
Proof.
  unfold _refreshNode, _republishData, _threadedRepublishData, _refreshRoutingTable.
  pose proof keeps_republish_loop. pose proof keeps_iterativeFindNode.
  keeps_auto.
Qed.

Lemma keeps_refresh_sender `{!FramePeers R} activePeers msg :
  keeps R (refresh_sender activePeers msg).
Proof. induction activePeers as [|r rest IH]; simpl; keeps_auto. Qed.

Lemma keeps_found_nodes_loop `{!FramePeers R} foundNodes msg :
  keeps R (found_nodes_loop env foundNodes msg).
Proof.
  pose proof keeps_extendShortlist.
  induction foundNodes as [|node rest IH]; simpl; keeps_auto.
Qed.

End searches.


End Methods.

(** ** What a callback leaves alone *)

Section Untouched.
Context {RT DS : Type} `{!RoutingTable RT} `{!DataStore DS}.
Variable env : Env.
Implicit Type st : DHT.t RT DS.
#[local] Existing Instances action_ret action_bind.

#[global] Instance searches_untouched_frame : Frame (@searches_untouched RT DS).
Proof.
  split; [done|]. intros st st' st'' ev ev' [? ?] [? ?]. split; congruence.
Qed.

#[global] Instance searches_untouched_quiet : FrameQuiet (@searches_untouched RT DS).
Proof. done. Qed.

#[global] Instance searches_untouched_send : FrameSend (@searches_untouched RT DS).
Proof. done. Qed.

#[global] Instance searches_untouched_store : FrameStore (@searches_untouched RT DS).
Proof. split; done. Qed.

#[global] Instance searches_untouched_peers : FramePeers (@searches_untouched RT DS).
Proof. split; done. Qed.

Lemma call_callback_untouched (cb : callback) (arg : pyval) :
  keeps (@searches_untouched RT DS) (call_callback env cb arg).
Proof. apply keeps_call_callback; typeclasses eauto. Qed.

End Untouched.

Section Response.
Context {RT DS : Type} `{!RoutingTable RT} `{!DataStore DS}.
Variable env : Env.
Implicit Type st : DHT.t RT DS.
#[local] Existing Instances action_ret action_bind.
Context (R : DHT.t RT DS → DHT.t RT DS → list event → Prop).
Context `{!Frame R, !FrameQuiet R, !FramePeers R, !FrameSend R, !FrameStore R,
          !FrameNewSearch R}.
Context (P : (DHTSearch.t → DHTSearch.t) → Prop) `{!FrameSearch P R}.
Context (HP : ∀ f, same_id f → P f).

Lemma same_counter_id (f : DHTSearch.t → DHTSearch.t) : same_counter f → same_id f.
Proof. intros Hf s. apply Hf. Qed.

Lemma keeps_on_findNodeResponse msg :
  (∀ fuel idx call,
     (∀ cb, keeps R (call cb)) → (∀ cb, keeps (@searches_untouched RT DS) (call cb)) →
     keeps R (remove_searches fuel idx msg call)) →
  keeps R (on_findNodeResponse env msg).
Proof.
  intros Hrem. unfold on_findNodeResponse.
  assert (HPc : ∀ f, same_counter f → P f) by (intros f Hf; apply HP, same_counter_id, Hf).
  pose proof (keeps_refresh_sender R) as H1.
  pose proof (keeps_found_nodes_loop env R P HPc) as H2.
  pose proof (keeps_add_peer env R) as H3.
  pose proof (keeps_searchIteration env R P HPc HP) as H4.
  pose proof (keeps_call_callback env R) as H5.
  pose proof (call_callback_untouched env) as H6.
  keeps_auto. apply Hrem; keeps_auto.
Qed.

Lemma keeps_run (c : call) :
  (∀ msg, c = Call_on_findNodeResponse msg → keeps R (on_findNodeResponse env msg)) →
  keeps R (run env c).
Proof.
  intros Hresp.
  assert (HPc : ∀ f, same_counter f → P f) by (intros f Hf; apply HP, same_counter_id, Hf).
  pose proof (keeps_on_find_node env R).
  pose proof (keeps_on_storeValue env R).
  pose proof (keeps_store env R).
  pose proof (keeps_iterativeStore env R P HPc HP).
  pose proof (keeps_iterativeFindNode env R P HPc HP).
  pose proof (keeps_iterativeFindValue env R P HPc HP).
  pose proof (keeps_extendShortlist env R P HPc).
  pose proof (keeps_add_peer env R).
  pose proof (keeps_add_peer_cb env R).
  pose proof (keeps_refreshNode env R P HPc HP).
  destruct c; simpl; try (by apply Hresp); keeps_auto.
Qed.

End Response.

(** ** A search that stays *)

Lemma elem_of_delete_ne {A} (l : list A) (i : nat) (x y : A) :
  x ∈ l → l !! i = Some y → x ≠ y → x ∈ delete i l.
Proof.
  revert i. induction l as [|z l IH]; intros i Hx Hi Hne; [by apply elem_of_nil in Hx|].
  destruct i as [|i]; simpl in *.
  - simplify_eq. apply elem_of_cons in Hx as [->|Hx]; done.
  - apply elem_of_cons in Hx as [->|Hx]; [left | right; eauto].
Qed.

Section Survival.
Context {RT DS : Type} `{!RoutingTable RT} `{!DataStore DS}.
Variable env : Env.
Variable fid : atom.
Implicit Type st : DHT.t RT DS.
#[local] Existing Instances action_ret action_bind.

(** Every active search of id [fid] is still an active search of id [fid]. *)
#[global] Instance survives_frame : Frame (@survives RT DS fid).
Proof.
  split; [done|]. intros st st' st'' ev ev' H1 H2 r Hr Hf.
  destruct (H1 r Hr Hf) as [Hr' Hf']. by apply H2.
Qed.

#[global] Instance survives_quiet : FrameQuiet (@survives RT DS fid).
Proof. done. Qed.

#[global] Instance survives_send : FrameSend (@survives RT DS fid).
Proof. done. Qed.

#[global] Instance survives_store : FrameStore (@survives RT DS fid).
Proof. split; done. Qed.

#[global] Instance survives_peers : FramePeers (@survives RT DS fid).
Proof. split; done. Qed.

#[global] Instance survives_search : FrameSearch same_id (@survives RT DS fid).
Proof.
  intros st r f Hf r' Hr' Hid. split; [done|].
  unfold has_findID in *. simpl.
  destruct (decide (r = r')) as [->|Hne].
  - rewrite list_lookup_alter_eq. destruct (DHT.search_heap st !! r'); [simpl|done].
    by rewrite Hf.
  - by rewrite list_lookup_alter_ne.
Qed.

#[global] Instance survives_new_search : FrameNewSearch (@survives RT DS fid).
Proof.
  split; [done| |].
  - intros st s r Hr Hid. split; [done|].
    unfold has_findID in *. simpl.
    destruct (DHT.search_heap st !! r) as [s'|] eqn:Hs; [|done].
    by rewrite (lookup_app_l_Some _ _ _ _ Hs).
  - intros st r r' Hr' Hid. split; [|done]. simpl. set_solver.
Qed.

Lemma survives_remove_searches (msg : FindNodeResponse.t) (fuel idx : nat)
    (call : callback → action ()) :
  FindNodeResponse.findID msg ≠ Some fid →
  (∀ cb, keeps (survives fid) (call cb)) → (∀ cb, keeps (@searches_untouched RT DS) (call cb)) →
  keeps (survives fid) (remove_searches fuel idx msg call).
Proof.
  intros Hfid Hcall Hsame. revert idx.
  induction fuel as [|fuel IH]; intros idx st; [by intros ???|].
  cbn [remove_searches]. rewrite bind_run. cbn [gets].
  destruct (DHT._searches st !! idx) as [r|] eqn:Hidx; [|by intros ???].
  rewrite bind_run. unfold get_search at 1.
  destruct (DHT.search_heap st !! r) as [s|] eqn:Hs; [|by intros ???].
  cbn. rewrite bind_run.
  destruct (FindNodeResponse.findID msg) as [f|] eqn:Hf; [|by intros ???].
  cbn. rewrite bind_run.
  case_bool_decide as Heq.
  - rewrite bind_run.
    pose proof (Hcall (DHTSearch._callback s) st) as Hc.
    pose proof (Hsame (DHTSearch._callback s) st) as [Hu1 Hu2].
    unfold state_of, trace_of in *.
    destruct (call (DHTSearch._callback s) st) as [[[[]|e] st1] ev1]; simpl in *; [|done].
    specialize (IH (S idx) (DHT.set_searches (delete idx (DHT._searches st1)) st1)).
    unfold state_of, trace_of in IH.
    destruct (remove_searches fuel (S idx) msg call _) as [[res st2] ev2]. simpl in *.
    intros r' Hr' Hid. destruct (Hc r' Hr' Hid) as [Hr1 Hid1].
    apply IH; [|done]. simpl.
    rewrite Hu1 in *. eapply elem_of_delete_ne; [done..|].
    intros ->. unfold has_findID in Hid. rewrite Hs in Hid.
    apply bool_decide_eq_true in Hid. congruence.
  - cbn. specialize (IH (S idx) st). unfold state_of, trace_of in *.
    destruct (remove_searches fuel (S idx) msg call st) as [[res st2] ev2]. simpl in *.
    done.
Qed.

Lemma survives_run (c : call) :
  (∀ msg, c = Call_on_findNodeResponse msg → FindNodeResponse.findID msg ≠ Some fid) →
  keeps (survives fid) (run env c).
Proof.
  intros Hc. eapply (keeps_run env (survives fid) same_id); [done|].
  intros msg ->. eapply (keeps_on_findNodeResponse env (survives fid) same_id); [done|].
  intros fuel idx call. apply survives_remove_searches. by apply Hc.
Qed.

Lemma activeSearchExists_true st findID :
  activeSearchExists st findID = true
  ↔ ∃ r, r ∈ DHT._searches st ∧ has_findID st findID r = true.
Proof.
  unfold activeSearchExists. rewrite existsb_exists.
  split; intros (r & Hr & Hf); exists r; split; try done; by apply list_elem_of_In.
Qed.

Lemma survives_run_all (cs : list call) st :
  Forall (λ c, ∀ msg, c = Call_on_findNodeResponse msg →
                      FindNodeResponse.findID msg ≠ Some fid) cs →
  activeSearchExists st fid = true →
  activeSearchExists (run_all env cs st).1 fid = true.
Proof.
  intros Hcs. revert st. induction Hcs as [|c cs Hc Hcs IH]; intros st Hst; [done|].
  cbn [run_all]. pose proof (survives_run c Hc st) as Hrun.
  unfold state_of, trace_of in Hrun.
  destruct (run env c st) as [[res st'] ev]. simpl in Hrun.
  specialize (IH st'). destruct (run_all env cs st') as [st'' ev']. simpl in *.
  apply IH. apply activeSearchExists_true in Hst as (r & Hr & Hf).
  apply activeSearchExists_true. exists r. by apply Hrun.
Qed.

End Survival.

(** ** [_iterativeFind] *)

Section Abort.
Context {RT DS : Type} `{!RoutingTable RT} `{!DataStore DS}.
Variable env : Env.
Implicit Type st : DHT.t RT DS.
#[local] Existing Instances action_ret action_bind.

(** X3 (C10). [_iterativeFind] appends the new search to [_searches] before its two
    early returns. When the lookup is for the local guid, or for the guid of
    an active peer, it returns at once: the new search is the last of
    [_searches], nothing was sent, and [activeSearchExists] of its find id is
    true. It stays true after any later calls on the DHT, none of which is a
    [findNodeResponse] that carries this find id (the search sent no probe, so
    no peer was given the id to answer with). *)
Theorem iterativeFind_abort_leaves_search (key : atom) (startupShortlist : option (list tuple))
    (cb : callback) st :
  key = DHT._settings_guid st ∨ (∃ r, r ∈ DHT._activePeers st ∧ peer_guid st r = key) →
  let fid := urandom_sha1 env (DHT.random_draws st) in
  let res := _iterativeFind env key startupShortlist "findNode" cb st in
  (result_of res = Ok LookingForYourself ∨ ∃ node, result_of res = Ok (ActivePeer node))
  ∧ DHT._searches (state_of res) = DHT._searches st ++ [length (DHT.search_heap st)]
  ∧ DHT.search_heap (state_of res)
    = DHT.search_heap st ++ [DHTSearch.init key "findNode" cb fid]
  ∧ sends (trace_of res) = []
  ∧ activeSearchExists (state_of res) fid = true
  ∧ ∀ cs, Forall (λ c, ∀ msg, c = Call_on_findNodeResponse msg →
                              FindNodeResponse.findID msg ≠ Some fid) cs →
          activeSearchExists (run_all env cs (state_of res)).1 fid = true.
Proof.
  intros Habort fid res.
  assert (Hfound : ∀ st', DHT._searches st' = DHT._searches st ++ [length (DHT.search_heap st)] →
            DHT.search_heap st' = DHT.search_heap st ++ [DHTSearch.init key "findNode" cb fid] →
            activeSearchExists st' fid = true).
  { intros st' Hs Hh. apply activeSearchExists_true. exists (length (DHT.search_heap st)).
    split; [rewrite Hs; set_solver|].
    unfold has_findID. rewrite Hh, lookup_app_r, Nat.sub_diag by lia. simpl.
    by apply bool_decide_eq_true. }
  assert (Hres : (result_of res = Ok LookingForYourself ∨ ∃ node, result_of res = Ok (ActivePeer node))
    ∧ DHT._searches (state_of res) = DHT._searches st ++ [length (DHT.search_heap st)]
    ∧ DHT.search_heap (state_of res)
      = DHT.search_heap st ++ [DHTSearch.init key "findNode" cb fid]
    ∧ sends (trace_of res) = []).
  { subst res fid. unfold _iterativeFind. steps.
    case_bool_decide as Hkey; steps.
    - split; [by left|]. done.
    - destruct Habort as [?|(r & Hr & Hg)]; [done|].
      destruct (head (filter _ (DHT._activePeers st))) as [node|] eqn:Hhead.
      + steps. split; [right; by eexists|]. done.
      + exfalso. apply head_None in Hhead.
        assert (r ∈ filter (λ r, peer_guid
                  (DHT.set_searches (DHT._searches st ++ [length (DHT.search_heap st)])
                     (DHT.set_search_heap
                        (DHT.search_heap st ++ [DHTSearch.init key "findNode" cb
                           (urandom_sha1 env (DHT.random_draws st))])
                        (DHT.set_random_draws (S (DHT.random_draws st)) st))) r = key)
                  (DHT._activePeers st)) as Hin.
        { apply list_elem_of_filter. split; [exact Hg | exact Hr]. }
        rewrite Hhead in Hin. by apply elem_of_nil in Hin. }
  destruct Hres as (H1 & H2 & H3 & H4).
  repeat split; try done.
  - by apply Hfound.
  - intros cs Hcs. apply survives_run_all; [done|]. by apply Hfound.
Qed.
End Abort.

(** ** [_searchIteration] *)

Lemma probes_silent (findID : atom) (ev : list event) :
  sends ev = [] → probes findID ev = [].
Proof.
  induction ev as [|e ev IH]; [done|]. rewrite sends_cons.
  destruct e as [| to m | | |]; try done; intros Hev; cbn; by apply IH.
Qed.

Section Counter.
Context {RT DS : Type} `{!RoutingTable RT} `{!DataStore DS}.
Variable env : Env.
Implicit Type st : DHT.t RT DS.
#[local] Existing Instances action_ret action_bind.

#[global] Instance counter_kept_frame (r : nat) : Frame (@counter_kept RT DS r).
Proof.
  split.
  - intros st. split; [done|]. intros s Hs. by exists s.
  - intros st st' st'' ev ev' [Hev H1] [Hev' H2]. split.
    + by rewrite sends_app, Hev, Hev'.
    + intros s Hs. destruct (H1 s Hs) as (s' & Hs' & ? & ?).
      destruct (H2 s' Hs') as (s'' & Hs'' & ? & ?). exists s''. split; [done|]. split; congruence.
Qed.

#[global] Instance counter_kept_quiet (r : nat) : FrameQuiet (@counter_kept RT DS r).
Proof.
  intros st e He. split.
  - rewrite sends_cons. destruct e; try done. by destruct (He to m).
  - intros s Hs. by exists s.
Qed.

#[global] Instance counter_kept_peers (r : nat) : FramePeers (@counter_kept RT DS r).
Proof. split; intros; (split; [done|]); intros s Hs; by exists s. Qed.

#[global] Instance counter_kept_search (r : nat) :
  FrameSearch same_counter (@counter_kept RT DS r).
Proof.
  intros st r' f Hf. split; [done|]. intros s Hs. simpl.
  destruct (decide (r' = r)) as [->|Hne].
  - exists (f s). rewrite list_lookup_alter_eq, Hs. split; [done|]. apply Hf.
  - exists s. by rewrite list_lookup_alter_ne.
Qed.

Lemma prepare_iteration_counter (r : nat) :
  keeps (@counter_kept RT DS r) (prepare_iteration env r).
Proof. apply keeps_prepare_iteration with (P := same_counter); try typeclasses eauto; auto. Qed.

Lemma lookup_alter_search (f : DHTSearch.t → DHTSearch.t) (r : nat) (s : DHTSearch.t)
    (heap : list DHTSearch.t) :
  heap !! r = Some s → alter f r heap !! r = Some (f s).
Proof. intros Hs. by rewrite list_lookup_alter_eq, Hs. Qed.

(** One node of the shortlist: at most one probe, counted. *)
Lemma probe_node_counts (r : nat) (findValue : bool) (node : tuple) st (s : DHTSearch.t) :
  DHT.search_heap st !! r = Some s →
  let res := probe_node r findValue node st in
  let sent := probes (DHTSearch._findID s) (trace_of res) in
  ∃ s', DHT.search_heap (state_of res) !! r = Some s'
        ∧ DHTSearch._findID s' = DHTSearch._findID s
        ∧ DHTSearch._contactedNow s' = DHTSearch._contactedNow s + Z.of_nat (length sent)
        ∧ length (sends (trace_of res)) = length sent
        ∧ (length sent ≤ 1)%nat.
Proof.
  intros Hs res sent. subst res sent. unfold probe_node. steps. rewrite Hs. steps.
  case_bool_decide; steps; [exists s; simpl; repeat split; first [done | lia]|].
  destruct (tuple_index node 2) as [guid|e]; steps; [|exists s; simpl; repeat split; first [done | lia]].
  case_bool_decide; steps; [|exists s; simpl; repeat split; first [done | lia]].
  destruct (getContact _ _ guid) as [c|]; steps;
    rewrite !list_lookup_alter_eq, Hs; cbn; (eexists; split; [reflexivity|]); cbn.
  - rewrite bool_decide_true by done. cbn. repeat split; first [done | lia].
  - repeat split; first [done | lia].
Qed.

Lemma probe_loop_counts (r : nat) (findValue : bool) (shortlist : list tuple) st
    (s : DHTSearch.t) :
  DHT.search_heap st !! r = Some s →
  let res := probe_loop env r findValue shortlist st in
  let sent := probes (DHTSearch._findID s) (trace_of res) in
  ∃ s', DHT.search_heap (state_of res) !! r = Some s'
        ∧ DHTSearch._findID s' = DHTSearch._findID s
        ∧ DHTSearch._contactedNow s' = DHTSearch._contactedNow s + Z.of_nat (length sent)
        ∧ length (sends (trace_of res)) = length sent
        ∧ (DHTSearch._contactedNow s < constants.alpha (consts env) →
           DHTSearch._contactedNow s' ≤ constants.alpha (consts env)).
Proof.
  revert st s. induction shortlist as [|node rest IH]; intros st s Hs res sent; subst res sent.
  - exists s. simpl. repeat split; first [done | lia].
  - cbn [probe_loop]. rewrite bind_run.
    destruct (probe_node_counts r findValue node st s Hs) as (s1 & Hs1 & Hid1 & Hc1 & Hl1 & Hle1).
    unfold state_of, trace_of in *.
    destruct (probe_node r findValue node st) as [[[[]|e] st1] ev1] eqn:Hnode; cbn [fst snd] in *;
      [|exists s1; repeat split; try done; lia].
    rewrite bind_run. unfold get_search. rewrite Hs1.
    destruct (DHTSearch._contactedNow s1 =? constants.alpha (consts env)) eqn:Halpha.
    + cbn. rewrite ?app_nil_r. exists s1. repeat split; try done. lia.
    + specialize (IH st1 s1 Hs1). cbn in IH. rewrite Hid1 in IH.
      destruct (probe_loop env r findValue rest st1) as [[res2 st2] ev2]. cbn [fst snd] in *.
      destruct IH as (s2 & Hs2 & Hid2 & Hc2 & Hl2 & Hle2).
      exists s2. cbn. rewrite sends_app, probes_app, !length_app.
      apply Z.eqb_neq in Halpha.
      repeat split; try done; try congruence; try lia.
Qed.


(** X2 (C9, as amended): the counter [_contactedNow] of a search is [0] when the
    search is made; one [_searchIteration] adds to it the number of [findNode]
    probes it sends for the search, and sends nothing else; an iteration that
    starts with the counter below [alpha] ends with it at most [alpha]. (An
    iteration that starts with the counter at [alpha] or above is not
    bounded: the loop leaves only when the counter equals [alpha].) *)
Theorem searchIteration_counts (r : nat) (findValue : bool) st (s : DHTSearch.t) :
  DHT.search_heap st !! r = Some s →
  let res := _searchIteration env r findValue st in
  let sent := probes (DHTSearch._findID s) (trace_of res) in
  (∀ key call cb findID, DHTSearch._contactedNow (DHTSearch.init key call cb findID) = 0)
  ∧ ∃ s', DHT.search_heap (state_of res) !! r = Some s'
          ∧ DHTSearch._findID s' = DHTSearch._findID s
          ∧ DHTSearch._contactedNow s'
            = DHTSearch._contactedNow s + Z.of_nat (length sent)
          ∧ length (sends (trace_of res)) = length sent
          ∧ (DHTSearch._contactedNow s < constants.alpha (consts env) →
             DHTSearch._contactedNow s' ≤ constants.alpha (consts env)).
Proof.
  intros Hs res sent. subst res sent. split; [done|].
  unfold _searchIteration. rewrite bind_run.
  destruct (prepare_iteration_counter r st) as [Hev Hkept].
  destruct (Hkept s Hs) as (s1 & Hs1 & Hid1 & Hc1).
  pose proof (probes_silent (DHTSearch._findID s) _ Hev) as Hp.
  unfold state_of, trace_of in *.
  destruct (prepare_iteration env r st) as [[[[]|e] st1] ev1]; cbn [fst snd] in *.
  - rewrite bind_run. cbn [gets]. rewrite bind_run. unfold get_search. rewrite Hs1.
    cbn -[sends probes probe_loop activeSearchExists].
    destruct (negb (activeSearchExists st1 (DHTSearch._findID s1))).
    + cbn -[sends probes]. exists s1. rewrite ?sends_app, ?probes_app, ?Hev, ?Hp. cbn.
      repeat split; first [done | lia].
    + destruct (probe_loop_counts r findValue (DHTSearch._shortlist s1) st1 s1 Hs1)
        as (s2 & Hs2 & Hid2 & Hc2 & Hl2 & Hle2).
      unfold state_of, trace_of in *. rewrite Hid1 in *.
      destruct (probe_loop env r findValue (DHTSearch._shortlist s1) st1) as [[res2 st2] ev2].
      cbn [fst snd] in *. cbn -[sends probes]. exists s2.
      rewrite ?sends_app, ?probes_app, ?Hev, ?Hp. cbn -[sends probes].
      repeat split; first [done | congruence | lia].
  - exists s1. rewrite Hev, Hp. cbn. repeat split; first [done | lia].
Qed.

End Counter.

(** ** [extendShortlist] *)

Lemma extend_app (l a b : list tuple) :
  DHTSearch.extend l (a ++ b) = DHTSearch.extend (DHTSearch.extend l a) b.
Proof.
  revert l. induction a as [|x a IH]; intros l; simpl; [done|].
  case_bool_decide; apply IH.
Qed.

Lemma extend_elem (l adds : list tuple) (x : tuple) :
  x ∈ DHTSearch.extend l adds ↔ x ∈ l ∨ x ∈ adds.
Proof.
  revert l. induction adds as [|y adds IH]; intros l; simpl.
  - set_solver.
  - case_bool_decide; rewrite IH; set_solver.
Qed.

Lemma extend_prefix (l adds : list tuple) : l `prefix_of` DHTSearch.extend l adds.
Proof.
  revert l. induction adds as [|y adds IH]; intros l; simpl; [done|].
  case_bool_decide; [apply IH|].
  etrans; [|apply IH]. by apply prefix_app_r.
Qed.

Lemma alter_insert_search (f : DHTSearch.t → DHTSearch.t) (r : nat)
    (heap : list DHTSearch.t) (s : DHTSearch.t) :
  heap !! r = Some s → alter f r heap = <[r := f s]> heap.
Proof.
  intros Hs. apply list_eq. intros i. destruct (decide (i = r)) as [->|Hne].
  - rewrite list_lookup_alter_eq, Hs, list_lookup_insert_eq; [done|].
    by eapply lookup_lt_Some.
  - by rewrite list_lookup_alter_ne, list_lookup_insert_ne.
Qed.

Lemma set_shortlist_same (s : DHTSearch.t) :
  DHTSearch.set_shortlist (DHTSearch._shortlist s) s = s.
Proof. by destruct s. Qed.

Section Shortlist.
Context {RT DS : Type} `{!RoutingTable RT} `{!DataStore DS}.
Variable env : Env.
Implicit Type st : DHT.t RT DS.
#[local] Existing Instances action_ret action_bind.

#[global] Instance searches_silent_frame : Frame (@searches_silent RT DS).
Proof.
  split; [done|]. intros st st' st'' ev ev' [Hev H1] [Hev' H2]. split.
  - by rewrite sends_app, Hev, Hev'.
  - congruence.
Qed.

#[global] Instance searches_silent_quiet : FrameQuiet (@searches_silent RT DS).
Proof.
  intros st e He. split; [|done].
  rewrite sends_cons. destruct e; try done. by destruct (He to m).
Qed.

#[global] Instance searches_silent_peers : FramePeers (@searches_silent RT DS).
Proof. split; done. Qed.

Lemma add_peer_silent (uri pubkey guid nickname : atom) :
  keeps (@searches_silent RT DS) (add_peer env uri pubkey guid nickname).
Proof. apply keeps_add_peer; typeclasses eauto. Qed.

(** One found node: its entry is in the shortlist afterwards, unless the node
    is not a 4-tuple; nothing else of any search changes, and nothing is
    sent. *)
Lemma extendShortlist_node_shortlist (r : nat) (node : tuple) st (s : DHTSearch.t) :
  DHT.search_heap st !! r = Some s →
  let res := extendShortlist_node env r node st in
  sends (trace_of res) = []
  ∧ ∃ sl, DHT.search_heap (state_of res)
          = <[r := DHTSearch.set_shortlist sl s]> (DHT.search_heap st)
          ∧ (sl = DHTSearch._shortlist s
             ∨ sl = DHTSearch.extend (DHTSearch._shortlist s) [shortlist_entry env node])
          ∧ (result_of res = Ok () →
             sl = DHTSearch.extend (DHTSearch._shortlist s) [shortlist_entry env node]).
Proof.
  intros Hs res. subst res. unfold extendShortlist_node.
  destruct node as [|node_guid [|node_uri [|node_pubkey [|node_nick [|? ?]]]]];
    try (steps; split; [done|];
         exists (DHTSearch._shortlist s);
         rewrite set_shortlist_same, list_insert_id by done;
         split; [done|]; split; [by left | done]).
  change (shortlist_entry env [node_guid; node_uri; node_pubkey; node_nick])
    with [urlparse_hostname env node_uri; urlparse_port env node_uri; node_guid; node_nick].
  cbv zeta.
  set (entry := [urlparse_hostname env node_uri; urlparse_port env node_uri; node_guid; node_nick]).
  set (sl := DHTSearch.extend (DHTSearch._shortlist s) [entry]).
  assert (∃ st1 ev1, sends ev1 = []
            ∧ DHT.search_heap st1 = <[r := DHTSearch.set_shortlist sl s]> (DHT.search_heap st)
            ∧ DHT._settings_guid st1 = DHT._settings_guid st
            ∧ DHT._searches st1 = DHT._searches st
            ∧ ∀ B (k : () → action B),
                (get_search r ≫= λ s,
                  (if bool_decide (entry ∈ DHTSearch._shortlist s) then mret ()
                   else add_to_shortlist r [entry]) ≫= k) st
                = let '(res, st2, ev2) := k () st1 in (res, st2, ev1 ++ ev2))
    as (st1 & ev1 & Hev1 & Hh1 & Hg1 & Hss1 & Hrun).
  { destruct (decide (entry ∈ DHTSearch._shortlist s)) as [Hin|Hin].
    - exists st, []. repeat split; try done.
      + subst sl. simpl. rewrite bool_decide_true by done.
        by rewrite set_shortlist_same, list_insert_id.
      + intros B k. steps. rewrite Hs. steps. rewrite bool_decide_true by done. steps.
        by destruct (k () st) as [[??]?].
    - exists (DHT.set_search_heap
                (alter (λ s, DHTSearch.set_shortlist
                               (DHTSearch.extend (DHTSearch._shortlist s) [entry]) s)
                   r (DHT.search_heap st)) st),
             [Log debug "Additions: %s"; Log debug "Updated short list: %s"].
      repeat split; try done.
      + cbn -[DHTSearch.extend]. by rewrite (alter_insert_search _ _ _ s).
      + intros B k. steps. rewrite Hs. steps. rewrite bool_decide_false by done.
        unfold add_to_shortlist. steps.
        match goal with |- context [k () ?x] => by destruct (k () x) as [[??]?] end. }
  rewrite Hrun. steps. rewrite Hg1.
  case_bool_decide as Hself; steps.
  - rewrite app_nil_r. split; [done|]. exists sl.
    split; [done|]. split; [by right | done].
  - rewrite bool_decide_true by done. steps.
    destruct (add_peer_silent node_uri node_pubkey node_guid node_nick st1)
      as [Hev2 Hh2].
    unfold state_of, trace_of, result_of in *.
    destruct (add_peer env node_uri node_pubkey node_guid node_nick st1) as [[res2 st2] ev2].
    cbn -[sends] in *. rewrite sends_app, Hev1. simpl_sends. rewrite Hev2.
    split; [done|]. exists sl. rewrite Hh2.
    split; [done|]. split; [by right | done].
Qed.


(** The loop over the found nodes: the entries of the nodes it got through
    are in the shortlist afterwards, in order; it gets through all of them
    unless a node raises. *)
Lemma extendShortlist_loop_shortlist (r : nat) (foundNodes : list tuple) st
    (s : DHTSearch.t) :
  DHT.search_heap st !! r = Some s →
  let res := extendShortlist_loop env r foundNodes st in
  sends (trace_of res) = []
  ∧ ∃ n, (n ≤ length foundNodes)%nat
         ∧ DHT.search_heap (state_of res)
           = <[r := DHTSearch.set_shortlist
                      (DHTSearch.extend (DHTSearch._shortlist s)
                         (shortlist_entry env <$> take n foundNodes)) s]>
               (DHT.search_heap st)
         ∧ (result_of res = Ok () → n = length foundNodes).
Proof.
  revert st s. induction foundNodes as [|node rest IH]; intros st s Hs res; subst res.
  - steps. split; [done|]. exists 0%nat. split; [done|]. split; [|done].
    simpl. by rewrite set_shortlist_same, list_insert_id.
  - cbn [extendShortlist_loop]. rewrite bind_run.
    destruct (extendShortlist_node_shortlist r node st s Hs) as (Hev1 & sl & Hh1 & Hsl & Hok).
    unfold state_of, trace_of, result_of in *.
    destruct (extendShortlist_node env r node st) as [[res1 st1] ev1].
    cbn -[sends DHTSearch.extend] in *.
    assert (DHT.search_heap st1 !! r = Some (DHTSearch.set_shortlist sl s)) as Hs1.
    { rewrite Hh1. apply list_lookup_insert_eq. by eapply lookup_lt_Some. }
    destruct res1 as [[]|e].
    + specialize (IH st1 _ Hs1). cbv zeta in IH.
      destruct IH as (Hev2 & n & Hn & Hh2 & Hok2).
      unfold state_of, trace_of, result_of in *.
      destruct (extendShortlist_loop env r rest st1) as [[res2 st2] ev2].
      cbn -[sends DHTSearch.extend] in *. rewrite sends_app, Hev1, Hev2. split; [done|].
      exists (S n). split; [lia|]. split; [|intros H; f_equal; auto].
      rewrite Hh2, Hh1, list_insert_insert_eq. cbn [take fmap list_fmap].
      change (shortlist_entry env node :: (shortlist_entry env <$> take n rest))
        with ([shortlist_entry env node] ++ (shortlist_entry env <$> take n rest)).
      rewrite extend_app, <- Hok by done. done.
    + cbn -[sends DHTSearch.extend]. split; [done|].
      destruct Hsl as [->| ->].
      * exists 0%nat. split; [lia|]. split; [|done]. by rewrite Hh1.
      * exists 1%nat. split; [simpl; lia|]. split; [|done]. rewrite Hh1.
        by destruct rest.
Qed.


(** X1 (C8, as amended): [extendShortlist] works on the last search of the given
    id; going through the found nodes in order it appends the entry
    [(ip, port, guid, nickname)] of each node that is not yet in the shortlist,
    the entry of a node with the local guid included; a node that raises ends the
    loop, the entries before it staying; no other search changes and nothing
    is sent. *)
Theorem extendShortlist_appends (findID : atom) (foundNodes : list tuple) st (r : nat) :
  find_search st findID = Some r →
  let res := extendShortlist env findID foundNodes st in
  ∃ s n, DHT.search_heap st !! r = Some s
         ∧ DHTSearch._findID s = findID
         ∧ (n ≤ length foundNodes)%nat
         ∧ DHT.search_heap (state_of res)
           = <[r := DHTSearch.set_shortlist
                      (DHTSearch.extend (DHTSearch._shortlist s)
                         (shortlist_entry env <$> take n foundNodes)) s]>
               (DHT.search_heap st)
         ∧ sends (trace_of res) = []
         ∧ (result_of res = Ok () →
            n = length foundNodes
            ∧ ∀ node s', node ∈ foundNodes →
                         DHT.search_heap (state_of res) !! r = Some s' →
                         shortlist_entry env node ∈ DHTSearch._shortlist s').
Proof.
  intros Hfind res. subst res.
  assert (∃ s, DHT.search_heap st !! r = Some s ∧ DHTSearch._findID s = findID)
    as (s & Hs & Hid).
  { unfold find_search in Hfind. apply last_Some_elem_of in Hfind.
    apply list_elem_of_filter in Hfind as [Hhas _]. unfold has_findID in Hhas.
    destruct (DHT.search_heap st !! r) as [s|]; [|done].
    exists s. split; [done|]. by apply bool_decide_eq_true in Hhas. }
  exists s. unfold extendShortlist. steps. rewrite Hfind. steps.
  destruct (extendShortlist_loop_shortlist r foundNodes st s Hs) as (Hev & n & Hn & Hh & Hok).
  unfold state_of, trace_of, result_of in *.
  destruct (extendShortlist_loop env r foundNodes st) as [[res1 st1] ev1].
  cbn -[sends DHTSearch.extend] in *. exists n.
  destruct res1 as [[]|e]; steps; (do 4 (split; [done|]));
    (split; [simpl_sends; by rewrite ?sends_app, Hev|]).
  - intros _. split; [auto|]. intros node s' Hnode Hs'.
    rewrite Hh, list_lookup_insert_eq in Hs' by (by eapply lookup_lt_Some).
    injection Hs' as <-. cbn [DHTSearch._shortlist DHTSearch.set_shortlist].
    rewrite Hok, firstn_all by done. apply extend_elem. right.
    by apply list_elem_of_fmap_2.
  - done.
Qed.

End Shortlist.

(** ** Deleting under [enumerate] *)

Lemma del_skipping_sublist {A} (p : A → bool) (l : list A) : del_skipping p l `sublist_of` l.
Proof.
  remember (length l) as n eqn:Hn. assert (length l ≤ n)%nat as Hle by lia. clear Hn.
  revert l Hle. induction n as [|n IH]; intros l Hle.
  { destruct l; [done | simpl in Hle; lia]. }
  destruct l as [|x [|y rest]]; simpl in *.
  - done.
  - destruct (p x); [by apply sublist_nil_l | done].
  - destruct (p x).
    + apply sublist_cons, sublist_skip. apply IH. lia.
    + apply sublist_skip.
      change (del_skipping p (y :: rest) `sublist_of` y :: rest). apply IH. simpl. lia.
Qed.

Lemma del_skipping_filter {A} (p : A → bool) (l : list A) :
  no_neighbours p l → del_skipping p l = filter (λ x, p x = false) l.
Proof.
  remember (length l) as n eqn:Hn. assert (length l ≤ n)%nat as Hle by lia. clear Hn.
  revert l Hle. induction n as [|n IH]; intros l Hle.
  { destruct l; [done | simpl in Hle; lia]. }
  destruct l as [|x [|y rest]]; intros Hn.
  - done.
  - simpl. destruct (p x) eqn:Hx.
    + rewrite filter_cons_False; [done|]. congruence.
    + rewrite filter_cons_True; done.
  - destruct Hn as [Hxy Hn]. cbn [del_skipping]. destruct (p x) eqn:Hx.
    + assert (p y = false) as Hy by (destruct (p y); [by destruct Hxy | done]).
      rewrite (filter_cons_False _ x) by congruence.
      rewrite (filter_cons_True _ y) by done. f_equal.
      apply IH; [simpl in *; lia|]. by destruct Hn.
    + rewrite (filter_cons_True _ x) by done. f_equal.
      apply (IH (y :: rest)); [simpl in *; lia | done].
Qed.

Lemma NoDup_no_neighbours (x : tuple) (l : list tuple) :
  NoDup l → no_neighbours (λ probe, bool_decide (probe = x)) l.
Proof.
  induction 1 as [|y l Hy Hl IH]; [done|]. split; [|done].
  destruct l as [|z l]; [done|]. intros [->%bool_decide_eq_true ->%bool_decide_eq_true].
  apply Hy. by left.
Qed.

(** The loop of [del_enumerating], from any index on. *)
Lemma del_enumerating_from (fuel idx : nat) (x : tuple) (l : list tuple) :
  (length l ≤ idx + fuel)%nat →
  del_enumerating fuel idx x l
  = take idx l ++ del_skipping (λ probe, bool_decide (probe = x)) (drop idx l).
Proof.
  revert idx l. induction fuel as [|fuel IH]; intros idx l Hlen; simpl.
  - rewrite drop_ge, take_ge by lia. by rewrite app_nil_r.
  - destruct (l !! idx) as [probe|] eqn:Hidx.
    + pose proof (lookup_lt_Some _ _ _ Hidx) as Hlt.
      rewrite (drop_S _ _ _ Hidx). cbn [del_skipping].
      case_bool_decide as Hp.
      * rewrite IH by (rewrite length_delete by (by eexists); lia).
        rewrite delete_take_drop.
        rewrite take_app_ge by (rewrite length_take; lia).
        rewrite drop_app_ge by (rewrite length_take; lia).
        rewrite length_take, Nat.min_l by lia.
        replace (S idx - idx)%nat with 1%nat by lia.
        rewrite <- app_assoc. f_equal.
        destruct (drop (S idx) l) as [|y rest]; [done|]. simpl. by rewrite drop_0.
      * rewrite IH by lia. rewrite (take_S_r _ _ _ Hidx), <- app_assoc. done.
    + apply lookup_ge_None in Hidx. rewrite drop_ge, take_ge by lia. by rewrite app_nil_r.
Qed.

(** X5. The loop over [enumerate(search._active_probes)] in [on_findNodeResponse]
    leaves a sublist of the probes; when the probes have no duplicates, it
    leaves all of them but the one of the sender, in their order. *)
Theorem del_enumerating_removes (x : tuple) (l : list tuple) :
  NoDup l →
  del_enumerating (length l) 0 x l = filter (λ probe, probe ≠ x) l
  ∧ (x ∉ del_enumerating (length l) 0 x l)
  ∧ del_enumerating (length l) 0 x l `sublist_of` l.
Proof.
  intros Hl. rewrite del_enumerating_from by lia. rewrite take_0, drop_0. simpl.
  assert (del_skipping (λ probe, bool_decide (probe = x)) l = filter (λ probe, probe ≠ x) l) as ->.
  { rewrite del_skipping_filter by by apply NoDup_no_neighbours.
    apply list_filter_iff. intros y. rewrite bool_decide_eq_false. done. }
  split; [done|]. split.
  - rewrite list_elem_of_filter. tauto.
  - apply sublist_filter.
Qed.

(** ** [DHTSearch.add_to_shortlist] *)

Lemma extend_NoDup (l adds : list tuple) : NoDup l → NoDup (DHTSearch.extend l adds).
Proof.
  revert l. induction adds as [|y adds IH]; intros l Hl; simpl; [done|].
  case_bool_decide as Hy; apply IH; [done|].
  apply NoDup_app. split; [done|]. split; [|apply NoDup_singleton].
  intros x Hx ->%list_elem_of_singleton. done.
Qed.

Lemma extend_idemp (l adds : list tuple) :
  DHTSearch.extend (DHTSearch.extend l adds) adds = DHTSearch.extend l adds.
Proof.
  assert (∀ adds' l', (∀ x, x ∈ adds' → x ∈ l') → DHTSearch.extend l' adds' = l') as Hin.
  { induction adds' as [|y adds' IH]; intros l' Hall; simpl; [done|].
    rewrite bool_decide_true by (apply Hall; by left).
    apply IH. intros x Hx. apply Hall. by right. }
  apply Hin. intros x Hx. apply extend_elem. by right.
Qed.

(** X4. [DHTSearch.add_to_shortlist] on a shortlist without duplicates: it
    stays without duplicates; the old entries keep their places; the
    shortlist holds the old entries and the additions, nothing else; adding
    the same additions again changes nothing. *)
Theorem add_to_shortlist_set (shortlist additions : list tuple) :
  NoDup shortlist →
  NoDup (DHTSearch.extend shortlist additions)
  ∧ shortlist `prefix_of` DHTSearch.extend shortlist additions
  ∧ (∀ x, x ∈ DHTSearch.extend shortlist additions ↔ x ∈ shortlist ∨ x ∈ additions)
  ∧ DHTSearch.extend (DHTSearch.extend shortlist additions) additions
    = DHTSearch.extend shortlist additions.
Proof.
  intros Hl. split; [by apply extend_NoDup|]. split; [apply extend_prefix|].
  split; [intros x; apply extend_elem | apply extend_idemp].
Qed.

(** ** The known nodes and the active peers *)

Section Peers.
Context {RT DS : Type} `{!RoutingTable RT} `{!DataStore DS}.
Variable env : Env.
Implicit Type st : DHT.t RT DS.
#[local] Existing Instances action_ret action_bind.

(** X6. [add_known_node] on known nodes without duplicates: the node is known
    afterwards; nodes known before keep their places; the known nodes stay
    without duplicates; the list grows by the node or not at all, and a
    second call changes nothing. *)
Theorem add_known_node_set (node : tuple) st :
  NoDup (DHT._knownNodes st) →
  let res := add_known_node node st in
  let st' := state_of res in
  result_of res = Ok ()
  ∧ trace_of res = []
  ∧ NoDup (DHT._knownNodes st')
  ∧ node ∈ DHT._knownNodes st'
  ∧ (DHT._knownNodes st' = DHT._knownNodes st ∨ DHT._knownNodes st' = DHT._knownNodes st ++ [node])
  ∧ st' = DHT.set_knownNodes (DHT._knownNodes st') st
  ∧ state_of (add_known_node node st') = st'.
Proof.
  intros Hnd res st'. subst res st'. unfold add_known_node. steps.
  case_bool_decide as Hin; steps.
  - rewrite bool_decide_true by done. repeat split; try done; [by left | by destruct st].
  - rewrite bool_decide_true by (apply elem_of_app; right; by left). steps.
    repeat split; try done.
    + apply NoDup_app. split; [done|]. split; [|apply NoDup_singleton].
      intros x Hx ->%list_elem_of_singleton. done.
    + apply elem_of_app; right; by left.
    + by right.
Qed.

Lemma find_active_peer_loop_last (activePeers : list nat) (uri pubkey guid nickname : atom)
    (found_peer : option nat) st :
  Forall (λ r, is_Some (DHT.peer_heap st !! r)) activePeers →
  find_active_peer_loop activePeers uri pubkey guid nickname found_peer st
  = (Ok (from_option Some found_peer
           (last (filter (λ r, is_peer st uri pubkey guid nickname r = true) activePeers))),
     st, []).
Proof.
  revert found_peer. induction activePeers as [|r rest IH]; intros found_peer Hall; [done|].
  apply Forall_cons in Hall as [[peer Hr] Hall].
  cbn [find_active_peer_loop]. rewrite bind_run. unfold get_peer. rewrite Hr.
  assert (is_peer st uri pubkey guid nickname r
          = bool_decide ([guid; uri; pubkey; nickname]
                         = [Peer._guid peer; Peer._address peer; Peer._pub peer;
                            Peer._nickname peer])) as Hp.
  { unfold is_peer. by rewrite Hr. }
  case_bool_decide as Hm.
  - rewrite filter_cons_True by exact Hp.
    rewrite IH by done. simpl.
    destruct (filter _ rest) as [|a l] eqn:Hf; [done|].
    rewrite (last_cons r). by destruct (last (a :: l)).
  - rewrite filter_cons_False by (simpl; rewrite Hp; done).
    by rewrite IH.
Qed.

(** X7. [find_active_peer] gives the last active peer whose guid, address,
    public key and nickname are all the ones asked for, [False] when there is
    none, and changes nothing. *)
Theorem find_active_peer_last (uri pubkey guid nickname : atom) st :
  Forall (λ r, is_Some (DHT.peer_heap st !! r)) (DHT._activePeers st) →
  find_active_peer uri pubkey guid nickname st
  = (Ok (last (filter (λ r, is_peer st uri pubkey guid nickname r = true)
                 (DHT._activePeers st))), st, []).
Proof.
  intros Hall. unfold find_active_peer. rewrite bind_run. cbn [gets].
  rewrite find_active_peer_loop_last by done. simpl.
  by destruct (last _).
Qed.

(** The loop of [remove_active_peer], from any index on. *)
Lemma remove_active_peer_loop_from (fuel idx : nat) (uri : atom) st :
  Forall (λ r, is_Some (DHT.peer_heap st !! r)) (DHT._activePeers st) →
  (length (DHT._activePeers st) ≤ idx + fuel)%nat →
  let res := remove_active_peer_loop fuel idx uri st in
  result_of res = Ok ()
  ∧ state_of res
    = DHT.set_activePeers
        (take idx (DHT._activePeers st)
         ++ del_skipping (has_address st uri) (drop idx (DHT._activePeers st))) st
  ∧ sends (trace_of res) = [].
Proof.
  revert idx st. induction fuel as [|fuel IH]; intros idx st Hall Hlen res; subst res.
  - steps. rewrite drop_ge, take_ge by lia. rewrite app_nil_r. by destruct st.
  - cbn [remove_active_peer_loop]. rewrite bind_run. cbn [gets].
    destruct (DHT._activePeers st !! idx) as [r|] eqn:Hidx.
    + pose proof (lookup_lt_Some _ _ _ Hidx) as Hlt.
      assert (is_Some (DHT.peer_heap st !! r)) as [peer Hr].
      { eapply Forall_forall in Hall; [exact Hall|]. by eapply list_elem_of_lookup_2. }
      rewrite bind_run. unfold get_peer. rewrite Hr.
      rewrite (drop_S _ _ _ Hidx). cbn [del_skipping].
      assert (has_address st uri r = bool_decide (uri = Peer._address peer)) as ->.
      { unfold has_address. by rewrite Hr. }
      rewrite bind_run.
      case_bool_decide as Hm.
      * steps.
        set (st1 := DHT.set_activePeers (delete idx (DHT._activePeers st)) st).
        specialize (IH (S idx) st1). cbv zeta in IH.
        destruct IH as (Hres & Hst & Hev).
        { subst st1. simpl. eapply Forall_forall. intros x Hx.
          eapply Forall_forall in Hall; [exact Hall|].
          eapply elem_of_sublist; [exact Hx | apply sublist_delete]. }
        { subst st1. simpl. rewrite length_delete by (by eexists). lia. }
        unfold state_of, trace_of, result_of in *.
        destruct (remove_active_peer_loop fuel (S idx) uri st1) as [[res2 st2] ev2].
        cbn -[sends] in *. subst res2 st2. split; [done|]. split.
        -- assert (has_address st1 uri = has_address st uri) as -> by done.
           rewrite delete_take_drop.
           rewrite take_app_ge by (rewrite length_take; lia).
           rewrite drop_app_ge by (rewrite length_take; lia).
           rewrite length_take, Nat.min_l by lia.
           replace (S idx - idx)%nat with 1%nat by lia.
           rewrite <- app_assoc.
           destruct (drop (S idx) (DHT._activePeers st)) as [|y rest]; [done|].
           simpl. by rewrite drop_0.
        -- simpl_sends. done.
      * steps. specialize (IH (S idx) st Hall). cbv zeta in IH.
        destruct IH as (Hres & Hst & Hev); [lia|].
        unfold state_of, trace_of, result_of in *.
        destruct (remove_active_peer_loop fuel (S idx) uri st) as [[res2 st2] ev2].
        cbn -[sends] in *. subst res2 st2. split; [done|]. split; [|done].
        rewrite (take_S_r _ _ _ Hidx), <- app_assoc. done.
    + steps. apply lookup_ge_None in Hidx. rewrite drop_ge, take_ge by lia.
      rewrite app_nil_r. by destruct st.
Qed.

(** X8. [remove_active_peer] changes the list of active peers only, and of it
    leaves a sublist: a peer with another address stays, in its place among
    those that stay; a peer with the address goes unless it comes right after
    one that went. When no two neighbours have the address, every peer with
    the address is gone. *)
Theorem remove_active_peer_removes (uri : atom) st :
  Forall (λ r, is_Some (DHT.peer_heap st !! r)) (DHT._activePeers st) →
  let res := remove_active_peer uri st in
  let left := DHT._activePeers (state_of res) in
  result_of res = Ok ()
  ∧ state_of res = DHT.set_activePeers left st
  ∧ left = del_skipping (has_address st uri) (DHT._activePeers st)
  ∧ left `sublist_of` DHT._activePeers st
  ∧ (no_neighbours (has_address st uri) (DHT._activePeers st) →
     left = filter (λ r, has_address st uri r = false) (DHT._activePeers st)).
Proof.
  intros Hall res left. subst res left. unfold remove_active_peer. rewrite bind_run.
  cbn [gets].
  destruct (remove_active_peer_loop_from (length (DHT._activePeers st)) 0 uri st Hall)
    as (Hres & Hst & _); [lia|].
  unfold state_of, trace_of, result_of in *.
  destruct (remove_active_peer_loop _ 0 uri st) as [[res2 st2] ev2].
  cbn in *. subst res2 st2. rewrite drop_0. simpl.
  split; [done|]. split; [done|]. split; [done|].
  split; [apply del_skipping_sublist | apply del_skipping_filter].
Qed.

End Peers.

(** ** [add_peer] *)

Section AddPeer.
Context {RT DS : Type} `{!RoutingTable RT} `{!DataStore DS}.
Variable env : Env.
Implicit Type st : DHT.t RT DS.
#[local] Existing Instances action_ret action_bind.

Lemma peers_only_refl st : peers_only st st [].
Proof. split; [done|]. split; [by destruct st | done]. Qed.

Lemma peers_only_trans st st' st'' ev ev' :
  peers_only st st' ev → peers_only st' st'' ev' → peers_only st st'' (ev ++ ev').
Proof.
  intros (Hev & Hst & Hlen) (Hev' & Hst' & Hlen'). split; [by rewrite sends_app, Hev, Hev'|].
  split; [|lia]. rewrite Hst' at 1. rewrite Hst at 1. by destruct st.
Qed.

Lemma add_peer_loop_peers_only (activePeers : list nat) (uri pubkey guid nickname : atom) st :
  let res := add_peer_loop activePeers uri pubkey guid nickname st in
  peers_only st (state_of res) (trace_of res)
  ∧ Forall add_peer_event (trace_of res)
  ∧ result_of res ≠ Raise AssertionError.
Proof.
  revert st. induction activePeers as [|r rest IH]; intros st res; subst res.
  - split; [apply peers_only_refl | done].
  - cbn [add_peer_loop]. rewrite bind_run. unfold get_peer.
    destruct (DHT.peer_heap st !! r) as [peer|] eqn:Hr;
      [|split; [apply peers_only_refl | done]].
    case_bool_decide as Hexact.
    + steps. destruct (getContact _ _ guid) as [o|]; steps.
      * destruct (DHT.peer_heap st !! o) as [old|]; steps;
          [|split; [apply peers_only_refl | done]].
        destruct (_ || _); steps.
        -- split; [|split; [apply Forall_cons_2; [by left | apply Forall_nil_2] | done]].
           split; [done|]. split; [by destruct st | done].
        -- split; [|split; [apply Forall_cons_2; [by left | apply Forall_nil_2] | done]].
           split; [done|]. split; [by destruct st | done].
      * split; [|split; [apply Forall_cons_2; [by left | apply Forall_nil_2] | done]].
        split; [done|]. split; [by destruct st | done].
    + destruct (_ || _) eqn:Hpartial.
      * steps. split; [|split; [apply Forall_cons_2; [right; by left | apply Forall_nil_2] | done]].
        split; [done|]. split; [by destruct st|]. simpl. by rewrite length_alter.
      * specialize (IH st). cbv zeta in IH.
        unfold state_of, trace_of, result_of in *.
        destruct (add_peer_loop rest uri pubkey guid nickname st) as [[res2 st2] ev2].
        by destruct res2.
Qed.

Lemma add_peer_peers_only (uri pubkey guid nickname : atom) st :
  let res := add_peer env uri pubkey guid nickname st in
  peers_only st (state_of res) (trace_of res)
  ∧ Forall add_peer_event (trace_of res)
  ∧ (truthy_atom uri = false → res = (Raise AssertionError, st, []))
  ∧ (truthy_atom uri = true → result_of res ≠ Raise AssertionError).
Proof.
  intros res. subst res. unfold add_peer. rewrite bind_run. unfold assert.
  destruct (truthy_atom uri) eqn:Huri; [|by split; [apply peers_only_refl|]].
  assert (not_none uri = true) as -> by (by destruct uri).
  steps.
  destruct (add_peer_loop_peers_only (DHT._activePeers st) uri pubkey guid nickname st)
    as (Hp & Hev & Hne).
  unfold state_of, trace_of, result_of in *.
  destruct (add_peer_loop (DHT._activePeers st) uri pubkey guid nickname st)
    as [[res1 st1] ev1].
  cbn -[sends] in *.
  destruct res1 as [[]|e]; steps.
  - rewrite app_nil_r. done.
  - destruct (check_port env _); steps.
    + split; [|split; [|done]].
      * eapply peers_only_trans; [exact Hp|].
        split; [done|]. split; [by destruct st1|]. simpl. rewrite length_app. simpl. lia.
      * apply Forall_app. split; [done|].
        apply Forall_cons_2; [right; right; by left|].
        apply Forall_cons_2; [right; right; right; by eexists | apply Forall_nil_2].
    + split; [|split; [|done]].
      * eapply peers_only_trans; [exact Hp|].
        split; [done|]. split; [by destruct st1|]. simpl. rewrite length_app. simpl. lia.
      * apply Forall_app. split; [done|].
        apply Forall_cons_2; [right; right; by left | apply Forall_nil_2].
  - split; [done|]. split; [done|]. split; [done|]. intros _ [= ->]. done.
Qed.

(** X9. [add_peer] sends nothing and changes nothing but peer objects and the
    routing table: the list of active peers, the known nodes, the searches and
    the store are as before. An empty or missing uri ends it with an
    [AssertionError] before anything is done, so the branch that logs missing
    peer attributes is never taken. *)
Theorem add_peer_effects (uri pubkey guid nickname : atom) st :
  let res := add_peer env uri pubkey guid nickname st in
  peers_only st (state_of res) (trace_of res)
  ∧ DHT._activePeers (state_of res) = DHT._activePeers st
  ∧ DHT._knownNodes (state_of res) = DHT._knownNodes st
  ∧ Forall add_peer_event (trace_of res)
  ∧ (Log debug "Missing peer attributes" ∉ trace_of res)
  ∧ (truthy_atom uri = false → res = (Raise AssertionError, st, []))
  ∧ (truthy_atom uri = true → result_of res ≠ Raise AssertionError).
Proof.
  intros res.
  destruct (add_peer_peers_only uri pubkey guid nickname st) as (Hp & Hev & Hraise & Hok).
  fold res in Hp, Hev, Hraise, Hok.
  split; [done|]. destruct Hp as (Hs & Hst & Hlen).
  split; [by rewrite Hst|]. split; [by rewrite Hst|]. split; [done|]. split; [|done].
  intros Hin. eapply Forall_forall in Hev; [|exact Hin].
  destruct Hev as [?|[?|[?|[? ?]]]]; done.
Qed.

End AddPeer.

Section NewPeer.
Context {RT DS : Type} `{!RoutingTable RT} `{!DataStore DS}.
Variable env : Env.
Implicit Type st : DHT.t RT DS.
#[local] Existing Instances action_ret action_bind.

Lemma add_peer_loop_no_match (activePeers : list nat) (uri pubkey guid nickname : atom) st :
  Forall (λ r, ∃ p, DHT.peer_heap st !! r = Some p
                    ∧ Peer._guid p ≠ guid ∧ Peer._address p ≠ uri) activePeers →
  add_peer_loop activePeers uri pubkey guid nickname st = (Ok false, st, []).
Proof.
  induction 1 as [|r rest (p & Hr & Hg & Ha) Hall IH]; [done|].
  cbn [add_peer_loop]. rewrite bind_run. unfold get_peer. rewrite Hr.
  rewrite bool_decide_false by (intros [= ? ? ?]; done).
  rewrite !bool_decide_false by done. simpl. by rewrite IH.
Qed.

(** X10. [add_peer] of a peer that no active peer shares the guid or the address
    with: a peer object is made, and a handshake with it started when its
    port answers; it is not put among the active peers, and not into the
    routing table before the handshake is done. *)
Theorem add_peer_new (uri pubkey guid nickname : atom) st :
  truthy_atom uri = true →
  Forall (λ r, ∃ p, DHT.peer_heap st !! r = Some p
                    ∧ Peer._guid p ≠ guid ∧ Peer._address p ≠ uri) (DHT._activePeers st) →
  let new_peer := get_crypto_peer env guid uri pubkey nickname in
  add_peer env uri pubkey guid nickname st
  = (Ok (), DHT.set_peer_heap (DHT.peer_heap st ++ [new_peer]) st,
     Log debug "New Peer"
     :: if check_port env new_peer
        then [StartHandshake (Contact (length (DHT.peer_heap st))) true] else []).
Proof.
  intros Huri Hall new_peer. subst new_peer. unfold add_peer. rewrite bind_run. unfold assert.
  rewrite Huri. assert (not_none uri = true) as -> by (by destruct uri).
  steps. rewrite add_peer_loop_no_match by done. steps.
  by destruct (check_port env _).
Qed.

End NewPeer.

(** ** [start] *)

Section Start.
Context {RT DS : Type} `{!RoutingTable RT} `{!DataStore DS}.
Variable env : Env.
Implicit Type st : DHT.t RT DS.
#[local] Existing Instances action_ret action_bind.

Lemma iterativeFind_self (startupShortlist : option (list tuple)) (cb : callback) st :
  _iterativeFind env (DHT._settings_guid st) startupShortlist "findNode" cb st
  = (Ok LookingForYourself,
     DHT.set_searches (DHT._searches st ++ [length (DHT.search_heap st)])
       (DHT.set_search_heap
          (DHT.search_heap st
           ++ [DHTSearch.init (DHT._settings_guid st) "findNode" cb
                 (urandom_sha1 env (DHT.random_draws st))])
          (DHT.set_random_draws (S (DHT.random_draws st)) st)),
     []).
Proof. unfold _iterativeFind. steps. rewrite bool_decide_true by done. steps. done. Qed.

(** X11. [start] sends nothing: the lookup of the node's own guid that ends it is
    given up as soon as its search is made. When [start] returns, the seed
    peer is a known node and that search, with an empty shortlist, is the
    last of the active searches. *)
Theorem start_sends_nothing (seed_peer : Peer.t) st :
  let res := start env seed_peer st in
  let st' := state_of res in
  sends (trace_of res) = []
  ∧ DHT._activePeers st' = DHT._activePeers st
  ∧ (result_of res = Ok () →
     [Peer._ip seed_peer; Peer._port seed_peer; Peer._guid seed_peer; Peer._nickname seed_peer]
       ∈ DHT._knownNodes st'
     ∧ DHT._searches st' = DHT._searches st ++ [length (DHT.search_heap st)]
     ∧ DHT.search_heap st'
       = DHT.search_heap st
         ++ [DHTSearch.init (DHT._settings_guid st) "findNode" CbNone
               (urandom_sha1 env (DHT.random_draws st))]).
Proof.
  intros res st'. subst res st'. unfold start. cbv zeta.
  set (node := [Peer._ip seed_peer; Peer._port seed_peer; Peer._guid seed_peer;
                Peer._nickname seed_peer]).
  rewrite bind_run.
  assert (∃ st1, add_known_node node st = (Ok (), st1, [])
                 ∧ node ∈ DHT._knownNodes st1
                 ∧ st1 = DHT.set_knownNodes (DHT._knownNodes st1) st) as (st1 & -> & Hin & Hst1).
  { unfold add_known_node. steps. case_bool_decide; steps.
    - exists st. by destruct st.
    - eexists. split; [done|]. split; [|done]. simpl. apply elem_of_app. right. by left. }
  rewrite bind_run. cbn [log emit]. rewrite bind_run.
  destruct (add_peer_peers_only env (Peer._address seed_peer) (Peer._pub seed_peer)
              (Peer._guid seed_peer) (Peer._nickname seed_peer) st1)
    as ((Hs & Hst2 & _) & _).
  unfold state_of, trace_of, result_of in *.
  destruct (add_peer env _ _ _ _ st1) as [[res2 st2] ev2]. cbn -[sends] in *.
  destruct res2 as [[]|e].
  - steps. rewrite iterativeFind_self. steps. simpl_sends. rewrite Hs.
    rewrite Hst2, Hst1. simpl. split; [done|]. split; [done|]. intros _.
    split; [|done]. by rewrite Hst1 in Hin.
  - steps. simpl_sends. rewrite Hs. split; [done|]. split; [|done].
    rewrite Hst2, Hst1. done.
Qed.

End Start.

(** ** What touches the value store *)

Section Stores.
Context {RT DS : Type} `{!RoutingTable RT} `{!DataStore DS}.
Variable env : Env.
Implicit Type st : DHT.t RT DS.
#[local] Existing Instances action_ret action_bind.

#[global] Instance store_only_frame : Frame (@store_only RT DS).
Proof.
  split.
  - intros st. split; [done|]. by destruct st.
  - intros st st' st'' ev ev' [Hev Hst] [Hev' Hst']. split.
    + by rewrite sends_app, Hev, Hev'.
    + rewrite Hst' at 1. rewrite Hst at 1. by destruct st.
Qed.

#[global] Instance store_only_quiet : FrameQuiet (@store_only RT DS).
Proof.
  intros st e He. split; [|by destruct st].
  rewrite sends_cons. destruct e; try done. by destruct (He to m).
Qed.

#[global] Instance store_only_store : FrameStore (@store_only RT DS).
Proof. split; intros; (split; [done|]); by destruct st. Qed.

(** X12. [store] and [_on_storeValue] send nothing and change nothing but the
    value store and the count of clock readings: peers, routing table,
    searches and known nodes are as before. *)
Theorem store_changes_store_only (key : atom) (value : pyval) (pub : atom) (age : Z)
    (kwargs : gmap string atom) (msg : Store.t) st :
  store_only st (state_of (store env key value pub age kwargs st))
    (trace_of (store env key value pub age kwargs st))
  ∧ store_only st (state_of (_on_storeValue env msg st)) (trace_of (_on_storeValue env msg st)).
Proof.
  split.
  - apply (keeps_store env (@store_only RT DS)); typeclasses eauto.
  - apply (keeps_on_storeValue env (@store_only RT DS)); typeclasses eauto.
Qed.

(** [_on_storeValue] with a value that is empty, zero, [None] or [False]
    stores nothing: the store is as it was. *)
Theorem on_storeValue_empty_value (key : atom) (value : pyval) (pub : atom) (age : Z) st :
  truthy value = false →
  _on_storeValue env (Store.mk (Some key) (Some value) (Some pub) (Some age)) st
  = (Ok (), DHT.set_clock_reads (S (DHT.clock_reads st)) st,
     [Log debug "Received Store Command"; Log info "No value to store"]).
Proof. intros Hv. unfold _on_storeValue. steps. rewrite Hv. steps. done. Qed.

#[global] Instance store_kept_frame : Frame (@store_kept RT DS).
Proof. split; [done|]. unfold store_kept. intros. congruence. Qed.

#[global] Instance store_kept_quiet : FrameQuiet (@store_kept RT DS).
Proof. by intros st e He. Qed.

#[global] Instance store_kept_send : FrameSend (@store_kept RT DS).
Proof. by intros st to m. Qed.

#[global] Instance store_kept_peers : FramePeers (@store_kept RT DS).
Proof. split; done. Qed.

#[global] Instance store_kept_search : FrameSearch (λ _, True) (@store_kept RT DS).
Proof. by intros st r f _. Qed.

(** X13. Answering a [findNode] request, taking in found nodes, adding a peer and
    an iteration of a search never write to the value store. *)
Theorem lookups_keep_store (msg : FindNode.t) (findID : atom) (foundNodes : list tuple)
    (uri pubkey guid nickname : atom) (r : nat) (findValue : bool) st :
  DHT._dataStore (state_of (on_find_node env msg st)) = DHT._dataStore st
  ∧ DHT._dataStore (state_of (extendShortlist env findID foundNodes st)) = DHT._dataStore st
  ∧ DHT._dataStore (state_of (add_peer env uri pubkey guid nickname st)) = DHT._dataStore st
  ∧ DHT._dataStore (state_of (_searchIteration env r findValue st)) = DHT._dataStore st.
Proof.
  split; [|split; [|split]].
  - apply (keeps_on_find_node env (@store_kept RT DS)); typeclasses eauto.
  - apply (keeps_extendShortlist env (@store_kept RT DS) (λ _, True));
      first [typeclasses eauto | done].
  - apply (keeps_add_peer env (@store_kept RT DS)); typeclasses eauto.
  - apply (keeps_searchIteration env (@store_kept RT DS) (λ _, True));
      first [typeclasses eauto | done].
Qed.

End Stores.

(** ** The active searches only grow *)

Section Grow.
Context {RT DS : Type} `{!RoutingTable RT} `{!DataStore DS}.
Variable env : Env.
Implicit Type st : DHT.t RT DS.
#[local] Existing Instances action_ret action_bind.

#[global] Instance searches_grow_frame : Frame (@searches_grow RT DS).
Proof.
  split; [intros st; by unfold searches_grow|]. unfold searches_grow. intros st st' st'' ev ev' H1 H2. by etrans.
Qed.

#[global] Instance searches_grow_quiet : FrameQuiet (@searches_grow RT DS).
Proof. intros st e He. by unfold searches_grow. Qed.

#[global] Instance searches_grow_send : FrameSend (@searches_grow RT DS).
Proof. intros st to m. by unfold searches_grow. Qed.

#[global] Instance searches_grow_peers : FramePeers (@searches_grow RT DS).
Proof. split; intros; by unfold searches_grow. Qed.

#[global] Instance searches_grow_store : FrameStore (@searches_grow RT DS).
Proof. split; intros; by unfold searches_grow. Qed.

#[global] Instance searches_grow_search : FrameSearch (λ _, True) (@searches_grow RT DS).
Proof. intros st r f _. by unfold searches_grow. Qed.

#[global] Instance searches_grow_new_search : FrameNewSearch (@searches_grow RT DS).
Proof.
  split; intros; unfold searches_grow; simpl; [done | done | by apply prefix_app_r].
Qed.

(** X14. No call but the arrival of a [findNodeResponse] takes a search off the
    list of active searches: lookups, stores, the maintenance run and the
    other handlers leave the searches there were in their places and at most
    append new ones. *)
Theorem searches_only_grow (c : call) st :
  (∀ msg, c ≠ Call_on_findNodeResponse msg) →
  DHT._searches st `prefix_of` DHT._searches (state_of (run env c st)).
Proof.
  intros Hc. apply (keeps_run env (@searches_grow RT DS) (λ _, True)); try done.
  intros msg ->. by destruct (Hc msg).
Qed.

End Grow.

(** ** The index merge of [storeKeyValue] *)

Section Merge.
Context {RT DS : Type} `{!RoutingTable RT} `{!DataStore DS} `{!DataStoreLaws DS}.
Variable env : Env.
Implicit Type st : DHT.t RT DS.
#[local] Existing Instances action_ret action_bind.

(** X15. [storeKeyValue], the callback of [iterativeStore], with a value that
    decodes to [{keyword_index_add: x}] for a key under which the store holds
    an index [{listings: [...]}]: the store then holds the index with [x]
    added at the end, or as it was when [x] is already listed; this is so
    whatever the list of nodes is. *)
Theorem storeKeyValue_merges_keyword (nodes : pyval) (key : atom) (s : string) (x : pyval)
    (listings : list pyval) (pub : atom) (age : Z) st :
  json_loads env s = Some (VDict [("keyword_index_add"%string, x)]) →
  getitem (DHT._dataStore st) key = VDict [("listings"%string, VList listings)] →
  getitem (DHT._dataStore (state_of (storeKeyValue env nodes key (VStr s) pub age st))) key
  = VDict [("listings"%string,
            VList (if existsb (py_eqb x) listings then listings else listings ++ [x]))].
Proof.
  intros Hj Hg. pose proof (index_merge_keyword_add env _ key s x listings Hj Hg) as Hm.
  unfold storeKeyValue. steps.
  destruct (index_merge env (DHT._dataStore st) key (VStr s)) as [merged logged].
  cbn [fst] in Hm. subst merged. steps.
  destruct (py_iter nodes) as [items|e]; steps; [|apply getitem_setItem].
  match goal with
  | |- context [store_loop items key ?v pub age ?st1] =>
      pose proof (keeps_store_loop (@store_kept RT DS) items key v pub age st1) as Hk;
      unfold store_kept, state_of in Hk;
      destruct (store_loop items key v pub age st1) as [[res2 st2] ev2]
  end.
  cbn in *. rewrite Hk. apply getitem_setItem.
Qed.

End Merge.

(** ** The republish sweep *)

Lemma hex_value_digit (n : nat) : (n < 16)%nat → hex_value (hex_digit n) = Some (Z.of_nat n).
Proof.
  intros Hn. do 16 (destruct n as [|n]; [reflexivity|]). lia.
Qed.

(** [s.encode('hex').decode('hex')] is [s]. *)
Lemma hex_decode_encode (s : string) : hex_decode (hex_encode s) = Some s.
Proof.
  induction s as [|c s IH]; [done|]. cbn [hex_encode hex_decode].
  pose proof (nat_ascii_bounded c) as Hc.
  rewrite !hex_value_digit, IH.
  - f_equal. f_equal.
    replace (16 * Z.of_nat (nat_of_ascii c / 16) + Z.of_nat (nat_of_ascii c mod 16))
      with (Z.of_nat (nat_of_ascii c)).
    + by rewrite Nat2Z.id, ascii_nat_embedding.
    + rewrite (Nat.div_mod_eq (nat_of_ascii c) 16) at 1. lia.
  - apply Nat.mod_upper_bound. lia.
  - apply Nat.Div0.div_lt_upper_bound. lia.
Qed.

Lemma hex_encode_inj (s t : string) : hex_encode s = hex_encode t → s = t.
Proof.
  intros Heq. apply (f_equal hex_decode) in Heq. rewrite !hex_decode_encode in Heq.
  by injection Heq.
Qed.

Section Sweep.
Context {RT DS : Type} `{!RoutingTable RT} `{!DataStore DS}.
Variable env : Env.
Implicit Type st : DHT.t RT DS.
#[local] Existing Instances action_ret action_bind.

Lemma result_bind {A B} (m : action A) (f : A → action B) st (b : B) :
  result_of ((m ≫= f) st) = Ok b → ∃ a st', result_of (f a st') = Ok b.
Proof.
  rewrite bind_run. destruct (m st) as [[[a|e] st'] ev]; [|done].
  intros Hb. exists a, st'. unfold result_of in *. by destruct (f a st') as [[? ?] ?].
Qed.

(** The keys the loop of the sweep puts on [expiredKeys] are keys of the
    store other than [nodeState], encoded. *)
Lemma republish_loop_expired (ks : list string) (expiredKeys : list atom) st (l : list atom) :
  result_of (republish_loop env ks expiredKeys st) = Ok l →
  ∃ more, l = expiredKeys ++ more
          ∧ Forall (λ k, ∃ key, key ∈ ks ∧ key ≠ "nodeState"%string
                                ∧ k = AStr (hex_encode key)) more.
Proof.
  revert expiredKeys st. induction ks as [|key rest IH]; intros expiredKeys st Hl.
  - injection Hl as <-. exists []. by rewrite app_nil_r.
  - assert (∀ expired' st',
              result_of (republish_loop env rest expired' st') = Ok l →
              (expired' = expiredKeys
               ∨ (key ≠ "nodeState"%string ∧ expired' = expiredKeys ++ [AStr (hex_encode key)])) →
              ∃ more, l = expiredKeys ++ more
                      ∧ Forall (λ k, ∃ key0, key0 ∈ key :: rest ∧ key0 ≠ "nodeState"%string
                                             ∧ k = AStr (hex_encode key0)) more) as Hstep.
    { intros expired' st' Hres Hexp. destruct (IH _ _ Hres) as (more & -> & Hmore).
      assert (Forall (λ k, ∃ key0, key0 ∈ key :: rest ∧ key0 ≠ "nodeState"%string
                                   ∧ k = AStr (hex_encode key0)) more) as Hmore'.
      { eapply Forall_impl; [exact Hmore|]. intros k (key0 & ? & ? & ?).
        exists key0. split; [by right | done]. }
      destruct Hexp as [->|[Hne ->]].
      - by exists more.
      - exists (AStr (hex_encode key) :: more). rewrite <- app_assoc. split; [done|].
        apply Forall_cons_2; [|done]. exists key. split; [by left | done]. }
    cbn [republish_loop] in Hl.
    destruct (String.eqb key "nodeState") eqn:Hkey.
    { eapply Hstep; [exact Hl | by left]. }
    apply String.eqb_neq in Hkey.
    apply result_bind in Hl as (now & st1 & Hl).
    apply result_bind in Hl as (ds & st2 & Hl).
    apply result_bind in Hl as (settings_guid & st3 & Hl).
    case_bool_decide as Hown.
    + apply result_bind in Hl as (? & st4 & Hl). eapply Hstep; [exact Hl | by left].
    + destruct (constants.dataExpireTimeout (consts env) <=? _).
      * eapply Hstep; [exact Hl | by right].
      * destruct (constants.replicateInterval (consts env) <=? _).
        -- apply result_bind in Hl as (? & st4 & Hl). eapply Hstep; [exact Hl | by left].
        -- eapply Hstep; [exact Hl | by left].
Qed.

Lemma delete_expired (l : list atom) st :
  for_each (λ key, modify (λ st, DHT.set_dataStore (delitem (DHT._dataStore st) key) st)) l st
  = (Ok (replicate (length l) ()),
     DHT.set_dataStore (foldl delitem (DHT._dataStore st) l) st, []).
Proof.
  revert st. induction l as [|key l IH]; intros st; [by destruct st|].
  cbn [for_each]. rewrite bind_run. cbn [modify]. rewrite bind_run, IH. by destruct st.
Qed.

(** X16. What the sweep deletes: when [_threadedRepublishData] returns, the store
    is the store its loop left, less the keys on [expiredKeys]; each of these
    is the encoding of a key that [keys()] listed and that is not
    [nodeState], so [nodeState] is never among them. *)
Theorem threadedRepublishData_deletes st :
  let res := _threadedRepublishData env st in
  result_of res = Ok () →
  ∃ expiredKeys st1,
    result_of (republish_loop env (keys (DHT._dataStore st)) [] st) = Ok expiredKeys
    ∧ state_of (republish_loop env (keys (DHT._dataStore st)) [] st) = st1
    ∧ state_of res = DHT.set_dataStore (foldl delitem (DHT._dataStore st1) expiredKeys) st1
    ∧ Forall (λ k, ∃ key, key ∈ keys (DHT._dataStore st) ∧ key ≠ "nodeState"%string
                          ∧ k = AStr (hex_encode key)) expiredKeys
    ∧ AStr (hex_encode "nodeState") ∉ expiredKeys.
Proof.
  intros res. subst res. unfold _threadedRepublishData. rewrite bind_run. cbn [log emit].
  rewrite bind_run. cbn [gets]. rewrite bind_run.
  pose proof (republish_loop_expired (keys (DHT._dataStore st)) [] st) as Hexp.
  unfold result_of, state_of in *.
  destruct (republish_loop env (keys (DHT._dataStore st)) [] st) as [[[l|e] st1] ev1]; [|done].
  rewrite bind_run, delete_expired. cbn. intros _.
  destruct (Hexp l eq_refl) as (more & -> & Hmore). simpl.
  exists more, st1. do 3 (split; [done|]). split; [done|].
  intros Hin. eapply Forall_forall in Hmore; [|exact Hin].
  destruct Hmore as (key & _ & Hne & Heq). apply Hne.
  apply hex_encode_inj. by injection Heq.
Qed.

(** X17. The age the sweep gives a key is the time since it was published plus
    500000 seconds. So with an expiry time of at most 500000 seconds a key
    that was not published in the future always counts as expired: when the
    node is its publisher it is stored again, and when it is not, it is put
    on [expiredKeys] and the test for replication is not reached. *)
Theorem republish_loop_counts_expired (key : string) (rest : list string)
    (expiredKeys : list atom) st :
  key ≠ "nodeState"%string →
  constants.dataExpireTimeout (consts env) ≤ 500000 →
  originalPublishTime (DHT._dataStore st) (AStr (hex_encode key))
    ≤ time_time env (DHT.clock_reads st) →
  let k := AStr (hex_encode key) in
  let ds := DHT._dataStore st in
  let st1 := DHT.set_clock_reads (S (DHT.clock_reads st)) st in
  republish_loop env (key :: rest) expiredKeys st
  = (if bool_decide (originalPublisherID ds k = DHT._settings_guid st)
    then (iterativeStore env k (getitem ds k) ANone 0;;
          republish_loop env rest expiredKeys) st1
    else republish_loop env rest (expiredKeys ++ [k]) st1).
Proof.
  intros Hkey Hexp Hpub k ds st1. subst k ds st1. cbn [republish_loop].
  apply String.eqb_neq in Hkey. rewrite Hkey.
  rewrite bind_run. cbn [read_clock]. rewrite bind_run. cbn [gets]. rewrite bind_run.
  cbn [DHT._dataStore DHT.set_clock_reads DHT._settings_guid].
  assert (constants.dataExpireTimeout (consts env)
          <=? time_time env (DHT.clock_reads st)
              - originalPublishTime (DHT._dataStore st) (AStr (hex_encode key)) + 500000
          = true) as -> by (apply Z.leb_le; lia).
  cbn [gets DHT._settings_guid DHT.set_clock_reads app].
  case_bool_decide; match goal with |- _ = ?rhs => by destruct rhs as [[? ?] ?] end.
Qed.

End Sweep.

(** ** [iterativeStore] on a node alone *)

Section Isolated.
Context {RT DS : Type} `{!RoutingTable RT} `{!DataStore DS}.
Variable env : Env.
Implicit Type st : DHT.t RT DS.
#[local] Existing Instances action_ret action_bind.

(** [iterativeStore] with a value that is empty, zero, [None] or [False]
    does nothing at all. *)
Lemma iterativeStore_empty_value (key : atom) (value : pyval) (pub : atom) (age : Z) st :
  truthy value = false → iterativeStore env key value pub age st = (Ok (), st, []).
Proof. intros Hv. unfold iterativeStore. steps. by rewrite Hv. Qed.

Lemma storeKeyValue_no_nodes (key : atom) (value : pyval) (pub : atom) (age : Z) st :
  let res := storeKeyValue env (nodes_val []) key value pub age st in
  let now := time_time env (DHT.clock_reads st) in
  result_of res = Ok ()
  ∧ sends (trace_of res) = []
  ∧ state_of res
    = match (index_merge env (DHT._dataStore st) key value).1 with
      | Some v =>
          DHT.set_dataStore
            (setItem (DHT._dataStore st) key v now (now - age) pub (DHT._market_id st))
            (DHT.set_clock_reads (S (DHT.clock_reads st)) st)
      | None => st
      end.
Proof.
  intros res now. subst res now.
  pose proof (index_merge_sends env (DHT._dataStore st) key value) as Hm.
  unfold storeKeyValue. steps.
  destruct (index_merge env (DHT._dataStore st) key value) as [[v|] logged]; steps;
    cbn [snd] in Hm; simpl_sends; rewrite ?app_nil_r, Hm; done.
Qed.

Lemma searchIteration_nothing_to_do (r : nat) (findValue : bool) st (s : DHTSearch.t) :
  DHT.search_heap st !! r = Some s →
  DHTSearch._shortlist s = [] →
  DHT._activePeers st = [] →
  let res := _searchIteration env r findValue st in
  result_of res = Ok ()
  ∧ sends (trace_of res) = []
  ∧ DHT._dataStore (state_of res) = DHT._dataStore st
  ∧ DHT._searches (state_of res) = DHT._searches st.
Proof.
  intros Hs Hsl Hact res. subst res. unfold _searchIteration, prepare_iteration.
  steps. rewrite Hs. steps. rewrite Hact. steps.
  rewrite list_lookup_alter_eq, Hs. steps. rewrite Hsl. steps.
  rewrite list_lookup_alter_eq, Hs. steps. rewrite Hsl.
  destruct (negb (existsb _ _)); steps; done.
Qed.

(** X18. [iterativeStore] on a node without active peers whose routing table has
    no node close to the key: the lookup finds its shortlist empty and calls
    [storeKeyValue] with no nodes, which stores what the index merge gives
    on this node alone, under the publisher given or else the node's own
    guid, with the age given, and stores nothing when the merge gives
    nothing (a keyword taken off an index that has no listing of it);
    nothing is sent, and the search of the lookup stays among the active
    searches. *)
Theorem iterativeStore_isolated (key : atom) (value : pyval) (pub : atom) (age : Z) st :
  truthy value = true →
  key ≠ DHT._settings_guid st →
  DHT._activePeers st = [] →
  findCloseNodes (DHT._routingTable st) (DHT.peer_heap st) key
    (constants.alpha (consts env)) (DHT._settings_guid st) = [] →
  let res := iterativeStore env key value pub age st in
  let publisher := if not_none pub then pub else Transport.guid (DHT._transport st) in
  let now := time_time env (DHT.clock_reads st) in
  result_of res = Ok ()
  ∧ sends (trace_of res) = []
  ∧ DHT._dataStore (state_of res)
    = match (index_merge env (DHT._dataStore st) key value).1 with
      | Some v => setItem (DHT._dataStore st) key v now (now - age) publisher (DHT._market_id st)
      | None => DHT._dataStore st
      end
  ∧ DHT._searches (state_of res) = DHT._searches st ++ [length (DHT.search_heap st)].
Proof.
  intros Hv Hkey Hact Hclose res publisher now. subst res publisher now.
  unfold iterativeStore, iterativeFindNode, _iterativeFind. steps.
  rewrite Hv. steps. rewrite bool_decide_false by done. steps.
  rewrite Hact. steps. rewrite Hclose. steps.
  rewrite bool_decide_true by done. steps.
  rewrite list_lookup_middle by done. steps.
  set (publisher := if not_none pub then pub else Transport.guid (DHT._transport st)).
  match goal with
  | |- context [storeKeyValue env (nodes_val []) key value publisher age ?st1] =>
      destruct (storeKeyValue_no_nodes key value publisher age st1) as (Hr1 & Hs1 & Hst1);
      unfold result_of, state_of, trace_of in Hr1, Hs1, Hst1;
      destruct (storeKeyValue env (nodes_val []) key value publisher age st1)
        as [[res1 st2] ev1] eqn:Hskv
  end.
  cbn -[sends] in Hr1, Hs1, Hst1. subst res1. steps.
  assert (DHT.search_heap st2 !! length (DHT.search_heap st)
          = Some (DHTSearch.init key "findNode" (CbStoreKeyValue key value publisher age)
                    (urandom_sha1 env (DHT.random_draws st)))
          ∧ DHT._activePeers st2 = [] ∧ DHT._searches st2
            = DHT._searches st ++ [length (DHT.search_heap st)]) as (Hh2 & Hact2 & Hss2).
  { rewrite Hst1. destruct (index_merge _ _ _ _).1; simpl;
      (split; [by rewrite list_lookup_middle | done]). }
  destruct (searchIteration_nothing_to_do (length (DHT.search_heap st)) false st2 _ Hh2 eq_refl
              Hact2) as (Hr3 & Hs3 & Hd3 & Hss3).
  unfold result_of, state_of, trace_of in *.
  destruct (_searchIteration env _ false st2) as [[res3 st3] ev3].
  cbn -[sends] in *. subst res3. steps. simpl_sends.
  rewrite Hs1, Hs3, Hd3, Hss3, Hss2, Hst1. split; [done|]. split; [done|]. split; [|done].
  by destruct (index_merge _ _ _ _).1.
Qed.

End Isolated.

(** ** A response no search waits for *)

Section Stale.
Context {RT DS : Type} `{!RoutingTable RT} `{!DataStore DS}.
Variable env : Env.
Implicit Type st : DHT.t RT DS.
#[local] Existing Instances action_ret action_bind.

Lemma refresh_sender_peers (activePeers : list nat) (msg : FindNodeResponse.t) st :
  let res := refresh_sender activePeers msg st in
  trace_of res = []
  ∧ state_of res = DHT.set_peer_heap (DHT.peer_heap (state_of res)) st.
Proof.
  revert st. induction activePeers as [|r rest IH]; intros st res; subst res.
  - split; [done | by destruct st].
  - cbn [refresh_sender]. rewrite bind_run. unfold get_peer.
    destruct (DHT.peer_heap st !! r) as [peer|]; [|split; [done | by destruct st]].
    rewrite bind_run. unfold field.
    destruct (FindNodeResponse.senderGUID msg) as [senderGUID|];
      [|split; [done | by destruct st]].
    cbn [mret action_ret]. rewrite bind_run.
    assert (∀ st1 : DHT.t RT DS,
              st1 = DHT.set_peer_heap (DHT.peer_heap st1) st →
              let res := refresh_sender rest msg st1 in
              trace_of res = []
              ∧ state_of res = DHT.set_peer_heap (DHT.peer_heap (state_of res)) st) as Hrest.
    { intros st1 Hst1 res. subst res. destruct (IH st1) as [Hev Hst]. split; [done|].
      rewrite Hst at 1. rewrite Hst1. by destruct st. }
    case_bool_decide.
    + destruct (FindNodeResponse.senderNick msg) as [senderNick|];
        [|split; [done | by destruct st]].
      destruct (FindNodeResponse.pubkey msg) as [pubkey|]; steps;
        [|split; [done | by destruct st]].
      match goal with
      | |- context [refresh_sender rest msg ?st1] =>
          destruct (Hrest st1) as [Hev Hst]; [by destruct st|];
          unfold trace_of, state_of in *;
          destruct (refresh_sender rest msg st1) as [[res2 st2] ev2]
      end.
      cbn in *. subst ev2. by destruct res2.
    + steps. destruct (Hrest st) as [Hev Hst]; [by destruct st|].
      unfold trace_of, state_of in *.
      destruct (refresh_sender rest msg st) as [[res2 st2] ev2].
      cbn in *. subst ev2. by destruct res2.
Qed.

Lemma find_search_none st (findID : atom) :
  activeSearchExists st findID = false → find_search st findID = None.
Proof.
  unfold activeSearchExists, find_search. intros Hex.
  assert (filter (λ r, has_findID st findID r = true) (DHT._searches st) = []) as ->; [|done].
  induction (DHT._searches st) as [|r l IH]; [done|].
  simpl in Hex. apply orb_false_iff in Hex as [Hr Hl].
  rewrite filter_cons_False by (by rewrite Hr). by apply IH.
Qed.

(** X19. A [findNodeResponse] with found nodes for a find id that no active
    search has: nothing changes but peer objects (the nickname and public key
    of the sender are put on the active peers that have its guid); nothing is
    sent, no callback runs, and the searches, the routing table and the store
    are as before. *)
Theorem on_findNodeResponse_stale (msg : FindNodeResponse.t) (findID : atom) st :
  FindNodeResponse.foundKey msg = None →
  FindNodeResponse.foundNode msg = None →
  FindNodeResponse.findID msg = Some findID →
  activeSearchExists st findID = false →
  let res := on_findNodeResponse env msg st in
  sends (trace_of res) = []
  ∧ (∀ name arg, Invoke name arg ∉ trace_of res)
  ∧ state_of res = DHT.set_peer_heap (DHT.peer_heap (state_of res)) st
  ∧ (result_of res = Ok () → trace_of res = [Log info "No search found"]).
Proof.
  intros Hkey Hnode Hid Hex res. subst res. unfold on_findNodeResponse.
  rewrite bind_run. cbn [gets]. rewrite bind_run.
  destruct (refresh_sender_peers (DHT._activePeers st) msg st) as [Hev Hst].
  unfold trace_of, state_of, result_of in *.
  destruct (refresh_sender (DHT._activePeers st) msg st) as [[res1 st1] ev1].
  cbn in Hev, Hst. subst ev1.
  destruct res1 as [[]|e]; [|by cbn; repeat split; try done; intros ?? ?%elem_of_nil].
  rewrite Hkey, Hnode, Hid. steps.
  assert (find_search st1 findID = find_search st findID) as -> by (by rewrite Hst).
  rewrite find_search_none by done. steps.
  split; [done|]. split; [|done].
  intros name arg Hin. apply list_elem_of_singleton in Hin. done.
Qed.

End Stale.

(** ** The web port of [start_node] *)

Lemma listen_loop_from (listen : Z → bool) (fuel : nat) (port : Z) :
  8888 ≤ port ≤ 8988 → 8988 - port ≤ Z.of_nat fuel →
  ∃ p, port ≤ p ≤ 8988
       ∧ (∀ q, port ≤ q < p → listen q = false)
       ∧ (tornadoloop.listen_loop listen fuel true port = (false, p) ∧ p < 8988 ∧ listen p = true
          ∨ tornadoloop.listen_loop listen fuel true port = (true, p) ∧ p = 8988).
Proof.
  revert port. induction fuel as [|fuel IH]; intros port Hport Hfuel.
  - assert (port = 8988) as -> by lia. exists 8988. split; [lia|]. split; [lia|]. by right.
  - cbn [tornadoloop.listen_loop andb].
    destruct (port <? 8988) eqn:Hlt.
    + apply Z.ltb_lt in Hlt. destruct (listen port) eqn:Hl.
      * exists port. split; [lia|]. split; [lia|]. left.
        split; [by destruct fuel | done].
      * destruct (IH (port + 1)) as (p & Hp & Hfree & Hres); [lia | lia |].
        exists p. split; [lia|]. split; [|done].
        intros q Hq. destruct (decide (q = port)) as [->|Hne]; [done|]. apply Hfree. lia.
    + apply Z.ltb_ge in Hlt. assert (port = 8988) as -> by lia.
      exists 8988. split; [lia|]. split; [lia|]. by right.
Qed.

(** X20. The web port [start_node] ends up with: the first of the ports 8888 to
    8987 that the application can listen on, no port below it having
    answered; when none of the hundred answers, the loop gives up with
    [error] still set and the port at 8988, on which nothing listens. More
    turns of the loop would change nothing. *)
Theorem start_node_http_port (listen : Z → bool) :
  ∃ p, 8888 ≤ p ≤ 8988
       ∧ (∀ q, 8888 ≤ q < p → listen q = false)
       ∧ (tornadoloop.find_http_port listen = (false, p) ∧ p < 8988 ∧ listen p = true
          ∨ tornadoloop.find_http_port listen = (true, p) ∧ p = 8988)
       ∧ ∀ fuel, (100 ≤ fuel)%nat →
                 tornadoloop.listen_loop listen fuel true 8888 = tornadoloop.find_http_port listen.
Proof.
  destruct (listen_loop_from listen 100 8888) as (p & Hp & Hfree & Hres); [lia | lia |].
  exists p. split; [done|]. split; [done|]. split; [done|].
  intros fuel Hfuel.
  destruct (listen_loop_from listen fuel 8888) as (p' & Hp' & Hfree' & Hres'); [lia | lia |].
  unfold tornadoloop.find_http_port in *.
  assert (p' = p) as ->.
  { destruct Hres as [(_ & Hlt & Hl)|[_ ->]], Hres' as [(_ & Hlt' & Hl')|[_ ->]]; try done.
    - destruct (Z.lt_trichotomy p p') as [?|[?|?]]; [|done|].
      + rewrite Hfree' in Hl by lia. done.
      + rewrite Hfree in Hl' by lia. done.
    - rewrite Hfree' in Hl by lia. done.
    - rewrite Hfree in Hl' by lia. done. }
  destruct Hres as [(-> & Hlt & Hl)|[-> ->]], Hres' as [(-> & Hlt' & Hl')|[-> Heq]];
    first [done | lia | congruence].
Qed.

(** ** The routing table and the store the examples run on *)

Lemma insert_near_elem (heap : list Peer.t) (key : atom) (r x : nat) (l : list nat) :
  x ∈ FlatTable.insert_near heap key r l ↔ x = r ∨ x ∈ l.
Proof.
  induction l as [|r' l IH]; simpl.
  - set_solver.
  - case_match; rewrite ?elem_of_cons, ?IH; naive_solver.
Qed.

Lemma sorted_near_elem (heap : list Peer.t) (key : atom) (x : nat) (l : list nat) :
  x ∈ foldr (FlatTable.insert_near heap key) [] l ↔ x ∈ l.
Proof.
  induction l as [|r l IH]; simpl; [done|].
  rewrite insert_near_elem, elem_of_cons, IH. done.
Qed.

Lemma close_elem (rt : FlatTable.t) (heap : list Peer.t) (key ex : atom) (n : Z) (r : nat) :
  r ∈ FlatTable.close rt heap key n ex →
  is_Some (heap !! r) ∧ FlatTable.guid_of heap r ≠ Some ex.
Proof.
  unfold FlatTable.close. intros Hr.
  eapply elem_of_sublist in Hr; [|apply sublist_take].
  apply sorted_near_elem, list_elem_of_filter in Hr. tauto.
Qed.

#[global] Instance flat_routing_table_laws : RoutingTableLaws FlatTable.t.
Proof.
  split.
  - intros rt heap key n ex Hn. simpl. unfold FlatTable.close.
    rewrite length_take. lia.
  - intros rt heap key n ex r p Hr Hp. apply close_elem in Hr as [_ Hne].
    unfold FlatTable.guid_of in Hne. rewrite Hp in Hne. simpl in Hne. congruence.
  - intros rt heap key n ex r Hr. by apply close_elem in Hr as [? _].
  - intros rt heap guid r Hr. simpl in Hr. unfold FlatTable.get in Hr.
    apply head_Some_elem_of, list_elem_of_filter in Hr as [Hg _].
    unfold FlatTable.guid_of in Hg. destruct (heap !! r); [by eexists | done].
Qed.

#[global] Instance dict_data_store_laws : DataStoreLaws DictStore.t.
Proof.
  split.
  - intros ds key v lp op pub mk. simpl. unfold DictStore.get, DictStore.put. simpl.
    by rewrite lookup_insert_eq.
  - intros ds key key' v lp op pub mk Hne. simpl. unfold DictStore.get, DictStore.put. simpl.
    by rewrite lookup_insert_ne.
Qed.

(** ** The claims on the example node *)

(** C1, where the code departs from the claim: after two [store] messages
    with [keyword_index_add] ["L1"] and ["L2"] for one key, the store holds
    the second payload as it came, not the merged index
    [{listings: ["L1", "L2"]}]. *)
Theorem on_storeValue_keeps_last_payload :
  let st := (run_all Demo.env
               [Call_on_storeValue (Demo.keyword_index_add "L1");
                Call_on_storeValue (Demo.keyword_index_add "L2")] Demo.node).1 in
  getitem (DHT._dataStore st) (AStr "6b") = VDict [("keyword_index_add"%string, VStr "L2")].
Proof. vm_compute. reflexivity. Qed.

(** [storeKeyValue] on the example node: the local node first in the list,
    the contact [f2] second; nothing is sent to [f2]. *)
Example storeKeyValue_self_first :
  sends (trace_of (storeKeyValue Demo.env
           (nodes_val [[AStr "10.0.0.1"; AInt 1000; AStr "00"];
                       [AStr "10.0.0.3"; AInt 1000; AStr "f2"]])
           (AStr "6b") (VStr "hello") (AStr "00") 0 Demo.node)) = [].
Proof. vm_compute. reflexivity. Qed.

(** The same list the other way round: [f2] gets its [store] message. *)
Example storeKeyValue_self_last :
  sends (trace_of (storeKeyValue Demo.env
           (nodes_val [[AStr "10.0.0.3"; AInt 1000; AStr "f2"];
                       [AStr "10.0.0.1"; AInt 1000; AStr "00"]])
           (AStr "6b") (VStr "hello") (AStr "00") 0 Demo.node))
  = [(Contact 1, proto_store (AStr "6b") (VStr "hello") (AStr "00") 0)].
Proof. vm_compute. reflexivity. Qed.

Lemma on_find_node_reply_witness :
  ∃ nodes,
    sends (trace_of (on_find_node Demo.env Demo.find_node Demo.node))
    = [(Contact 1,
        MFindNodeResponse
          {| FindNodeResponse.senderGUID := Some (AStr "00");
             FindNodeResponse.senderNick := Some (AStr "nick1");
             FindNodeResponse.uri := Some (AStr "tcp://10.0.0.1:1000");
             FindNodeResponse.pubkey := Some (AStr "pk1");
             FindNodeResponse.foundKey := None;
             FindNodeResponse.foundNode := None;
             FindNodeResponse.foundNodes := Some nodes;
             FindNodeResponse.findID := Some (AStr "ab") |})]
    ∧ Z.of_nat (length nodes) ≤ 20
    ∧ (∀ t, t ∈ nodes → t !! 0%nat ≠ Some (AStr "f2"))
    ∧ [AStr "f4"; AStr "tcp://10.0.0.4:1000"; AStr "pk4"; AStr "nick4"] ∈ nodes
    ∧ [AStr "f8"; AStr "tcp://10.0.0.5:1000"; AStr "pk5"; AStr "nick5"] ∈ nodes.
Proof.
  assert (0 ≤ constants.k (consts Demo.env)) as Hk by (vm_compute; discriminate).
  destruct (proj2 (on_find_node_reply Demo.env Demo.find_node Demo.node Hk)
              (AStr "f2") 1%nat (AStr "f0") (AStr "ab") (AStr "tcp://10.0.0.3:1000")
              (AStr "pk3") false)
    as (_ & _ & _ & _ & foundKey & foundNode & foundNodes & Hout & _ & _ & Hnodes);
    try (vm_compute; congruence).
  destruct Hnodes as (-> & -> & nodes & -> & Hlen & Hsub & Hfrom & Hall & Hnd).
  { right. split; vm_compute; reflexivity. }
  assert (∀ n, (n = "4" ∨ n = "5")%string →
            [AStr ("f" ++ (if String.eqb n "4" then "4" else "8"));
             AStr ("tcp://10.0.0." ++ n ++ ":1000"); AStr ("pk" ++ n); AStr ("nick" ++ n)]
            ∈ nodes) as Hmem.
  { intros n Hn.
    destruct (Hall (if String.eqb n "4" then 2%nat else 3%nat)
                (Demo.peer (if String.eqb n "4" then "f4" else "f8") n)) as (t & Ht & Hfs).
    { destruct Hn as [-> | ->]; compute_done. }
    { destruct Hn as [-> | ->]; reflexivity. }
    pose proof (elem_of_sublist _ _ _ Ht Hsub) as Hin.
    assert (t = [AStr "f4"; AStr "tcp://10.0.0.4:1000"; AStr "pk4"; AStr "nick4"]
            ∨ t = [AStr "f8"; AStr "tcp://10.0.0.5:1000"; AStr "pk5"; AStr "nick5"]) as Ht2.
    { clear -Hin. vm_compute in Hin. set_solver. }
    destruct Hn as [-> | ->], Ht2 as [-> | ->]; try exact Ht; exfalso; revert Hfs;
      clear; compute_done. }
  exists nodes. split; [exact Hout|]. split; [exact Hlen|]. split; [|split].
  - intros t Ht. destruct (Hfrom t Ht) as (c & p & _ & _ & -> & Hne). simpl. congruence.
  - apply (Hmem "4"%string). by left.
  - apply (Hmem "5"%string). by right.
Defined.

Lemma on_find_node_precondition_raises_witness :
  on_find_node Demo.env Demo.find_node_no_key Demo.node
  = (Raise KeyError, Demo.node, [Log debug "Received a findNode request: %s"])
  ∧ on_find_node Demo.env Demo.find_node_none_key Demo.node
    = (Raise AssertionError, Demo.node, [Log debug "Received a findNode request: %s"]).
Proof.
  split.
  - destruct (on_find_node_precondition_raises Demo.env Demo.find_node_no_key Demo.node)
      as (e & Heq & _ & Hkey & _); [left; left; reflexivity|].
    rewrite Heq. rewrite (proj2 Hkey); [reflexivity|]. right. left. reflexivity.
  - destruct (on_find_node_precondition_raises Demo.env Demo.find_node_none_key Demo.node)
      as (e & Heq & _ & _ & Hassert); [left; right; reflexivity|].
    rewrite Heq. rewrite (proj2 Hassert); [reflexivity|]. repeat split; eexists; reflexivity.
Defined.

(** C5 as stated fails: a request without its [key] is not dropped, a
    [KeyError] reaches the caller. *)
Lemma on_find_node_exception_counterexample :
  missing (FindNode.key Demo.find_node_no_key)
  ∧ result_of (on_find_node Demo.env Demo.find_node_no_key Demo.node) = Raise KeyError.
Proof. split; [by left | vm_compute; reflexivity]. Qed.

Lemma extendShortlist_appends_witness :
  find_search Demo.searching (AStr "f") = Some 0%nat
  ∧ ∃ s n, DHT.search_heap Demo.searching !! 0%nat = Some s
         ∧ DHTSearch._findID s = AStr "f"
         ∧ (n ≤ length [Demo.found_f1; Demo.found_self])%nat
         ∧ DHT.search_heap
             (state_of (extendShortlist Demo.env (AStr "f")
                          [Demo.found_f1; Demo.found_self] Demo.searching))
           = <[0%nat := DHTSearch.set_shortlist
                      (DHTSearch.extend (DHTSearch._shortlist s)
                         (shortlist_entry Demo.env <$>
                            take n [Demo.found_f1; Demo.found_self])) s]>
               (DHT.search_heap Demo.searching)
         ∧ sends (trace_of (extendShortlist Demo.env (AStr "f")
                              [Demo.found_f1; Demo.found_self] Demo.searching)) = []
         ∧ (result_of (extendShortlist Demo.env (AStr "f")
                         [Demo.found_f1; Demo.found_self] Demo.searching) = Ok () →
            n = length [Demo.found_f1; Demo.found_self]
            ∧ ∀ node s', node ∈ [Demo.found_f1; Demo.found_self] →
                         DHT.search_heap
                           (state_of (extendShortlist Demo.env (AStr "f")
                                        [Demo.found_f1; Demo.found_self] Demo.searching))
                           !! 0%nat = Some s' →
                         shortlist_entry Demo.env node ∈ DHTSearch._shortlist s').
Proof.
  split; [vm_compute; reflexivity|].
  apply (extendShortlist_appends Demo.env (AStr "f") [Demo.found_f1; Demo.found_self]
           Demo.searching 0%nat).
  vm_compute; reflexivity.
Defined.

(** C8 as stated does not hold: a found node that carries the local guid is
    appended to the shortlist of the search like any other; only [add_peer]
    is skipped for it. *)
Lemma extendShortlist_self_counterexample :
  let res := extendShortlist Demo.env (AStr "f") [Demo.found_self] Demo.searching in
  DHT._settings_guid Demo.searching = Demo.me
  ∧ result_of res = Ok ()
  ∧ ∃ s s', DHT.search_heap Demo.searching !! 0%nat = Some s
            ∧ DHT.search_heap (state_of res) !! 0%nat = Some s'
            ∧ ([AStr "10.0.0.1"; AInt 1000; Demo.me; AStr "nick1"] ∉ DHTSearch._shortlist s)
            ∧ ([AStr "10.0.0.1"; AInt 1000; Demo.me; AStr "nick1"] ∈ DHTSearch._shortlist s').
Proof.
  cbv zeta. split; [reflexivity|]. split; [vm_compute; reflexivity|].
  eexists _, _. split; [vm_compute; reflexivity|]. split; [vm_compute; reflexivity|].
  split.
  - compute_done.
  - compute_done.
Qed.

Lemma searchIteration_counts_witness :
  DHT.search_heap Demo.starting !! 0%nat = Some Demo.fresh_search
  ∧ DHTSearch._contactedNow Demo.fresh_search = 0
  ∧ ∃ s', DHT.search_heap (state_of (_searchIteration Demo.env 0 false Demo.starting)) !! 0%nat
          = Some s'
          ∧ DHTSearch._contactedNow s' = 3
          ∧ length (sends (trace_of (_searchIteration Demo.env 0 false Demo.starting))) = 3%nat.
Proof.
  split; [reflexivity|]. split; [reflexivity|].
  destruct (searchIteration_counts Demo.env 0%nat false Demo.starting Demo.fresh_search)
    as (_ & s' & Hs' & _ & Hc & Hl & _); [reflexivity|].
  exists s'. split; [exact Hs'|]. split; [rewrite Hc | rewrite Hl]; vm_compute; reflexivity.
Defined.

(** C9 as stated does not hold: the lookup of [f0] probes the three contacts
    and leaves the counter at [alpha]; the peer [f1] enters the routing table
    when its handshake is done; the answer of [f2] names [f1], and the next
    iteration probes it: four probes for one search, with [alpha] three. *)
Lemma searchIteration_alpha_counterexample :
  constants.alpha (consts Demo.env) = 3
  ∧ probes (AStr "f")
      (run_all Demo.env
         [Demo.lookup; Demo.handshake_done; Call_on_findNodeResponse Demo.response]
         Demo.node).2
    = [Contact 1; Contact 2; Contact 3; Contact 0]
  ∧ DHTSearch._contactedNow <$>
      DHT.search_heap
        (run_all Demo.env
           [Demo.lookup; Demo.handshake_done; Call_on_findNodeResponse Demo.response]
           Demo.node).1
    = [4].
Proof. vm_compute. repeat split; reflexivity. Qed.

Lemma iterativeFind_abort_leaves_search_witness :
  (result_of (_iterativeFind Demo.env Demo.me None "findNode" (CbExternal "done") Demo.node)
   = Ok LookingForYourself
   ∨ ∃ node, result_of (_iterativeFind Demo.env Demo.me None "findNode" (CbExternal "done")
                          Demo.node) = Ok (ActivePeer node))
  ∧ activeSearchExists
      (state_of (_iterativeFind Demo.env Demo.me None "findNode" (CbExternal "done") Demo.node))
      (AStr "f") = true
  ∧ ∀ cs, Forall (λ c, ∀ msg, c = Call_on_findNodeResponse msg →
                              FindNodeResponse.findID msg ≠ Some (AStr "f")) cs →
          activeSearchExists
            (run_all Demo.env cs
               (state_of (_iterativeFind Demo.env Demo.me None "findNode" (CbExternal "done")
                            Demo.node))).1
            (AStr "f") = true.
Proof.
  destruct (iterativeFind_abort_leaves_search Demo.env Demo.me None (CbExternal "done") Demo.node)
    as (H1 & _ & _ & _ & H5 & H6); [left; reflexivity|].
  split; [exact H1|]. split; [exact H5 | exact H6].
Defined.

(** C2, where the code departs from the claim: the sweep takes for the age
    of a key [now - originalPublishTime + 500000], not the time since it was
    published. On a node that holds three keys published this very second,
    its own [own], the replica [rep] of [f2] and [nodeState], with expiry
    after 86400 seconds, the sweep deletes [rep], starts a lookup to store
    [own] again, and leaves [nodeState] alone. *)
Theorem threadedRepublishData_ages_by_500000 :
  let ds := DHT._dataStore Demo.storing in
  let res := _threadedRepublishData Demo.env Demo.storing in
  let ds' := DHT._dataStore (state_of res) in
  time_time Demo.env 0 - originalPublishTime ds Demo.key_rep = 0
  ∧ time_time Demo.env 0 - originalPublishTime ds Demo.key_own = 0
  ∧ constants.dataExpireTimeout (consts Demo.env) = 86400
  ∧ originalPublisherID ds Demo.key_own = DHT._settings_guid Demo.storing
  ∧ originalPublisherID ds Demo.key_rep ≠ DHT._settings_guid Demo.storing
  ∧ result_of res = Ok ()
  ∧ contains ds Demo.key_rep = true
  ∧ contains ds' Demo.key_rep = false
  ∧ DHTSearch._callback <$> DHT.search_heap (state_of res)
    = [CbStoreKeyValue Demo.key_own (VStr "mine") Demo.me 0]
  ∧ DictStore.items ds' = delete Demo.key_rep (DictStore.items ds).
Proof.
  cbv zeta. repeat split; try (vm_compute; congruence).
Qed.

(** ** More examples on the node *)

Lemma add_to_shortlist_set_witness :
  NoDup [[AStr "10.0.0.3"; AInt 1000; AStr "f2"]]
  ∧ NoDup (DHTSearch.extend [[AStr "10.0.0.3"; AInt 1000; AStr "f2"]]
             [[AStr "10.0.0.4"; AInt 1000; AStr "f4"]; [AStr "10.0.0.3"; AInt 1000; AStr "f2"];
              [AStr "10.0.0.4"; AInt 1000; AStr "f4"]]).
Proof.
  assert (NoDup [[AStr "10.0.0.3"; AInt 1000; AStr "f2"]]) as H by apply NoDup_singleton.
  split; [exact H|].
  exact (proj1 (add_to_shortlist_set [[AStr "10.0.0.3"; AInt 1000; AStr "f2"]]
                  [[AStr "10.0.0.4"; AInt 1000; AStr "f4"];
                   [AStr "10.0.0.3"; AInt 1000; AStr "f2"];
                   [AStr "10.0.0.4"; AInt 1000; AStr "f4"]] H)).
Defined.

Lemma del_enumerating_removes_witness :
  del_enumerating 3 0 [AStr "10.0.0.4"; AInt 1000; AStr "f4"]
    [[AStr "10.0.0.3"; AInt 1000; AStr "f2"]; [AStr "10.0.0.4"; AInt 1000; AStr "f4"];
     [AStr "10.0.0.5"; AInt 1000; AStr "f8"]]
  = filter (λ probe, probe ≠ [AStr "10.0.0.4"; AInt 1000; AStr "f4"])
      [[AStr "10.0.0.3"; AInt 1000; AStr "f2"]; [AStr "10.0.0.4"; AInt 1000; AStr "f4"];
       [AStr "10.0.0.5"; AInt 1000; AStr "f8"]].
Proof.
  refine (proj1 (del_enumerating_removes [AStr "10.0.0.4"; AInt 1000; AStr "f4"]
                   [[AStr "10.0.0.3"; AInt 1000; AStr "f2"];
                    [AStr "10.0.0.4"; AInt 1000; AStr "f4"];
                    [AStr "10.0.0.5"; AInt 1000; AStr "f8"]] _)).
  compute_done.
Defined.

Lemma add_known_node_set_witness :
  [AStr "10.0.0.2"; AInt 1000; AStr "f1"; AStr "nick2"]
    ∈ DHT._knownNodes
        (state_of (add_known_node [AStr "10.0.0.2"; AInt 1000; AStr "f1"; AStr "nick2"]
                     Demo.node)).
Proof.
  refine (proj1 (proj2 (proj2 (proj2
            (add_known_node_set [AStr "10.0.0.2"; AInt 1000; AStr "f1"; AStr "nick2"]
               Demo.node _))))).
  apply NoDup_nil_2.
Defined.

Lemma find_active_peer_last_witness :
  find_active_peer (AStr "tcp://10.0.0.3:1000") (AStr "pk3") (AStr "f2") (AStr "nick3")
    Demo.connected
  = (Ok (Some 1%nat), Demo.connected, []).
Proof.
  rewrite (find_active_peer_last (AStr "tcp://10.0.0.3:1000") (AStr "pk3") (AStr "f2")
             (AStr "nick3") Demo.connected).
  - vm_compute. reflexivity.
  - compute_done.
Defined.

Lemma remove_active_peer_removes_witness :
  DHT._activePeers (state_of (remove_active_peer (AStr "tcp://10.0.0.3:1000") Demo.connected))
  = [0%nat; 2%nat].
Proof.
  assert (Forall (λ r, is_Some (DHT.peer_heap Demo.connected !! r))
            (DHT._activePeers Demo.connected)) as Hall by compute_done.
  rewrite (proj1 (proj2 (proj2 (remove_active_peer_removes (AStr "tcp://10.0.0.3:1000")
                                  Demo.connected Hall)))).
  vm_compute. reflexivity.
Defined.

Lemma add_peer_new_witness :
  add_peer Demo.env (AStr "tcp://10.0.0.5:1000") (AStr "pk5") (AStr "f8") (AStr "nick5")
    Demo.connected
  = (Ok (),
     DHT.set_peer_heap (Demo.peers ++ [Demo.peer "f8" "5"]) Demo.connected,
     [Log debug "New Peer"; StartHandshake (Contact 4) true]).
Proof.
  rewrite (add_peer_new Demo.env (AStr "tcp://10.0.0.5:1000") (AStr "pk5") (AStr "f8")
             (AStr "nick5") Demo.connected).
  - vm_compute. reflexivity.
  - reflexivity.
  - repeat constructor; eexists; (split; [reflexivity|]); split; discriminate.
Defined.

Lemma on_storeValue_empty_value_witness :
  DHT._dataStore
    (state_of (_on_storeValue Demo.env
                 (Store.mk (Some (AStr "6b")) (Some (VStr "")) (Some (AStr "f2")) (Some 0))
                 Demo.node))
  = DHT._dataStore Demo.node.
Proof.
  rewrite (on_storeValue_empty_value Demo.env (AStr "6b") (VStr "") (AStr "f2") 0 Demo.node).
  - reflexivity.
  - reflexivity.
Defined.

Lemma searches_only_grow_witness :
  DHT._searches Demo.searching
  `prefix_of` DHT._searches (state_of (run Demo.env Demo.lookup Demo.searching)).
Proof.
  apply (searches_only_grow Demo.env Demo.lookup Demo.searching). intros msg. discriminate.
Defined.

Lemma storeKeyValue_merges_keyword_witness :
  getitem
    (DHT._dataStore
       (state_of (storeKeyValue Demo.env_json
                    (nodes_val [[AStr "10.0.0.3"; AInt 1000; AStr "f2"]]) (AStr "6b")
                    (VStr Demo.keyword_add_text) Demo.me 0 Demo.indexing)))
    (AStr "6b")
  = VDict [("listings"%string, VList [VStr "L1"; VStr "L2"])].
Proof.
  rewrite (storeKeyValue_merges_keyword Demo.env_json
             (nodes_val [[AStr "10.0.0.3"; AInt 1000; AStr "f2"]]) (AStr "6b")
             Demo.keyword_add_text (VStr "L2") [VStr "L1"] Demo.me 0 Demo.indexing).
  - reflexivity.
  - vm_compute. reflexivity.
  - vm_compute. reflexivity.
Defined.

Lemma threadedRepublishData_deletes_witness :
  ∃ expiredKeys st1,
    result_of (republish_loop Demo.env (keys (DHT._dataStore Demo.storing)) [] Demo.storing)
    = Ok expiredKeys
    ∧ state_of (republish_loop Demo.env (keys (DHT._dataStore Demo.storing)) [] Demo.storing)
      = st1
    ∧ state_of (_threadedRepublishData Demo.env Demo.storing)
      = DHT.set_dataStore (foldl delitem (DHT._dataStore st1) expiredKeys) st1
    ∧ Forall (λ k, ∃ key, key ∈ keys (DHT._dataStore Demo.storing) ∧ key ≠ "nodeState"%string
                          ∧ k = AStr (hex_encode key)) expiredKeys
    ∧ AStr (hex_encode "nodeState") ∉ expiredKeys.
Proof.
  apply (threadedRepublishData_deletes Demo.env Demo.storing). vm_compute. reflexivity.
Defined.

Lemma republish_loop_counts_expired_witness :
  result_of (republish_loop Demo.env ["rep"%string] [] Demo.storing) = Ok [Demo.key_rep].
Proof.
  rewrite (republish_loop_counts_expired Demo.env "rep" [] [] Demo.storing).
  - vm_compute. reflexivity.
  - discriminate.
  - vm_compute. discriminate.
  - vm_compute. discriminate.
Defined.

Lemma iterativeStore_isolated_witness :
  getitem
    (DHT._dataStore
       (state_of (iterativeStore Demo.env (AStr "6b") (VStr "hello") ANone 0 Demo.alone)))
    (AStr "6b")
  = VStr "hello"
  ∧ sends (trace_of (iterativeStore Demo.env (AStr "6b") (VStr "hello") ANone 0 Demo.alone))
    = [].
Proof.
  destruct (iterativeStore_isolated Demo.env (AStr "6b") (VStr "hello") ANone 0 Demo.alone)
    as (_ & Hs & Hd & _).
  - reflexivity.
  - discriminate.
  - reflexivity.
  - vm_compute. reflexivity.
  - split; [|exact Hs]. rewrite Hd. vm_compute. reflexivity.
Defined.

Lemma on_findNodeResponse_stale_witness :
  trace_of (on_findNodeResponse Demo.env Demo.response Demo.node) = [Log info "No search found"].
Proof.
  refine (proj2 (proj2 (proj2 (on_findNodeResponse_stale Demo.env Demo.response (AStr "f")
                                 Demo.node _ _ _ _))) _);
    vm_compute; reflexivity.
Defined.
